(** * tab-complete: order processing, utilities and models

    A shallow embedding of [lib/utils.py], [lib/models.py] and
    [src/main.py].  Python [float] is IEEE-754 binary64 and is modelled by
    Rocq's primitive floats (the same format, round to nearest even, with
    one NaN: the sign and payload of a NaN are not modelled);
    Python [int] is [Z]; Python [str] is [string], one [ascii] per code
    point in the range U+0000..U+00FF; a raised exception is an explicit
    outcome. *)

From Stdlib Require Import ZArith Floats String Ascii List Lia Permutation.
From stdpp Require Import base option gmap strings.
Import ListNotations.

Set Warnings "-inexact-float,-register-all".
Local Open Scope Z_scope.
#[local] Arguments String.append !s1 s2 : simpl nomatch.

(** ** Outcomes: a call returns a value or raises *)

Inductive exn :=
  OverflowError | IndexError | ValueError | TypeError | AttributeError.

Inductive outcome (A : Type) :=
  | Returns (a : A)
  | Raises (e : exn).
Arguments Returns {A} a.
Arguments Raises {A} e.

#[global] Instance outcome_ret : MRet outcome := @Returns.
#[global] Instance outcome_bind : MBind outcome := fun A B f m =>
  match m with
  | Returns a => f a
  | Raises e => Raises e
  end.

(** ** Numbers: Python's [int] and [float] *)

Inductive number :=
  | PyInt (z : Z)
  | PyFloat (x : float).

(** [float(z)] for an int: the nearest binary64 value (ties to even);
    CPython raises [OverflowError] when that value is out of range. *)
Definition float_of_int (z : Z) : outcome float :=
  match binary_normalize prec emax z 0 false with
  | S754_infinity _ => Raises OverflowError
  | sf => Returns (SF2Prim sf)
  end.

Definition to_float (a : number) : outcome float :=
  match a with
  | PyInt z => float_of_int z
  | PyFloat x => Returns x
  end.

(** [a + b]: exact on two ints, otherwise both operands are converted to
    float and added in binary64. *)
Definition py_add (a b : number) : outcome number :=
  match a, b with
  | PyInt x, PyInt y => Returns (PyInt (x + y))
  | _, _ => x ← to_float a; y ← to_float b; Returns (PyFloat (x + y)%float)
  end.

Definition py_mul (a b : number) : outcome number :=
  match a, b with
  | PyInt x, PyInt y => Returns (PyInt (x * y))
  | _, _ => x ← to_float a; y ← to_float b; Returns (PyFloat (x * y)%float)
  end.

(** The builtin [sum(iterable)]: start at the int [0] and add the items
    from left to right (the compensated variant of recent CPython
    versions is [sum_compensated] below). *)
Fixpoint sum_from (acc : number) (items : list number) : outcome number :=
  match items with
  | [] => Returns acc
  | x :: rest => acc' ← py_add acc x; sum_from acc' rest
  end.

Definition py_sum (items : list number) : outcome number :=
  sum_from (PyInt 0) items.

(** The exact value of a finite float, in units of 2^-1074 (every finite
    binary64 value is an integer multiple of 2^-1074). *)
Definition sf_exact (sf : spec_float) : option Z :=
  match sf with
  | S754_zero _ => Some 0
  | S754_finite s m e => Some (cond_Zopp s (Z.pos m * 2 ^ (e + 1074)))
  | _ => None
  end.

Definition float_exact (x : float) : option Z := sf_exact (Prim2SF x).

(** ** Decimal rendering used by the format specification [,.2f] *)

Definition digit_char (d : Z) : ascii := ascii_of_nat (48 + Z.to_nat d).

Fixpoint digits_from (fuel : nat) (n : Z) (acc : string) : string :=
  match fuel with
  | O => acc
  | S fuel' =>
      let acc' := String (digit_char (n mod 10)) acc in
      if n / 10 =? 0 then acc' else digits_from fuel' (n / 10) acc'
  end.

(** The decimal digits of [n >= 0], most significant first; the binary
    length of [n] bounds the number of decimal digits. *)
Definition decimal_digits (n : Z) : string :=
  digits_from (S (Z.to_nat (Z.log2 n))) n "".

(** The [,] option: a comma before every group of three digits, counted
    from the right. *)
Fixpoint group_thousands (ds : string) : string :=
  match ds with
  | "" => ""
  | String c rest =>
      let n := String.length rest in
      if (Nat.eqb (n mod 3) 0 && negb (Nat.eqb n 0))%bool
      then String c ("," +:+ group_thousands rest)
      else String c (group_thousands rest)
  end.

(** Nearest integer to [n / d] for [d > 0], ties to the even integer. *)
Definition round_half_even (n d : Z) : Z :=
  let q := n / d in
  match 2 * (n mod d) ?= d with
  | Lt => q
  | Gt => q + 1
  | Eq => if Z.even q then q else q + 1
  end.

(** The magnitude [m * 2^e], times 100, rounded to an integer: the
    number of hundredths that [.2f] prints. *)
Definition hundredths (m : positive) (e : Z) : Z :=
  if 0 <=? e then Z.pos m * 2 ^ e * 100
  else round_half_even (Z.pos m * 100) (2 ^ (- e)).

Definition two_digits (n : Z) : string :=
  String (digit_char (n / 10)) (String (digit_char (n mod 10)) "").

Definition render_hundredths (neg : bool) (h : Z) : string :=
  (if neg then "-" else "") +:+
  group_thousands (decimal_digits (h / 100)) +:+ "." +:+ two_digits (h mod 100).

(** [format(x, ",.2f")] for a float [x]. *)
Definition format_fixed2 (x : float) : string :=
  match Prim2SF x with
  | S754_nan => "nan"
  | S754_infinity s => if s then "-inf" else "inf"
  | S754_zero s => render_hundredths s 0
  | S754_finite s m e => render_hundredths s (hundredths m e)
  end.

(** [format(x, ".2f")] for a float [x]: as [,.2f], without the commas. *)
Definition render_plain (neg : bool) (h : Z) : string :=
  (if neg then "-" else "") +:+
  decimal_digits (h / 100) +:+ "." +:+ two_digits (h mod 100).

Definition format_plain2 (x : float) : string :=
  match Prim2SF x with
  | S754_nan => "nan"
  | S754_infinity s => if s then "-inf" else "inf"
  | S754_zero s => render_plain s 0
  | S754_finite s m e => render_plain s (hundredths m e)
  end.

(** ** lib/models.py *)

Record User := {
  user_id : Z;
  user_name : string;
  user_email : string;
  user_created_at : Z
}.

Record Product := {
  product_id : Z;
  product_name : string;
  price : float;
  description : string;
  in_stock : bool
}.

Record Order := {
  order_id : Z;
  order_user : User;
  products : list Product;
  status : string
}.

(** [Product.discounted_price] *)
Definition discounted_price (self : Product) (percent : float) : float :=
  (price self * (1 - percent / 100))%float.

(** [Order.total]: [sum(p.price for p in self.products)] *)
Definition Order_total (self : Order) : outcome number :=
  py_sum (map (fun p => PyFloat (price p)) (products self)).

(** [User.full_display]: [f"{self.name} <{self.email}>"] *)
Definition full_display (self : User) : string :=
  user_name self +:+ " <" +:+ user_email self +:+ ">".

(** [Product.__str__]: [f"{self.name} (${self.price:.2f})"] *)
Definition Product_str (self : Product) : string :=
  product_name self +:+ " ($" +:+ format_plain2 (price self) +:+ ")".

(** ** lib/utils.py *)

(** [calculate_total]: [sum(p.price for p in products)] *)
Definition calculate_total (products : list Product) : outcome number :=
  py_sum (map (fun p => PyFloat (price p)) products).

(** [format_currency]: [f"${amount:,.2f}"]; an int amount is converted
    to float by the [f] presentation type. *)
Definition format_currency (amount : number) : outcome string :=
  x ← to_float amount; Returns ("$" +:+ format_fixed2 x).

(** ** src/main.py *)

Inductive py_value :=
  | VInt (z : Z)
  | VStr (s : string)
  | VList (items : list py_value).

Definition process_order (user : User) (products : list Product)
  : outcome (gmap string py_value) :=
  subtotal ← calculate_total products;
  tax ← py_mul subtotal (PyFloat 0.08);
  total ← py_add subtotal tax;
  s_subtotal ← format_currency subtotal;
  s_tax ← format_currency tax;
  s_total ← format_currency total;
  Returns (<["user_id" := VInt (user_id user)]>
          (<["user_name" := VStr (user_name user)]>
          (<["subtotal" := VStr s_subtotal]>
          (<["tax" := VStr s_tax]>
          (<["total" := VStr s_total]>
          (<["items" := VList (map (fun p => VStr (product_name p)) products)]>
           ∅)))))).

Definition mkProduct (i : Z) (n : string) (p : float) : Product :=
  {| product_id := i; product_name := n; price := p;
     description := ""; in_stock := true |}.

Definition alice : User :=
  {| user_id := 1; user_name := "Alice"; user_email := "alice@example.com";
     user_created_at := 0 |}.

Definition demo_products : list Product :=
  [mkProduct 101 "Widget" 29.99; mkProduct 102 "Gadget" 49.99].

(** ** Strings: the [str] methods used by lib/utils.py *)

(** [sub in s] *)
Fixpoint contains (s sub : string) : bool :=
  String.prefix sub s ||
  match s with
  | "" => false
  | String _ rest => contains rest sub
  end.

(** [s.split(sep)] for a non-empty [sep]: the pieces between the
    non-overlapping occurrences of [sep], found from the left; [skip]
    counts the characters of a matched separator still to pass. *)
Fixpoint split_go (sep : string) (skip : nat) (s : string) : list string :=
  match s with
  | "" => [""]
  | String c rest =>
      match skip with
      | S k => split_go sep k rest
      | O =>
          if String.prefix sep s
          then "" :: split_go sep (String.length sep - 1) rest
          else match split_go sep 0 rest with
               | piece :: more => String c piece :: more
               | [] => [String c ""]
               end
      end
  end.

Definition split (s sep : string) : outcome (list string) :=
  match sep with
  | "" => Raises ValueError
  | _ => Returns (split_go sep 0 s)
  end.

(** [l[i]], a negative index counting from the end. *)
Definition getitem {A} (l : list A) (i : Z) : outcome A :=
  let n := Z.of_nat (length l) in
  let j := if i <? 0 then i + n else i in
  if (j <? 0) || (n <=? j) then Raises IndexError
  else match nth_error l (Z.to_nat j) with
       | Some a => Returns a
       | None => Raises IndexError
       end.

(** [c.lower()] on the code points U+0000..U+00FF: the letters A-Z and
    the Latin-1 capitals U+00C0..U+00DE (U+00D7, the multiplication sign,
    apart) move up by 32. *)
Definition lower_char (c : ascii) : ascii :=
  let n := nat_of_ascii c in
  if ((65 <=? n) && (n <=? 90) ||
      (192 <=? n) && (n <=? 222) && negb (n =? 215))%nat
  then ascii_of_nat (n + 32) else c.

Fixpoint lower (s : string) : string :=
  match s with
  | "" => ""
  | String c rest => String (lower_char c) (lower rest)
  end.

(** [s.replace(old, new)]: every non-overlapping occurrence of [old],
    found from the left, becomes [new]. *)
Fixpoint replace_go (old new : string) (skip : nat) (s : string) : string :=
  match s with
  | "" => ""
  | String c rest =>
      match skip with
      | S k => replace_go old new k rest
      | O =>
          if String.prefix old s
          then new +:+ replace_go old new (String.length old - 1) rest
          else String c (replace_go old new 0 rest)
      end
  end.

Fixpoint interleave (new s : string) : string :=
  match s with
  | "" => new
  | String c rest => new +:+ String c (interleave new rest)
  end.

Definition replace (s old new : string) : string :=
  match old with
  | "" => interleave new s
  | _ => replace_go old new 0 s
  end.

(** [s.strip(chars)]: drop the leading and the trailing characters that
    occur in [chars]. *)
Fixpoint in_chars (chars : string) (c : ascii) : bool :=
  match chars with
  | "" => false
  | String d rest => Ascii.eqb c d || in_chars rest c
  end.

Fixpoint lstrip (chars s : string) : string :=
  match s with
  | "" => ""
  | String c rest => if in_chars chars c then lstrip chars rest else s
  end.

Fixpoint rstrip (chars s : string) : string :=
  match s with
  | "" => ""
  | String c rest =>
      match rstrip chars rest with
      | "" => if in_chars chars c then "" else String c ""
      | kept => String c kept
      end
  end.

Definition strip (s chars : string) : string := rstrip chars (lstrip chars s).

(** [validate_email]: ["@" in email and "." in email.split("@")[-1]];
    [and] evaluates its right operand only when the left one is true. *)
Definition validate_email (email : string) : outcome bool :=
  if contains email "@"
  then parts ← split email "@"; domain ← getitem parts (-1);
       Returns (contains domain ".")
  else Returns false.

(** [slugify]: [text.lower().replace(" ", "-").strip("-")] *)
Definition slugify (text : string) : string :=
  strip (replace (lower text) " " "-") "-".

(** ** Vocabulary of the specification of the string utilities *)

(** The character [c] occurs in [s]. *)
Definition occurs (c : ascii) (s : string) : Prop :=
  exists a b, s = a +:+ String c b.

Fixpoint string_map (f : ascii -> ascii) (s : string) : string :=
  match s with
  | "" => ""
  | String c rest => String (f c) (string_map f rest)
  end.

Definition hyphen_for_space (c : ascii) : ascii :=
  if Ascii.eqb c " " then "-"%char else c.

Definition only_hyphens (s : string) : Prop :=
  forall c, occurs c s -> c = "-"%char.

Definition starts_with (c : ascii) (s : string) : Prop :=
  exists rest, s = String c rest.

Definition ends_with (c : ascii) (s : string) : Prop :=
  exists front, s = front +:+ String c "".

(** ** Vocabulary of the specification of the numeric utilities *)

(** The prices added from left to right in binary64, from [0.0]. *)
Definition float_sum (xs : list float) : float :=
  fold_left PrimFloat.add xs 0%float.

(** The exact value of a number, in units of 2^-1074. *)
Definition number_exact (a : number) : option Z :=
  match a with
  | PyInt z => Some (z * 2 ^ 1074)
  | PyFloat x => float_exact x
  end.

(** The exact (unrounded) sum of a list of finite values. *)
Fixpoint exact_sum (xs : list float) : option Z :=
  match xs with
  | [] => Some 0
  | x :: rest =>
      match float_exact x, exact_sum rest with
      | Some v, Some w => Some (v + w)
      | _, _ => None
      end
  end.

(** Python's [a == b] on numbers: ints and finite floats compare by
    their exact values. *)
Definition py_eq (a b : number) : bool :=
  match a, b with
  | PyFloat x, PyFloat y => PrimFloat.eqb x y
  | _, _ =>
      match number_exact a, number_exact b with
      | Some v, Some w => v =? w
      | _, _ => false
      end
  end.

(** The addition [x + y] of two finite floats is exact: the result is
    finite and no rounding took place. *)
Definition exact_add (x y : float) : bool :=
  match float_exact x, float_exact y, float_exact (x + y) with
  | Some a, Some b, Some c => c =? a + b
  | _, _, _ => false
  end.

(** Every addition of the left-to-right sum of [xs] from [acc] is exact. *)
Fixpoint exact_sum_from (acc : float) (xs : list float) : bool :=
  match xs with
  | [] => true
  | x :: rest => exact_add acc x && exact_sum_from (acc + x)%float rest
  end.

Definition is_neg_zero (x : float) : bool :=
  match Prim2SF x with
  | S754_zero true => true
  | _ => false
  end.

(** A float that is neither negative (nor -0.0) nor NaN. *)
Definition is_nonneg (x : float) : bool :=
  match Prim2SF x with
  | S754_nan => false
  | S754_zero s | S754_infinity s | S754_finite s _ _ => negb s
  end.

(** The subtotal [x] is one whose 8% vanishes in the total: it is infinite,
    or its magnitude is at most 6 * 2^-1074 (zero included). *)
Definition tax_vanishes (x : float) : bool :=
  match Prim2SF x with
  | S754_infinity _ => true
  | _ => match float_exact x with
         | Some v => Z.abs v <=? 6
         | None => false
         end
  end.

Definition subtotal_absorbs_tax (sub : number) : bool :=
  match sub with
  | PyInt z => z =? 0
  | PyFloat x => tax_vanishes x
  end.

(** The numeric total of [process_order] (lines 9 to 11): the subtotal
    plus 8% of it. *)
Definition total_with_tax (products : list Product) : outcome number :=
  subtotal ← calculate_total products;
  tax ← py_mul subtotal (PyFloat 0.08);
  py_add subtotal tax.

(** ** Vocabulary of the specification of the currency format *)

Definition is_digit (c : ascii) : bool :=
  let n := nat_of_ascii c in ((48 <=? n) && (n <=? 57))%nat.

Definition digit_value (c : ascii) : Z := Z.of_nat (nat_of_ascii c) - 48.

Fixpoint all_digits (s : string) : bool :=
  match s with
  | "" => true
  | String c rest => is_digit c && all_digits rest
  end.

(** The number written by a string of digits, after the digits [acc]. *)
Fixpoint read_digits (acc : Z) (s : string) : Z :=
  match s with
  | "" => acc
  | String c rest => read_digits (acc * 10 + digit_value c) rest
  end.

(** Reads the rest of an amount: groups of a comma and three digits,
    then a point and two digits; the result is in hundredths. *)
Fixpoint read_groups (acc : Z) (s : string) : option Z :=
  match s with
  | String x (String a (String b rest)) =>
      if Ascii.eqb x "." then
        match rest with
        | "" =>
            if is_digit a && is_digit b
            then Some (acc * 100 + 10 * digit_value a + digit_value b)
            else None
        | _ => None
        end
      else if Ascii.eqb x "," then
        match rest with
        | String c rest' =>
            if is_digit a && is_digit b && is_digit c
            then read_groups (acc * 1000 + 100 * digit_value a
                              + 10 * digit_value b + digit_value c) rest'
            else None
        | "" => None
        end
      else None
  | _ => None
  end.

(** Reads an amount with comma thousands separators and exactly two
    fraction digits: one to three digits (a leading zero only when it is
    the whole integer part), then [read_groups]. *)
Definition read_amount (s : string) : option Z :=
  match s with
  | String a rest =>
      if negb (is_digit a) then None
      else if Ascii.eqb a "0" then
        if String.prefix "." rest then read_groups 0 rest else None
      else
        match rest with
        | String b rest2 =>
            if is_digit b then
              match rest2 with
              | String c rest3 =>
                  if is_digit c
                  then read_groups (100 * digit_value a + 10 * digit_value b
                                    + digit_value c) rest3
                  else read_groups (10 * digit_value a + digit_value b) rest2
              | "" => None
              end
            else read_groups (digit_value a) rest
        | "" => None
        end
  | "" => None
  end.

(** Reads a currency string: a dollar sign, an optional minus sign, an
    amount.  The result is the sign and the hundredths. *)
Definition read_currency (s : string) : option (bool * Z) :=
  match s with
  | String d rest =>
      if Ascii.eqb d "$" then
        match rest with
        | String m rest' =>
            if Ascii.eqb m "-"
            then h ← read_amount rest'; Some (true, h)
            else h ← read_amount rest; Some (false, h)
        | "" => None
        end
      else None
  | "" => None
  end.

Definition sign_bit (x : float) : bool :=
  match Prim2SF x with
  | S754_zero s | S754_infinity s | S754_finite s _ _ => s
  | S754_nan => false
  end.

(** [h] hundredths is the magnitude of [v] (in units of 2^-1074) rounded
    to the nearest hundredth, a tie going to the even one. *)
Definition nearest_hundredth (v h : Z) : Prop :=
  let err := Z.abs (h * 2 ^ 1074 - 100 * Z.abs v) in
  2 * err <= 2 ^ 1074 /\ (2 * err = 2 ^ 1074 -> Z.even h = true).

(** [n] is written by the digit string [ds]: digits only, at least one,
    no leading zero except for the number zero. *)
Definition written_by (n : Z) (ds : string) : Prop :=
  all_digits ds = true /\ ds <> "" /\
  (forall a, read_digits a ds = a * 10 ^ Z.of_nat (String.length ds) + n) /\
  (forall rest, ds = String "0" rest -> n = 0 /\ rest = "").

(** What [group_thousands] leaves after a complete leading group. *)
Definition comma_groups (ds : string) : string :=
  match ds with
  | "" => ""
  | _ => "," +:+ group_thousands ds
  end.

(** Sample price lists: a tenth and two tenths; and 2^53, 1 and twice
    2^-53 (9007199254740992.0, 1.0, 1.1102230246251565e-16), with the
    same prices in the opposite order. *)
Definition tenths : list Product :=
  [mkProduct 1 "A" 0.1; mkProduct 2 "B" 0.2].

Definition big_first : list Product :=
  [mkProduct 1 "A" 0x1p53; mkProduct 2 "B" 1;
   mkProduct 3 "C" 0x1p-53; mkProduct 4 "D" 0x1p-53].

Definition big_last : list Product := rev big_first.

Definition round_prices : list Product :=
  [mkProduct 1 "A" 10; mkProduct 2 "B" 20; mkProduct 3 "C" 30].

(** ** Objects, the clock and the console

    Users, products and lists are mutable objects behind references; a
    program may read and write them, read the clock and print.  A run
    takes a world to an outcome and a world. *)

Inductive object :=
  | UserObj (u : User)
  | ProductObj (p : Product)
  | ListObj (items : list positive).

Inductive output :=
  | Line (text : string)
  | FormattedLine (text : string) (value : gmap string py_value).

Record world := {
  heap : gmap positive object;
  clock : Z;
  console : list output
}.

Definition prog (A : Type) : Type := world -> outcome A * world.

#[global] Instance prog_ret : MRet prog := fun A a w => (Returns a, w).
#[global] Instance prog_bind : MBind prog := fun A B f m w =>
  match m w with
  | (Returns a, w') => f a w'
  | (Raises e, w') => (Raises e, w')
  end.

Definition lift {A} (r : outcome A) : prog A := fun w => (r, w).

Definition read (r : positive) : prog object := fun w =>
  match heap w !! r with
  | Some o => (Returns o, w)
  | None => (Raises AttributeError, w)
  end.

Definition alloc (o : object) : prog positive := fun w =>
  let r := fresh (dom (heap w)) in
  (Returns r, {| heap := <[r := o]> (heap w); clock := clock w; console := console w |}).

(** [datetime.now()]: the clock is read, and time passes. *)
Definition now : prog Z := fun w =>
  (Returns (clock w), {| heap := heap w; clock := clock w + 1; console := console w |}).

Definition print (o : output) : prog unit := fun w =>
  (Returns tt, {| heap := heap w; clock := clock w; console := console w ++ [o] |}).

Definition user_attr {A} (f : User -> A) (r : positive) : prog A :=
  o ← read r;
  match o with
  | UserObj u => mret (f u)
  | _ => lift (Raises AttributeError)
  end.

Definition product_attr {A} (f : Product -> A) (r : positive) : prog A :=
  o ← read r;
  match o with
  | ProductObj p => mret (f p)
  | _ => lift (Raises AttributeError)
  end.

Definition list_items (r : positive) : prog (list positive) :=
  o ← read r;
  match o with
  | ListObj items => mret items
  | _ => lift (Raises TypeError)
  end.

(** [User(id, name, email, created_at=None)] with [__post_init__]. *)
Definition User_new (i : Z) (n e : string) (created_at : option Z) : prog positive :=
  t ← match created_at with
      | Some t => mret t
      | None => now
      end;
  alloc (UserObj {| user_id := i; user_name := n; user_email := e;
                    user_created_at := t |}).

Definition Product_new (i : Z) (n : string) (p : float) : prog positive :=
  alloc (ProductObj (mkProduct i n p)).

(** [sum(p.price for p in products)]: each price is read when the sum
    asks for the next item. *)
Fixpoint sum_prices (acc : number) (items : list positive) : prog number :=
  match items with
  | [] => mret acc
  | r :: rest =>
      x ← product_attr price r;
      acc' ← lift (py_add acc (PyFloat x));
      sum_prices acc' rest
  end.

Definition calculate_total_io (products : positive) : prog number :=
  items ← list_items products;
  sum_prices (PyInt 0) items.

(** [[p.name for p in products]] *)
Fixpoint names_of (items : list positive) : prog (list py_value) :=
  match items with
  | [] => mret []
  | r :: rest =>
      n ← product_attr product_name r;
      ns ← names_of rest;
      mret (VStr n :: ns)
  end.

Definition process_order_io (user products : positive)
  : prog (gmap string py_value) :=
  subtotal ← calculate_total_io products;
  tax ← lift (py_mul subtotal (PyFloat 0.08));
  total ← lift (py_add subtotal tax);
  uid ← user_attr user_id user;
  uname ← user_attr user_name user;
  s_subtotal ← lift (format_currency subtotal);
  s_tax ← lift (format_currency tax);
  s_total ← lift (format_currency total);
  items ← list_items products;
  names ← names_of items;
  mret (<["user_id" := VInt uid]>
       (<["user_name" := VStr uname]>
       (<["subtotal" := VStr s_subtotal]>
       (<["tax" := VStr s_tax]>
       (<["total" := VStr s_total]>
       (<["items" := VList names]> ∅)))))).

(** [main]: builds the demo objects, processes the order and prints the
    result (the text of the printed dict is not modelled). *)
Definition main : prog unit :=
  user ← User_new 1 "Alice" "alice@example.com" None;
  p1 ← Product_new 101 "Widget" 29.99;
  p2 ← Product_new 102 "Gadget" 49.99;
  products ← alloc (ListObj [p1; p2]);
  result ← process_order_io user products;
  print (FormattedLine "Order processed: " result).

(** The products behind a list of references. *)
Definition products_at (w : world) (items : list positive) (ps : list Product) : Prop :=
  Forall2 (fun r p => heap w !! r = Some (ProductObj p)) items ps.

Definition empty_world : world := {| heap := ∅; clock := 0; console := [] |}.

Definition demo_world : world :=
  {| heap := <[1%positive := UserObj alice]>
            (<[2%positive := ProductObj (mkProduct 101 "Widget" 29.99)]>
            (<[3%positive := ProductObj (mkProduct 102 "Gadget" 49.99)]>
            (<[4%positive := ListObj [2%positive; 3%positive]]> ∅)));
     clock := 1700000000;
     console := [Line "ready"] |}.

(** ** The compensated [sum] of CPython 3.12 and later

    From version 3.12 on, CPython's [sum] adds float items with a running
    compensation term (Neumaier's variant of Kahan summation) once its
    running total is a float; the term is added to the total at the end
    when it is finite and not zero. *)
Fixpoint compensated_from (f c : float) (xs : list float) : float :=
  match xs with
  | [] => if (negb (c =? 0) && is_finite c)%float then (f + c)%float else f
  | x :: rest =>
      let t := (f + x)%float in
      let c' := if (abs x <=? abs f)%float
                then (c + ((f - t) + x))%float
                else (c + ((x - t) + f))%float in
      compensated_from t c' rest
  end.

Definition sum_compensated (xs : list float) : number :=
  match xs with
  | [] => PyInt 0
  | x :: rest => PyFloat (compensated_from (0 + x) 0 rest)
  end.

(** ** The functions that call [sum], under either summation

    The repository fixes no interpreter: [sum] adds floats from left to
    right in CPython up to 3.11 and with the compensation term above from
    3.12 on.  The functions that call [sum] are given for both. *)
Inductive summation := LeftToRight | Compensated.

(** [sum(p.price for p in products)] *)
Definition sum_of_prices (how : summation) (prices : list float) : outcome number :=
  match how with
  | LeftToRight => py_sum (map PyFloat prices)
  | Compensated => Returns (sum_compensated prices)
  end.

Definition calculate_total_by (how : summation) (products : list Product)
  : outcome number :=
  sum_of_prices how (map price products).

Definition Order_total_by (how : summation) (self : Order) : outcome number :=
  sum_of_prices how (map price (products self)).

Definition process_order_by (how : summation) (user : User) (products : list Product)
  : outcome (gmap string py_value) :=
  subtotal ← calculate_total_by how products;
  tax ← py_mul subtotal (PyFloat 0.08);
  total ← py_add subtotal tax;
  s_subtotal ← format_currency subtotal;
  s_tax ← format_currency tax;
  s_total ← format_currency total;
  Returns (<["user_id" := VInt (user_id user)]>
          (<["user_name" := VStr (user_name user)]>
          (<["subtotal" := VStr s_subtotal]>
          (<["tax" := VStr s_tax]>
          (<["total" := VStr s_total]>
          (<["items" := VList (map (fun p => VStr (product_name p)) products)]>
           ∅)))))).

(** Ten products at a tenth each: the two summations disagree on them. *)
Definition ten_tenths : list Product :=
  repeat (mkProduct 1 "A" 0.1) 10.




(** An order of one product at the least positive price, 5e-324, and the
    demo order. *)
Definition tiny_order : Order :=
  {| order_id := 1; order_user := alice;
     products := [mkProduct 1 "A" 5e-324]; status := "pending" |}.

Definition demo_order : Order :=
  {| order_id := 1; order_user := alice;
     products := demo_products; status := "pending" |}.

(** * Properties *)

(** ** Strings *)

Lemma app_empty_r (s : string) : s +:+ "" = s.
Proof. induction s; simpl; congruence. Qed.

Lemma app_assoc_str (a b c : string) : (a +:+ b) +:+ c = a +:+ (b +:+ c).
Proof. induction a; simpl; congruence. Qed.

Lemma occurs_nil c : ~ occurs c "".
Proof. intros [[|x a] [b H]]; discriminate. Qed.

Lemma occurs_cons c d s : occurs c (String d s) <-> c = d \/ occurs c s.
Proof.
  split.
  - intros [[|x a] [b H]]; simpl in H; injection H as -> ->.
    + now left.
    + right. now exists a, b.
  - intros [->|[a [b ->]]].
    + now exists "", s.
    + now exists (String d a), b.
Qed.

Lemma occurs_app c a b : occurs c (a +:+ b) <-> occurs c a \/ occurs c b.
Proof.
  induction a as [|x a IH]; simpl.
  - split; [now right | intros [H|H]; [now apply occurs_nil in H | easy]].
  - rewrite !occurs_cons, IH. tauto.
Qed.

Lemma prefix_char c d s :
  String.prefix (String c "") (String d s) = Ascii.eqb c d.
Proof.
  simpl. destruct (ascii_dec c d) as [->|n].
  - rewrite Ascii.eqb_refl. now destruct s.
  - symmetry. now apply Ascii.eqb_neq.
Qed.

Lemma contains_char c s : contains s (String c "") = true <-> occurs c s.
Proof.
  induction s as [|d s IH].
  - simpl. split; [discriminate | intros H; now apply occurs_nil in H].
  - cbn [contains]. rewrite prefix_char, orb_true_iff, IH, occurs_cons.
    now rewrite Ascii.eqb_eq.
Qed.

Lemma contains_char_false c s : contains s (String c "") = false <-> ~ occurs c s.
Proof. rewrite <- contains_char. now destruct (contains s (String c "")). Qed.

(** The pieces of [s.split("@")]: the last one is what follows the last
    ['@'] of [s], or [s] itself when it has none. *)
Lemma split_go_at (s : string) :
  exists init lp,
    split_go "@" 0 s = init ++ [lp] /\ ~ occurs "@" lp /\
    (init = [] -> s = lp) /\
    (init <> [] -> exists pre, s = pre +:+ String "@" lp).
Proof.
  induction s as [|c s (init & lp & Hs & Hlp & Hnil & Hcons)].
  - exists [], "". simpl. repeat split; try easy. apply occurs_nil.
  - cbn [split_go]. rewrite prefix_char. destruct (Ascii.eqb "@" c) eqn:E.
    + apply Ascii.eqb_eq in E. subst c. simpl. rewrite Hs.
      exists ("" :: init), lp. repeat split; try easy.
      intros _. destruct init as [|x init].
      * exists "". simpl. now rewrite Hnil.
      * destruct Hcons as [pre ->]; [easy|]. now exists (String "@" pre).
    + apply Ascii.eqb_neq in E. rewrite Hs. destruct init as [|x init]; simpl.
      * exists [], (String c lp). rewrite (Hnil eq_refl). repeat split; try easy.
        rewrite occurs_cons. intros [E'|H]; [congruence | now apply Hlp].
      * exists (String c x :: init), lp. repeat split; try easy.
        intros _. destruct Hcons as [pre ->]; [easy|]. now exists (String c pre).
Qed.

Lemma getitem_last {A} (init : list A) (x : A) :
  getitem (init ++ [x]) (-1) = Returns x.
Proof.
  unfold getitem. rewrite length_app. simpl length.
  replace (-1 <? 0) with true by reflexivity.
  set (n := Z.of_nat (length init + 1)).
  assert (Hn : -1 + n = Z.of_nat (length init)) by (unfold n; lia).
  rewrite Hn.
  destruct (Z.ltb_spec (Z.of_nat (length init)) 0); [lia|].
  destruct (Z.leb_spec n (Z.of_nat (length init))); [unfold n in *; lia|].
  simpl. rewrite Nat2Z.id.
  rewrite nth_error_app2 by lia. now rewrite Nat.sub_diag.
Qed.

(** What follows the last occurrence of a character is determined by the
    string. *)
Lemma after_last_unique c (a a' b b' : string) :
  a +:+ String c b = a' +:+ String c b' ->
  ~ occurs c b -> ~ occurs c b' -> b = b'.
Proof.
  revert a'. induction a as [|x a IH]; intros [|y a'] E Hb Hb'; simpl in E.
  - congruence.
  - injection E as -> ->. exfalso. apply Hb. now exists a', b'.
  - injection E as -> <-. exfalso. apply Hb'. now exists a, b.
  - injection E as -> E. eauto.
Qed.

(** C6. [validate_email(s)] never raises, and it returns true exactly
    when [s] has an ['@'] and the part of [s] after its last ['@'] has a
    ['.']; ["user@"] is rejected, its part after the ['@'] being empty. *)
Theorem validate_email_spec :
  (forall s : string, exists b : bool,
      validate_email s = Returns b /\
      (b = true <->
       exists pre post, s = pre +:+ String "@" post /\
                        ~ occurs "@" post /\ occurs "." post)) /\
  validate_email "user@" = Returns false /\
  validate_email "user@example.com" = Returns true /\
  validate_email "userexample.com" = Returns false.
Proof.
  split; [|repeat split; reflexivity].
  intros s. unfold validate_email.
  destruct (split_go_at s) as (init & lp & Hs & Hlp & Hnil & Hcons).
  destruct (contains s "@") eqn:Hat.
  - cbn. rewrite Hs, getitem_last. cbn.
    exists (contains lp "."). split; [reflexivity|].
    apply contains_char in Hat.
    assert (Hinit : init <> []).
    { intros ->. apply Hlp. now rewrite <- (Hnil eq_refl). }
    destruct (Hcons Hinit) as [pre Hpre].
    rewrite contains_char. split.
    + intros Hdot. now exists pre, lp.
    + intros (pre' & post & E & Hpost & Hdot).
      rewrite Hpre in E.
      now rewrite (after_last_unique _ _ _ _ _ E Hlp Hpost).
  - exists false. split; [reflexivity|]. split; [discriminate|].
    intros (pre & post & -> & _). apply contains_char_false in Hat.
    exfalso. apply Hat. now exists pre, post.
Qed.

Lemma lower_map (s : string) : lower s = string_map lower_char s.
Proof. induction s; simpl; congruence. Qed.

Lemma replace_space (s : string) :
  replace s " " "-" = string_map hyphen_for_space s.
Proof.
  unfold replace. induction s as [|c s IH]; [reflexivity|].
  cbn [replace_go string_map]. rewrite prefix_char, Ascii.eqb_sym.
  unfold hyphen_for_space. destruct (Ascii.eqb c " "); simpl; now rewrite IH.
Qed.

Lemma string_map_id f (s : string) :
  (forall c, occurs c s -> f c = c) -> string_map f s = s.
Proof.
  induction s as [|d s IH]; intros H; [reflexivity|]. simpl.
  rewrite (H d), IH; [reflexivity | | ]; intros; try apply H;
    apply occurs_cons; auto.
Qed.

Lemma occurs_map f c (s : string) :
  occurs c (string_map f s) -> exists d, occurs d s /\ c = f d.
Proof.
  induction s as [|x s IH]; simpl; intros H.
  - now apply occurs_nil in H.
  - apply occurs_cons in H as [->|H].
    + exists x. split; [apply occurs_cons; now left | reflexivity].
    + destruct (IH H) as (d & Hd & ->). exists d.
      split; [apply occurs_cons; now right | reflexivity].
Qed.

Lemma snoc_cases (s : string) :
  s = "" \/ exists front c, s = front +:+ String c "".
Proof.
  induction s as [|x s [->|(front & c & ->)]]; [now left| |]; right.
  - now exists "", x.
  - now exists (String x front), c.
Qed.

Lemma snoc_inj (a b : string) c d :
  a +:+ String c "" = b +:+ String d "" -> a = b /\ c = d.
Proof.
  revert b. induction a as [|x a IH]; intros [|y b] E; simpl in E.
  - now injection E.
  - injection E as -> E. now destruct b.
  - injection E as -> E. now destruct a.
  - injection E as -> E. destruct (IH _ E) as [-> ->]. easy.
Qed.

(** [lstrip]: a prefix of characters of [chars] is dropped, and what is
    left does not start with one. *)
Lemma lstrip_spec chars (s : string) :
  exists pre,
    s = pre +:+ lstrip chars s /\
    (forall c, occurs c pre -> in_chars chars c = true) /\
    (forall c r, lstrip chars s = String c r -> in_chars chars c = false).
Proof.
  induction s as [|x s (pre & Hs & Hpre & Hhead)]; simpl.
  - exists "". repeat split; try easy. intros c H. now apply occurs_nil in H.
  - destruct (in_chars chars x) eqn:E.
    + exists (String x pre). simpl. rewrite <- Hs. repeat split; try easy.
      intros c H. apply occurs_cons in H as [->|H]; auto.
    + exists "". repeat split; try easy.
      * intros c H. now apply occurs_nil in H.
      * intros c r [= <- _]. exact E.
Qed.

(** [rstrip]: a suffix of characters of [chars] is dropped, what is left
    does not end with one, and a first character outside [chars] stays. *)
Lemma rstrip_spec chars (s : string) :
  exists post,
    s = rstrip chars s +:+ post /\
    (forall c, occurs c post -> in_chars chars c = true) /\
    (forall front c, rstrip chars s = front +:+ String c "" ->
                     in_chars chars c = false) /\
    (forall c r, s = String c r -> in_chars chars c = false ->
                 exists r', rstrip chars s = String c r').
Proof.
  induction s as [|x s (post & Hs & Hpost & Hlast & _)]; simpl.
  - exists "". split; [reflexivity|]. split; [|split].
    + intros c H. now apply occurs_nil in H.
    + intros [|y front] c H; discriminate.
    + discriminate.
  - destruct (rstrip chars s) as [|y kept] eqn:E.
    + simpl in Hs. subst post. destruct (in_chars chars x) eqn:Ex.
      * exists (String x s). split; [reflexivity|]. split; [|split].
        -- intros c H. apply occurs_cons in H as [->|H]; auto.
        -- intros [|z front] c H; discriminate.
        -- intros c r H Hc. injection H as -> _. congruence.
      * exists s. split; [reflexivity|]. split; [|split].
        -- exact Hpost.
        -- intros [|z front] c H; simpl in H.
           ++ now injection H as <-.
           ++ injection H as _ H. now destruct front.
        -- intros c r H _. injection H as -> _. now exists "".
    + exists post. split; [|split; [|split]].
      * simpl. now rewrite Hs at 1.
      * exact Hpost.
      * intros [|z front] c H; simpl in H.
        -- discriminate.
        -- injection H as _ H. now apply (Hlast front).
      * intros c r H _. injection H as -> _. now exists (String y kept).
Qed.

Lemma lstrip_id chars (s : string) :
  (forall c r, s = String c r -> in_chars chars c = false) ->
  lstrip chars s = s.
Proof.
  destruct s as [|x s]; [reflexivity|]. intros H. simpl.
  now rewrite (H x s eq_refl).
Qed.

Lemma rstrip_id chars (s : string) :
  (forall front c, s = front +:+ String c "" -> in_chars chars c = false) ->
  rstrip chars s = s.
Proof.
  intros H. destruct (rstrip_spec chars s) as (post & Hs & Hpost & _).
  destruct (snoc_cases post) as [->|(front & c & ->)].
  - now rewrite app_empty_r in Hs.
  - rewrite <- app_assoc_str in Hs. apply H in Hs.
    rewrite Hpost in Hs; [discriminate|].
    apply occurs_app. right. now exists "", "".
Qed.

Lemma in_chars_hyphen c : in_chars "-" c = true <-> c = "-"%char.
Proof. simpl. rewrite orb_false_r. apply Ascii.eqb_eq. Qed.

(** The shape of a slug: it sits inside the lowercased, hyphenated text
    between two runs of hyphens, and has no hyphen at either end. *)
Lemma slugify_shape (t : string) :
  exists pre post,
    string_map hyphen_for_space (string_map lower_char t)
      = pre +:+ slugify t +:+ post /\
    only_hyphens pre /\ only_hyphens post /\
    ~ starts_with "-" (slugify t) /\ ~ ends_with "-" (slugify t).
Proof.
  unfold slugify, strip. rewrite replace_space, lower_map.
  set (r := string_map hyphen_for_space (string_map lower_char t)).
  destruct (lstrip_spec "-" r) as (pre & Hr & Hpre & Hhead).
  destruct (rstrip_spec "-" (lstrip "-" r)) as (post & Hl & Hpost & Hlast & Hkeep).
  exists pre, post. repeat split.
  - now rewrite <- Hl.
  - intros c H. now apply in_chars_hyphen, Hpre.
  - intros c H. now apply in_chars_hyphen, Hpost.
  - intros [rest E].
    destruct (lstrip "-" r) as [|x l] eqn:El; [discriminate|].
    pose proof (Hhead x l eq_refl) as Hx.
    destruct (Hkeep x l eq_refl Hx) as [r' E']. rewrite E' in E.
    injection E as -> _. discriminate.
  - intros [front E]. now apply Hlast in E.
Qed.

(** C7. [slugify(t)] is the lowercased text with every space turned into
    a hyphen and the hyphens at both ends stripped: that text is the slug
    between two runs of hyphens, and the slug neither starts nor ends
    with a hyphen.  Nothing inside is collapsed or removed. *)
Theorem slugify_spec :
  (forall t : string, exists pre post,
      string_map hyphen_for_space (string_map lower_char t)
        = pre +:+ slugify t +:+ post /\
      only_hyphens pre /\ only_hyphens post /\
      ~ starts_with "-" (slugify t) /\ ~ ends_with "-" (slugify t)) /\
  slugify "Hello World" = "hello-world" /\
  slugify " Test " = "test" /\
  slugify "a  b - c" = "a--b---c" /\
  slugify "What's up, Doc?" = "what's-up,-doc?".
Proof. split; [exact slugify_shape | repeat split; reflexivity]. Qed.

Lemma lower_char_idem c : lower_char (lower_char c) = lower_char c.
Proof. destruct c as [[] [] [] [] [] [] [] []]; reflexivity. Qed.

Lemma lower_char_space c : lower_char c = " "%char -> c = " "%char.
Proof. destruct c as [[] [] [] [] [] [] [] []]; intros H; try reflexivity; discriminate. Qed.

(** Every character of a slug is a lowercased character other than a
    space. *)
Lemma slug_chars (t : string) c :
  occurs c (slugify t) -> lower_char c = c /\ c <> " "%char.
Proof.
  intros H. destruct (slugify_shape t) as (pre & post & Hr & _).
  assert (Hc : occurs c (string_map hyphen_for_space (string_map lower_char t))).
  { rewrite Hr. apply occurs_app. right. apply occurs_app. now left. }
  apply occurs_map in Hc as (d & Hd & ->).
  apply occurs_map in Hd as (x & _ & ->).
  unfold hyphen_for_space. destruct (Ascii.eqb (lower_char x) " ") eqn:E.
  - easy.
  - split; [apply lower_char_idem | now apply Ascii.eqb_neq].
Qed.

(** C10. [slugify] is idempotent: a slug has no capital, no space and no
    hyphen at its ends, so a second pass changes nothing. *)
Theorem slugify_idempotent (t : string) : slugify (slugify t) = slugify t.
Proof.
  destruct (slugify_shape t) as (_ & _ & _ & _ & _ & Hstart & Hend).
  set (u := slugify t) in *. unfold slugify at 1.
  rewrite lower_map, string_map_id by (intros c H; now apply (slug_chars t)).
  rewrite replace_space, string_map_id.
  - unfold strip. rewrite lstrip_id.
    + apply rstrip_id. intros front c -> .
      destruct (in_chars "-" c) eqn:E; [|reflexivity].
      apply in_chars_hyphen in E as ->. exfalso. apply Hend. now exists front.
    + intros c r ->.
      destruct (in_chars "-" c) eqn:E; [|reflexivity].
      apply in_chars_hyphen in E as ->. exfalso. apply Hstart. now exists r.
  - intros c H. apply (slug_chars t) in H as [_ H].
    unfold hyphen_for_space. apply Ascii.eqb_neq in H. now rewrite H.
Qed.

(** ** Numbers *)

Lemma float_of_int_0 : float_of_int 0 = Returns 0%float.
Proof. reflexivity. Qed.

Lemma Prim2SF_zero : Prim2SF 0 = S754_zero false.
Proof. reflexivity. Qed.

(** [0.0 + x] is [x], except that the negative zero becomes [0.0]. *)
Lemma add_zero_l (x : float) :
  (0 + x)%float = if is_neg_zero x then 0%float else x.
Proof.
  apply Prim2SF_inj. rewrite add_spec, Prim2SF_zero. unfold is_neg_zero.
  destruct (Prim2SF x) as [[]| | |] eqn:E; simpl; try easy.
Qed.

Lemma sum_from_app acc (xs ys : list number) :
  sum_from acc (xs ++ ys) = (a ← sum_from acc xs; sum_from a ys).
Proof.
  revert acc. induction xs as [|x xs IH]; intros acc; [reflexivity|].
  simpl. destruct (py_add acc x); simpl; [apply IH | reflexivity].
Qed.

Lemma sum_from_float (a : float) (xs : list float) :
  sum_from (PyFloat a) (map PyFloat xs) = Returns (PyFloat (fold_left PrimFloat.add xs a)).
Proof. revert a. induction xs as [|x xs IH]; intros a; simpl; [reflexivity | apply IH]. Qed.

(** The value of [calculate_total]: the int [0] for no product, the
    left-to-right binary64 sum otherwise. *)
Lemma calculate_total_value (ps : list Product) :
  calculate_total ps =
  Returns (match ps with
           | [] => PyInt 0
           | _ => PyFloat (float_sum (map price ps))
           end).
Proof.
  unfold calculate_total, py_sum, float_sum. destruct ps as [|p ps]; [reflexivity|].
  rewrite <- (map_map price PyFloat). cbn [map sum_from fold_left].
  change (py_add (PyInt 0) (PyFloat (price p))) with (Returns (PyFloat (0 + price p))).
  apply sum_from_float.
Qed.

Lemma format_currency_float (x : float) :
  format_currency (PyFloat x) = Returns ("$" +:+ format_fixed2 x).
Proof. reflexivity. Qed.

(** The three amounts of [process_order], as floats. *)
Lemma process_order_amounts (ps : list Product) :
  let s := float_sum (map price ps) in
  exists sub tax total : number,
    calculate_total ps = Returns sub /\
    py_mul sub (PyFloat 0.08) = Returns tax /\
    py_add sub tax = Returns total /\
    format_currency sub = format_currency (PyFloat s) /\
    tax = PyFloat (s * 0.08) /\
    total = PyFloat (s + s * 0.08).
Proof.
  intros s. rewrite calculate_total_value. destruct ps as [|p ps].
  - exists (PyInt 0), (PyFloat (0 * 0.08)), (PyFloat (0 + 0 * 0.08)).
    repeat split; reflexivity.
  - exists (PyFloat s), (PyFloat (s * 0.08)), (PyFloat (s + s * 0.08)).
    repeat split; reflexivity.
Qed.

Lemma process_order_value (u : User) (ps : list Product) :
  let s := float_sum (map price ps) in
  process_order u ps =
  Returns (<["user_id" := VInt (user_id u)]>
          (<["user_name" := VStr (user_name u)]>
          (<["subtotal" := VStr ("$" +:+ format_fixed2 s)]>
          (<["tax" := VStr ("$" +:+ format_fixed2 (s * 0.08))]>
          (<["total" := VStr ("$" +:+ format_fixed2 (s + s * 0.08))]>
          (<["items" := VList (map VStr (map product_name ps))]> ∅)))))).
Proof.
  intros s.
  destruct (process_order_amounts ps) as (sub & tax & total & Hs & Ht & Htot & Hf & Etax & Etot).
  unfold process_order.
  rewrite Hs. cbn [mbind outcome_bind]. rewrite Ht. cbn [mbind outcome_bind].
  rewrite Htot. cbn [mbind outcome_bind].
  rewrite Hf. subst tax total. rewrite !format_currency_float.
  cbn [mbind outcome_bind]. now rewrite map_map.
Qed.

(** C2. The demo order: Alice buying a Widget at 29.99 and a Gadget at
    49.99 gets subtotal "$79.98", tax "$6.40", total "$86.38" and the
    items Widget, Gadget. *)
Theorem process_order_demo :
  exists d : gmap string py_value,
    process_order alice demo_products = Returns d /\
    d !! "user_id" = Some (VInt 1) /\
    d !! "user_name" = Some (VStr "Alice") /\
    d !! "subtotal" = Some (VStr "$79.98") /\
    d !! "tax" = Some (VStr "$6.40") /\
    d !! "total" = Some (VStr "$86.38") /\
    d !! "items" = Some (VList [VStr "Widget"; VStr "Gadget"]) /\
    calculate_total demo_products = Returns (PyFloat 79.98) /\
    py_mul (PyFloat 79.98) (PyFloat 0.08) = Returns (PyFloat 6.3984000000000005) /\
    total_with_tax demo_products = Returns (PyFloat 86.3784).
Proof.
  eexists. split; [reflexivity|]. repeat split; vm_compute; reflexivity.
Qed.

(** ** Exact values of floats *)

Lemma digits2_pos_size (m : positive) : digits2_pos m = Pos.size m.
Proof. induction m; simpl; congruence. Qed.

Lemma digits2_pos_log2 (m : positive) :
  Z.pos (digits2_pos m) = Z.log2 (Z.pos m) + 1.
Proof.
  rewrite digits2_pos_size. destruct m; simpl; lia.
Qed.

(** A valid finite float has an exponent of at least -1074. *)
Lemma bounded_exponent (m : positive) (e : Z) :
  bounded prec emax m e = true -> -1074 <= e.
Proof.
  unfold bounded, canonical_mantissa, fexp, emin, prec, emax.
  intros H. apply andb_true_iff in H as [H _]. apply Z.eqb_eq in H. lia.
Qed.

Lemma finite_exact_pos (m : positive) (e : Z) :
  -1074 <= e -> 0 < Z.pos m * 2 ^ (e + 1074).
Proof. intros H. apply Z.mul_pos_pos; [lia | apply Z.pow_pos_nonneg; lia]. Qed.

(** Two valid finite floats of the same magnitude have the same mantissa
    and exponent. *)
Lemma bounded_unique (m1 m2 : positive) (e1 e2 : Z) :
  bounded prec emax m1 e1 = true -> bounded prec emax m2 e2 = true ->
  Z.pos m1 * 2 ^ (e1 + 1074) = Z.pos m2 * 2 ^ (e2 + 1074) ->
  m1 = m2 /\ e1 = e2.
Proof.
  intros B1 B2 E.
  pose proof (bounded_exponent _ _ B1) as L1.
  pose proof (bounded_exponent _ _ B2) as L2.
  assert (D : Z.log2 (Z.pos m1) + e1 = Z.log2 (Z.pos m2) + e2).
  { apply (f_equal Z.log2) in E.
    rewrite !Z.log2_mul_pow2 in E by lia. lia. }
  unfold bounded, canonical_mantissa in B1, B2.
  apply andb_true_iff in B1 as [B1 _]. apply andb_true_iff in B2 as [B2 _].
  apply Z.eqb_eq in B1, B2. rewrite digits2_pos_log2 in B1, B2.
  assert (Ee : e1 = e2).
  { rewrite <- B1, <- B2. f_equal. lia. }
  subst e2. split; [|reflexivity].
  apply Z.mul_cancel_r in E; [congruence|].
  apply Z.pow_nonzero; lia.
Qed.

(** Finite floats with the same exact value are equal for [==]. *)
Lemma float_eqb_exact (x y : float) (v : Z) :
  float_exact x = Some v -> float_exact y = Some v -> PrimFloat.eqb x y = true.
Proof.
  unfold float_exact. intros Hx Hy. rewrite FloatAxioms.eqb_spec.
  pose proof (Prim2SF_valid x) as Vx. pose proof (Prim2SF_valid y) as Vy.
  destruct (Prim2SF x) as [sx| | |sx mx ex], (Prim2SF y) as [sy| | |sy my ey];
    try discriminate; simpl in *.
  - reflexivity.
  - injection Hx as <-. injection Hy as Hy.
    pose proof (finite_exact_pos my ey (bounded_exponent _ _ Vy)).
    destruct sy; simpl in Hy; lia.
  - injection Hy as <-. injection Hx as Hx.
    pose proof (finite_exact_pos mx ex (bounded_exponent _ _ Vx)).
    destruct sx; simpl in Hx; lia.
  - injection Hx as <-. injection Hy as Hy.
    pose proof (finite_exact_pos mx ex (bounded_exponent _ _ Vx)).
    pose proof (finite_exact_pos my ey (bounded_exponent _ _ Vy)).
    assert (sx = sy /\ Z.pos my * 2 ^ (ey + 1074) = Z.pos mx * 2 ^ (ex + 1074))
      as [-> E] by (destruct sx, sy; simpl in Hy; split; (reflexivity || lia)).
    destruct (bounded_unique _ _ _ _ Vy Vx E) as [-> ->].
    unfold SFeqb, SFcompare. rewrite Z.compare_refl.
    destruct sy; now rewrite Pos.compare_cont_refl.
Qed.

(** A float that is not a NaN equals itself for [==]. *)
Lemma float_eqb_refl (x : float) :
  Prim2SF x <> S754_nan -> PrimFloat.eqb x x = true.
Proof.
  intros H. rewrite FloatAxioms.eqb_spec.
  destruct (Prim2SF x) as [s|s| |s m e]; try easy.
  - now destruct s.
  - unfold SFeqb, SFcompare. rewrite Z.compare_refl.
    destruct s; now rewrite Pos.compare_cont_refl.
Qed.

Lemma exact_add_sound (x y : float) (a b : Z) :
  exact_add x y = true -> float_exact x = Some a -> float_exact y = Some b ->
  float_exact (x + y) = Some (a + b).
Proof.
  unfold exact_add. intros H Hx Hy. rewrite Hx, Hy in H.
  destruct (float_exact (x + y)); [|discriminate].
  apply Z.eqb_eq in H. now subst.
Qed.

Lemma exact_add_finite (x y : float) :
  exact_add x y = true -> exists a b, float_exact x = Some a /\ float_exact y = Some b.
Proof.
  unfold exact_add. destruct (float_exact x), (float_exact y); try discriminate.
  eauto.
Qed.

(** When no addition rounds, the left-to-right sum has the exact value of
    the sum of the items. *)
Lemma exact_sum_from_sound (xs : list float) (acc : float) (a : Z) :
  exact_sum_from acc xs = true -> float_exact acc = Some a ->
  exists w, exact_sum xs = Some w /\
            float_exact (fold_left PrimFloat.add xs acc) = Some (a + w).
Proof.
  revert acc a. induction xs as [|x xs IH]; intros acc a H Ha; simpl in *.
  - exists 0. now rewrite Z.add_0_r.
  - apply andb_true_iff in H as [H1 H2].
    destruct (exact_add_finite _ _ H1) as (a' & b & Ha' & Hb).
    assert (a' = a) as -> by congruence.
    destruct (IH _ _ H2 (exact_add_sound _ _ _ _ H1 Ha Hb)) as (w & Hw & E).
    exists (b + w). rewrite Hb, Hw. split; [reflexivity|].
    now rewrite E, Z.add_assoc.
Qed.

Lemma exact_sum_perm (xs ys : list float) :
  Permutation xs ys -> exact_sum xs = exact_sum ys.
Proof.
  induction 1 as [|x xs ys _ IH|x y xs|xs ys zs _ IH1 _ IH2]; simpl.
  - reflexivity.
  - now rewrite IH.
  - destruct (float_exact x), (float_exact y), (exact_sum xs);
      try reflexivity. f_equal. lia.
  - congruence.
Qed.

(** ** calculate_total *)

Lemma calculate_total_snoc (ps : list Product) (p : Product) :
  calculate_total (ps ++ [p]) =
  (s ← calculate_total ps; py_add s (PyFloat (price p))).
Proof.
  unfold calculate_total, py_sum. rewrite map_app, sum_from_app.
  destruct (sum_from _ _) as [a|e]; [|reflexivity]. cbn.
  now destruct (py_add a _).
Qed.

Lemma calculate_total_exact (ps : list Product) :
  exact_sum_from 0 (map price ps) = true ->
  exists r v, calculate_total ps = Returns r /\
              number_exact r = Some v /\ exact_sum (map price ps) = Some v.
Proof.
  intros H. rewrite calculate_total_value.
  destruct (exact_sum_from_sound _ 0%float 0 H eq_refl) as (w & Hw & E).
  destruct ps as [|p ps].
  - exists (PyInt 0), 0. now split.
  - exists (PyFloat (float_sum (map price (p :: ps)))), w. now split.
Qed.

(** C4, the claim as stated fails: the same four prices total
    9007199254740992 in one order and 9007199254740994 in the opposite
    order. *)
Lemma calculate_total_order_dependent :
  Permutation big_first big_last /\
  calculate_total big_first = Returns (PyFloat 9007199254740992) /\
  calculate_total big_last = Returns (PyFloat 9007199254740994) /\
  py_eq (PyFloat 9007199254740992) (PyFloat 9007199254740994) = false.
Proof.
  split; [apply Permutation_rev|]. repeat split; vm_compute; reflexivity.
Qed.

(** C4, amended. [calculate_total] gives equal totals for a list and any
    permutation of it provided no addition rounds in either order. *)
Theorem calculate_total_permutation (ps qs : list Product) :
  Permutation ps qs ->
  exact_sum_from 0 (map price ps) = true ->
  exact_sum_from 0 (map price qs) = true ->
  exists a b, calculate_total ps = Returns a /\
              calculate_total qs = Returns b /\
              py_eq a b = true.
Proof.
  intros HP Hps Hqs.
  destruct (calculate_total_exact ps Hps) as (a & v & Ha & Hv & Ev).
  destruct (calculate_total_exact qs Hqs) as (b & w & Hb & Hw & Ew).
  exists a, b. split; [exact Ha|]. split; [exact Hb|].
  assert (v = w) as <-.
  { rewrite (exact_sum_perm _ _ (Permutation_map price HP)) in Ev. congruence. }
  unfold py_eq. destruct a as [x|x], b as [y|y];
    try (rewrite Hv, Hw; apply Z.eqb_refl).
  simpl in Hv, Hw. now apply (float_eqb_exact _ _ v).
Qed.

(** The theorem at the prices 10, 20, 30 and their reversal. *)
Lemma calculate_total_permutation_witness :
  exists a b, calculate_total round_prices = Returns a /\
              calculate_total (rev round_prices) = Returns b /\
              py_eq a b = true.
Proof.
  apply (calculate_total_permutation round_prices (rev round_prices)).
  - apply Permutation_rev.
  - vm_compute. reflexivity.
  - vm_compute. reflexivity.
Defined.

(** ** Decimal digits *)

Lemma digit_char_spec (d : Z) :
  0 <= d <= 9 ->
  is_digit (digit_char d) = true /\ digit_value (digit_char d) = d /\
  Ascii.eqb (digit_char d) "0" = (d =? 0).
Proof.
  intros H.
  assert (C : d = 0 \/ d = 1 \/ d = 2 \/ d = 3 \/ d = 4 \/ d = 5 \/ d = 6 \/
              d = 7 \/ d = 8 \/ d = 9) by lia.
  repeat (destruct C as [->|C]; [now repeat split|]). now subst.
Qed.

Lemma read_digits_app a (x y : string) :
  read_digits a (x +:+ y) = read_digits (read_digits a x) y.
Proof. revert a. induction x as [|c x IH]; intros a; simpl; [reflexivity | apply IH]. Qed.

Lemma all_digits_app (x y : string) :
  all_digits (x +:+ y) = all_digits x && all_digits y.
Proof. induction x as [|c x IH]; simpl; [reflexivity|]. now rewrite IH, andb_assoc. Qed.

Lemma length_app_str (x y : string) :
  String.length (x +:+ y) = (String.length x + String.length y)%nat.
Proof. induction x as [|c x IH]; simpl; congruence. Qed.

Lemma digits_from_spec (fuel : nat) :
  forall n acc, 0 <= n < 2 ^ Z.of_nat fuel -> (0 < fuel)%nat ->
  exists ds, digits_from fuel n acc = ds +:+ acc /\ written_by n ds.
Proof.
  induction fuel as [|fuel IH]; intros n acc Hn Hfuel; [lia|].
  cbn [digits_from].
  assert (Hmod : 0 <= n mod 10 <= 9) by (pose proof (Z.mod_pos_bound n 10); lia).
  destruct (digit_char_spec _ Hmod) as (Hd & Hv & Hz).
  pose proof (Z.div_mod n 10 ltac:(lia)) as Hdm.
  set (d := digit_char (n mod 10)) in *.
  destruct (Z.eqb_spec (n / 10) 0) as [E|E].
  - exists (String d ""). split; [reflexivity|].
    split; [|split; [|split]].
    + cbn [all_digits]. now rewrite Hd.
    + discriminate.
    + intros a. cbn [read_digits String.length]. rewrite Hv.
      change (Z.of_nat 1) with 1. lia.
    + intros rest H. injection H as H <-.
      rewrite <- Ascii.eqb_eq, Hz in H. apply Z.eqb_eq in H.
      split; [lia | reflexivity].
  - assert (Hq : 1 <= n / 10) by (pose proof (Z.div_pos n 10); lia).
    assert (Hlt : n / 10 < 2 ^ Z.of_nat fuel).
    { apply Z.div_lt_upper_bound; [lia|].
      rewrite Nat2Z.inj_succ, Z.pow_succ_r in Hn by lia. lia. }
    assert (Hf : (0 < fuel)%nat).
    { destruct fuel; [change (2 ^ Z.of_nat 0) with 1 in Hlt; lia | lia]. }
    destruct (IH (n / 10) (String d acc) ltac:(lia) Hf)
      as (ds & -> & Hall & Hne & Hread & Hhead).
    exists (ds +:+ String d "").
    split; [now rewrite app_assoc_str|].
    split; [|split; [|split]].
    + rewrite all_digits_app, Hall. cbn [all_digits]. now rewrite Hd.
    + destruct ds; discriminate.
    + intros a. rewrite read_digits_app, Hread, length_app_str.
      cbn [read_digits String.length].
      rewrite Hv, Nat2Z.inj_add, Z.pow_add_r by lia.
      change (Z.of_nat 1) with 1. change (10 ^ 1) with 10. lia.
    + intros rest H. destruct ds as [|c ds]; [easy|].
      cbn [String.append] in H. injection H as -> _.
      destruct (Hhead ds eq_refl). lia.
Qed.

Lemma decimal_digits_spec (n : Z) : 0 <= n -> written_by n (decimal_digits n).
Proof.
  intros Hn. unfold decimal_digits.
  destruct (digits_from_spec (S (Z.to_nat (Z.log2 n))) n "") as (ds & E & H).
  - rewrite Nat2Z.inj_succ, Z2Nat.id by apply Z.log2_nonneg.
    split; [lia|]. destruct (Z.eq_dec n 0) as [->|]; [reflexivity|].
    apply Z.log2_spec. lia.
  - lia.
  - now rewrite E, app_empty_r.
Qed.
(** ** Thousands separators *)

Lemma mod3_add (k j : nat) : (j < 3)%nat -> ((3 * k + j) mod 3 = j)%nat.
Proof.
  intros H. rewrite Nat.add_comm, Nat.mul_comm, Nat.Div0.mod_add.
  now apply Nat.mod_small.
Qed.

Lemma group_thousands_cons c (rest : string) :
  group_thousands (String c rest) =
  String c (if (String.length rest mod 3 =? 0)%nat
            then comma_groups rest else group_thousands rest).
Proof.
  cbn [group_thousands].
  destruct (String.length rest mod 3 =? 0)%nat; [|reflexivity].
  now destruct rest.
Qed.

Lemma comma_groups_triple c1 c2 c3 (rest : string) (k : nat) :
  String.length rest = (3 * k)%nat ->
  comma_groups (String c1 (String c2 (String c3 rest))) =
  String "," (String c1 (String c2 (String c3 (comma_groups rest)))).
Proof.
  intros H. unfold comma_groups at 1. rewrite !group_thousands_cons.
  cbn [String.length]. rewrite H.
  replace (S (S (3 * k))) with (3 * k + 2)%nat by lia.
  replace (S (3 * k)) with (3 * k + 1)%nat by lia.
  replace (3 * k)%nat with (3 * k + 0)%nat at 3 by lia.
  rewrite !mod3_add by lia. reflexivity.
Qed.

Lemma is_digit_comma : is_digit "," = false.
Proof. reflexivity. Qed.

Lemma is_digit_point : is_digit "." = false.
Proof. reflexivity. Qed.

(** Reading back complete groups of three digits and the fraction. *)
Lemma read_groups_triples (k : nat) :
  forall (ds : string) (acc : Z) (d1 d2 : ascii),
    String.length ds = (3 * k)%nat -> all_digits ds = true ->
    is_digit d1 = true -> is_digit d2 = true ->
    read_groups acc (comma_groups ds +:+ String "." (String d1 (String d2 ""))) =
    Some (read_digits acc ds * 100 + 10 * digit_value d1 + digit_value d2).
Proof.
  induction k as [|k IH]; intros ds acc d1 d2 Hlen Hall H1 H2.
  - destruct ds; [|discriminate]. cbn. now rewrite H1, H2.
  - destruct ds as [|c1 [|c2 [|c3 rest]]]; try (cbn in Hlen; lia).
    cbn [String.length] in Hlen. cbn [all_digits] in Hall.
    apply andb_true_iff in Hall as [D1 Hall].
    apply andb_true_iff in Hall as [D2 Hall].
    apply andb_true_iff in Hall as [D3 Hall].
    rewrite (comma_groups_triple _ _ _ _ k) by lia.
    cbn [String.append read_groups read_digits].
    change (Ascii.eqb "," ".") with false. change (Ascii.eqb "," ",") with true.
    cbn iota. rewrite D1, D2, D3. cbn [andb].
    rewrite IH by (assumption || lia).
    replace (acc * 1000 + 100 * digit_value c1 + 10 * digit_value c2 + digit_value c3)
      with (((acc * 10 + digit_value c1) * 10 + digit_value c2) * 10 + digit_value c3)
      by lia.
    reflexivity.
Qed.
Lemma lead_split (s : string) :
  s <> "" ->
  exists k : nat,
    (exists c1 r, s = String c1 r /\ String.length r = (3 * k)%nat) \/
    (exists c1 c2 r, s = String c1 (String c2 r) /\ String.length r = (3 * k)%nat) \/
    (exists c1 c2 c3 r, s = String c1 (String c2 (String c3 r)) /\
                        String.length r = (3 * k)%nat).
Proof.
  induction s as [|c s IH]; [easy|]. intros _. destruct s as [|c' s'].
  - exists 0%nat. left. now exists c, "".
  - destruct IH as [k [(c1 & r & E & L)|[(c1 & c2 & r & E & L)|(c1 & c2 & c3 & r & E & L)]]];
      [discriminate| | |]; rewrite E.
    + exists k. right. left. now exists c, c1, r.
    + exists k. right. right. now exists c, c1, c2, r.
    + exists (S k). left. exists c, (String c1 (String c2 (String c3 r))).
      split; [reflexivity|]. cbn [String.length]. lia.
Qed.

Lemma comma_groups_head (rest tail : string) :
  exists x t, comma_groups rest +:+ String "." tail = String x t /\
              is_digit x = false /\ (rest = "" -> x = "."%char /\ t = tail).
Proof.
  destruct rest as [|c rest].
  - exists "."%char, tail. now repeat split.
  - exists ","%char, (group_thousands (String c rest) +:+ String "." tail).
    now repeat split.
Qed.

(** Reading back a grouped integer part and the fraction digits. *)
Lemma read_amount_grouped (n : Z) (ds : string) (d1 d2 : ascii) :
  written_by n ds -> is_digit d1 = true -> is_digit d2 = true ->
  read_amount (group_thousands ds +:+ String "." (String d1 (String d2 ""))) =
  Some (n * 100 + 10 * digit_value d1 + digit_value d2).
Proof.
  intros (Hall & Hne & Hread & Hhead) H1 H2.
  assert (Hn : n = read_digits 0 ds) by (rewrite Hread; lia).
  set (tail := String d1 (String d2 "")).
  destruct (lead_split ds Hne)
    as [k [(c1 & r & -> & L)|[(c1 & c2 & r & -> & L)|(c1 & c2 & c3 & r & -> & L)]]].
  - cbn [all_digits] in Hall. apply andb_true_iff in Hall as [D1 Hall].
    rewrite group_thousands_cons, L.
    replace (3 * k)%nat with (3 * k + 0)%nat by lia. rewrite mod3_add by lia.
    cbn [Nat.eqb String.append]. unfold read_amount. rewrite D1. cbn [negb].
    destruct (Ascii.eqb c1 "0") eqn:E0.
    + apply Ascii.eqb_eq in E0. subst c1.
      destruct (Hhead r eq_refl) as [-> ->]. cbn. now rewrite H1, H2.
    + destruct (comma_groups_head r tail) as (x & t & E & Hx & _).
      rewrite E, Hx, <- E. unfold tail.
      rewrite (read_groups_triples k) by assumption.
      rewrite Hn. cbn [read_digits]. reflexivity.
  - cbn [all_digits] in Hall. apply andb_true_iff in Hall as [D1 Hall].
    apply andb_true_iff in Hall as [D2 Hall].
    rewrite !group_thousands_cons. cbn [String.length]. rewrite L.
    replace (S (3 * k)) with (3 * k + 1)%nat by lia.
    replace (3 * k)%nat with (3 * k + 0)%nat at 2 by lia.
    rewrite !mod3_add by lia.
    cbn [Nat.eqb String.append]. unfold read_amount. rewrite D1. cbn [negb].
    destruct (Ascii.eqb c1 "0") eqn:E0.
    { apply Ascii.eqb_eq in E0. subst c1. now destruct (Hhead _ eq_refl). }
    rewrite D2.
    destruct (comma_groups_head r tail) as (x & t & E & Hx & _).
    rewrite E, Hx, <- E. unfold tail.
    rewrite (read_groups_triples k) by assumption.
    rewrite Hn. cbn [read_digits].
    now replace ((0 * 10 + digit_value c1) * 10 + digit_value c2)
      with (10 * digit_value c1 + digit_value c2) by lia.
  - cbn [all_digits] in Hall. apply andb_true_iff in Hall as [D1 Hall].
    apply andb_true_iff in Hall as [D2 Hall].
    apply andb_true_iff in Hall as [D3 Hall].
    rewrite !group_thousands_cons. cbn [String.length]. rewrite L.
    replace (S (S (3 * k))) with (3 * k + 2)%nat by lia.
    replace (S (3 * k)) with (3 * k + 1)%nat by lia.
    replace (3 * k)%nat with (3 * k + 0)%nat at 3 by lia.
    rewrite !mod3_add by lia.
    cbn [Nat.eqb String.append]. unfold read_amount. rewrite D1. cbn [negb].
    destruct (Ascii.eqb c1 "0") eqn:E0.
    { apply Ascii.eqb_eq in E0. subst c1. now destruct (Hhead _ eq_refl). }
    rewrite D2, D3. unfold tail.
    rewrite (read_groups_triples k) by assumption.
    rewrite Hn. cbn [read_digits].
    now replace (((0 * 10 + digit_value c1) * 10 + digit_value c2) * 10 + digit_value c3)
      with (100 * digit_value c1 + 10 * digit_value c2 + digit_value c3) by lia.
Qed.

(** ** Rendering and reading back hundredths *)

Lemma two_digits_spec (f : Z) :
  0 <= f < 100 ->
  exists d1 d2, two_digits f = String d1 (String d2 "") /\
                is_digit d1 = true /\ is_digit d2 = true /\
                10 * digit_value d1 + digit_value d2 = f.
Proof.
  intros H. exists (digit_char (f / 10)), (digit_char (f mod 10)).
  assert (H1 : 0 <= f / 10 <= 9).
  { split; [apply Z.div_pos; lia|]. apply Z.lt_succ_r, Z.div_lt_upper_bound; lia. }
  assert (H2 : 0 <= f mod 10 <= 9) by (pose proof (Z.mod_pos_bound f 10); lia).
  destruct (digit_char_spec _ H1) as (A1 & B1 & _).
  destruct (digit_char_spec _ H2) as (A2 & B2 & _).
  repeat split; try assumption. rewrite B1, B2.
  pose proof (Z.div_mod f 10). lia.
Qed.

Lemma read_amount_render (h : Z) :
  0 <= h ->
  read_amount (group_thousands (decimal_digits (h / 100)) +:+ "." +:+
               two_digits (h mod 100)) = Some h.
Proof.
  intros H.
  destruct (two_digits_spec (h mod 100)) as (d1 & d2 & -> & H1 & H2 & E).
  { apply Z.mod_pos_bound. lia. }
  change ("." +:+ String d1 (String d2 "")) with (String "." (String d1 (String d2 ""))).
  rewrite (read_amount_grouped (h / 100)) by
    (try assumption; apply decimal_digits_spec, Z.div_pos; lia).
  f_equal. pose proof (Z.div_mod h 100). lia.
Qed.

Lemma written_head (n : Z) (ds : string) :
  written_by n ds ->
  exists c t, group_thousands ds = String c t /\ is_digit c = true.
Proof.
  intros (Hall & Hne & _). destruct ds as [|c ds]; [easy|].
  rewrite group_thousands_cons. cbn [all_digits] in Hall.
  apply andb_true_iff in Hall as [Hc _]. eauto.
Qed.

Lemma digit_not_minus (c : ascii) : is_digit c = true -> Ascii.eqb c "-" = false.
Proof.
  intros H. destruct (Ascii.eqb c "-") eqn:E; [|reflexivity].
  apply Ascii.eqb_eq in E. now subst.
Qed.

(** A rendered amount reads back as its sign and its hundredths. *)
Lemma read_currency_render (neg : bool) (h : Z) :
  0 <= h -> read_currency ("$" +:+ render_hundredths neg h) = Some (neg, h).
Proof.
  intros H. unfold render_hundredths. pose proof (read_amount_render h H) as R.
  cbn [String.append] in R.
  destruct neg.
  - cbn [String.append read_currency]. change (Ascii.eqb "$" "$") with true.
    change (Ascii.eqb "-" "-") with true. cbn iota. now rewrite R.
  - cbn [String.append]. 
    destruct (written_head (h / 100) (decimal_digits (h / 100))) as (c & t & E & Hc).
    { apply decimal_digits_spec, Z.div_pos; lia. }
    rewrite E in *. cbn [String.append read_currency] in *.
    change (Ascii.eqb "$" "$") with true. cbn iota.
    rewrite (digit_not_minus c Hc). now rewrite R.
Qed.

(** ** Rounding to hundredths *)

Lemma round_half_even_nearest (n d : Z) :
  0 < d -> 0 <= n ->
  0 <= round_half_even n d /\
  2 * Z.abs (round_half_even n d * d - n) <= d /\
  (2 * Z.abs (round_half_even n d * d - n) = d ->
   Z.even (round_half_even n d) = true).
Proof.
  intros Hd Hn. unfold round_half_even.
  pose proof (Z.div_mod n d ltac:(lia)) as E.
  pose proof (Z.mod_pos_bound n d Hd) as B.
  assert (Q : 0 <= n / d) by (apply Z.div_pos; lia).
  set (q := n / d) in *. set (r := n mod d) in *.
  assert (Eq : q * d = n - r) by lia. assert (Eq1 : (q + 1) * d = n - r + d) by lia.
  destruct (Z.compare_spec (2 * r) d) as [C|C|C].
  - destruct (Z.even q) eqn:Ev.
    + rewrite Eq. repeat split; try lia. now intros _.
    + rewrite Eq1. repeat split; try lia. intros _.
      rewrite Z.add_1_r, Z.even_succ, <- Z.negb_even, Ev. reflexivity.
  - rewrite Eq. repeat split; lia.
  - rewrite Eq1. repeat split; lia.
Qed.

Lemma hundredths_nearest (s : bool) (m : positive) (e : Z) :
  -1074 <= e ->
  0 <= hundredths m e /\
  nearest_hundredth (cond_Zopp s (Z.pos m * 2 ^ (e + 1074))) (hundredths m e).
Proof.
  intros He. unfold nearest_hundredth, hundredths.
  assert (Habs : Z.abs (cond_Zopp s (Z.pos m * 2 ^ (e + 1074)))
                 = Z.pos m * 2 ^ (e + 1074)).
  { pose proof (finite_exact_pos m e He). destruct s; simpl; lia. }
  rewrite Habs. clear Habs.
  destruct (Z.leb_spec 0 e) as [L|L].
  - rewrite Z.pow_add_r by lia. set (P := 2 ^ 1074).
    assert (0 <= 2 ^ e) by (apply Z.pow_nonneg; lia).
    replace (Z.pos m * 2 ^ e * 100 * P - 100 * (Z.pos m * (2 ^ e * P))) with 0 by ring.
    assert (0 < P) by (apply Z.pow_pos_nonneg; lia).
    split; [nia|]. cbn [Z.abs]. split; lia.
  - set (d := 2 ^ (- e)). set (k := 2 ^ (e + 1074)).
    assert (Hd : 0 < d) by (apply Z.pow_pos_nonneg; lia).
    assert (Hk : 0 < k) by (apply Z.pow_pos_nonneg; lia).
    assert (HP : 2 ^ 1074 = d * k).
    { unfold d, k. rewrite <- Z.pow_add_r by lia. f_equal. lia. }
    rewrite HP. clear HP.
    destruct (round_half_even_nearest (Z.pos m * 100) d Hd ltac:(lia))
      as (H0 & Hle & Heven).
    set (h := round_half_even (Z.pos m * 100) d) in *.
    replace (h * (d * k) - 100 * (Z.pos m * k)) with ((h * d - Z.pos m * 100) * k) by ring.
    rewrite Z.abs_mul, (Z.abs_eq k) by lia.
    set (a := Z.abs (h * d - Z.pos m * 100)) in *.
    split; [exact H0|]. split; [nia|].
    intros T. apply Heven. nia.
Qed.

(** ** Rounding: a lower bound on rounded values *)

Lemma shr_1_m (mrs : shr_record) :
  0 <= shr_m mrs -> shr_m (shr_1 mrs) = shr_m mrs / 2.
Proof.
  destruct mrs as [m r s]. cbn [shr_m]. intros H.
  destruct m as [|[p|p|]|p]; try lia; cbn [shr_1 shr_m].
  - reflexivity.
  - rewrite Pos2Z.inj_xI. apply (Z.div_unique _ _ _ 1); lia.
  - rewrite Pos2Z.inj_xO. apply (Z.div_unique _ _ _ 0); lia.
  - reflexivity.
Qed.

Lemma iter_shr_1_m (p : positive) :
  forall mrs : shr_record,
    0 <= shr_m mrs ->
    shr_m (SpecFloat.iter_pos shr_1 p mrs) = shr_m mrs / 2 ^ Z.pos p.
Proof.
  assert (N : forall a k, 0 <= a -> 0 <= k -> 0 <= a / 2 ^ k).
  { intros a k Ha Hk. apply Z.div_pos; [lia | apply Z.pow_pos_nonneg; lia]. }
  assert (P : forall k, 0 <= k -> 0 < 2 ^ k) by (intros; apply Z.pow_pos_nonneg; lia).
  induction p as [p IH|p IH|]; intros mrs H; cbn [SpecFloat.iter_pos].
  - assert (H1 : 0 <= shr_m (shr_1 mrs)).
    { rewrite shr_1_m by lia. apply Z.div_pos; lia. }
    assert (H2 : 0 <= shr_m (SpecFloat.iter_pos shr_1 p (shr_1 mrs))).
    { rewrite IH by lia. apply N; lia. }
    rewrite (IH _ H2), (IH _ H1), shr_1_m by lia.
    rewrite !Z.div_div by (first [apply P; lia | pose proof (P (Z.pos p)); lia]).
    assert (E : 2 ^ Z.pos p~1 = 2 * (2 ^ Z.pos p * 2 ^ Z.pos p)).
    { rewrite <- Z.pow_add_r, <- Z.pow_succ_r by lia. f_equal. lia. }
    now rewrite E, Z.mul_assoc.
  - assert (H1 : 0 <= shr_m (SpecFloat.iter_pos shr_1 p mrs)).
    { rewrite IH by lia. apply N; lia. }
    rewrite (IH _ H1), (IH _ H).
    rewrite Z.div_div by (first [apply P; lia | pose proof (P (Z.pos p)); lia]).
    assert (E : 2 ^ Z.pos p~0 = 2 ^ Z.pos p * 2 ^ Z.pos p).
    { rewrite <- Z.pow_add_r by lia. f_equal. lia. }
    now rewrite E.
  - now rewrite shr_1_m.
Qed.

Lemma shr_record_of_loc_m (m : Z) (l : location) :
  shr_m (shr_record_of_loc m l) = m.
Proof. now destruct l as [|[]]. Qed.

(** [shr_fexp] divides the mantissa by the power of two that brings the
    exponent up to the least one allowed. *)
Lemma shr_fexp_spec (m e : Z) (l : location) :
  0 <= m ->
  let n := Z.max 0 (fexp prec emax (Zdigits2 m + e) - e) in
  shr_m (shr_fexp prec emax m e l).1 = m / 2 ^ n /\
  (shr_fexp prec emax m e l).2 = e + n.
Proof.
  intros H n. unfold shr_fexp, shr. subst n.
  destruct (fexp prec emax (Zdigits2 m + e) - e) as [|p|p] eqn:E; cbn [fst snd].
  - rewrite shr_record_of_loc_m, Z.div_1_r. split; [reflexivity | lia].
  - rewrite iter_shr_1_m by (rewrite shr_record_of_loc_m; lia).
    rewrite shr_record_of_loc_m. replace (Z.max 0 (Z.pos p)) with (Z.pos p) by lia.
    split; reflexivity.
  - rewrite shr_record_of_loc_m. replace (Z.max 0 (Z.neg p)) with 0 by lia.
    rewrite Z.div_1_r. split; [reflexivity | lia].
Qed.

Lemma round_nearest_even_ge (m : Z) (l : location) :
  m <= round_nearest_even m l.
Proof. unfold round_nearest_even. destruct l as [|[]]; try lia. destruct (Z.even m); lia. Qed.

Lemma fexp_eq (z : Z) : fexp prec emax z = Z.max (z - 53) (-1074).
Proof. reflexivity. Qed.

Lemma Zdigits2_bounds (m : Z) :
  0 < m -> 2 ^ (Zdigits2 m - 1) <= m < 2 ^ Zdigits2 m /\ 0 < Zdigits2 m.
Proof.
  intros H. destruct m as [|p|p]; try lia. cbn [Zdigits2].
  rewrite digits2_pos_log2. pose proof (Z.log2_spec (Z.pos p) H) as L.
  pose proof (Z.log2_nonneg (Z.pos p)).
  replace (Z.log2 (Z.pos p) + 1 - 1) with (Z.log2 (Z.pos p)) by lia.
  replace (Z.log2 (Z.pos p) + 1) with (Z.succ (Z.log2 (Z.pos p))) by lia.
  split; [exact L | lia].
Qed.

Lemma pow2_split (a b : Z) : 0 <= a -> 0 <= b -> 2 ^ (a + b) = 2 ^ a * 2 ^ b.
Proof. intros. now apply Z.pow_add_r. Qed.

Lemma pow2_pos (a : Z) : 0 <= a -> 0 < 2 ^ a.
Proof. intros. apply Z.pow_pos_nonneg; lia. Qed.

Section RoundingLowerBound.

(** Values are compared in units of [2^B], for a [B] below all the
    exponents at hand. *)
Variable B : Z.

(** Cutting a mantissa down to the least exponent allowed keeps it above
    every representable value that it was above. *)
Lemma trunc_lower (mx ex my ey : Z) :
  0 <= mx -> 0 < my -> B <= ex -> B <= ey ->
  fexp prec emax (Zdigits2 my + ey) <= ey ->
  my * 2 ^ (ey - B) <= mx * 2 ^ (ex - B) ->
  let n := Z.max 0 (fexp prec emax (Zdigits2 mx + ex) - ex) in
  my * 2 ^ (ey - B) <= (mx / 2 ^ n) * 2 ^ (ex + n - B).
Proof.
  intros Hmx Hmy Bx By Ry Le n.
  pose proof (pow2_pos (ey - B) ltac:(lia)) as Py.
  pose proof (pow2_pos (ex - B) ltac:(lia)) as Px.
  assert (Hx : 0 < mx) by nia.
  destruct (Z.eq_dec n 0) as [E0|N0].
  { rewrite E0, Z.div_1_r, Z.add_0_r. exact Le. }
  assert (Hn : 0 < n) by lia.
  assert (En : ex + n = fexp prec emax (Zdigits2 mx + ex)) by lia.
  pose proof (pow2_pos n ltac:(lia)) as Pn.
  assert (Sx : 2 ^ (ex + n - B) = 2 ^ n * 2 ^ (ex - B)).
  { rewrite <- pow2_split by lia. f_equal. lia. }
  destruct (Z_le_gt_dec (ex + n) ey) as [C|C].
  - (* the bound has a coarser exponent: it is a multiple of the new unit *)
    pose proof (pow2_pos (ey - (ex + n)) ltac:(lia)) as Pd.
    assert (Sy : 2 ^ (ey - B) = 2 ^ (ey - (ex + n)) * (2 ^ n * 2 ^ (ex - B))).
    { rewrite <- !pow2_split by lia. f_equal. lia. }
    rewrite Sy in *. rewrite Sx.
    assert (Q : my * 2 ^ (ey - (ex + n)) <= mx / 2 ^ n).
    { apply Z.div_le_lower_bound; [lia|]. nia. }
    nia.
  - (* the bound has a finer exponent: it has fewer digits *)
    rewrite !fexp_eq in *.
    destruct (Zdigits2_bounds mx Hx) as [[Lx Ux] Dx].
    destruct (Zdigits2_bounds my Hmy) as [[Ly Uy] Dy].
    set (dx := Zdigits2 mx) in *. set (dy := Zdigits2 my) in *.
    assert (Hn53 : n = dx - 53) by lia.
    assert (Hd : dy + ey <= dx + ex - 1) by lia.
    assert (U : my * 2 ^ (ey - B) < 2 ^ (dx + ex - 1 - B)).
    { apply Z.lt_le_trans with (2 ^ dy * 2 ^ (ey - B)); [nia|].
      rewrite <- pow2_split by lia. apply Z.pow_le_mono_r; lia. }
    assert (Q : 2 ^ (dx - 1 - n) <= mx / 2 ^ n).
    { apply Z.div_le_lower_bound; [lia|].
      rewrite <- pow2_split by lia. now replace (n + (dx - 1 - n)) with (dx - 1) by lia. }
    pose proof (pow2_pos (ex + n - B) ltac:(lia)) as Pe.
    assert (L : 2 ^ (dx + ex - 1 - B) <= mx / 2 ^ n * 2 ^ (ex + n - B)).
    { replace (dx + ex - 1 - B) with ((dx - 1 - n) + (ex + n - B)) by lia.
      rewrite pow2_split by lia. nia. }
    lia.
Qed.

(** Rounding a positive value gives an infinity or a finite value of the
    same sign that is at least every representable value below it. *)
Lemma round_aux_lower (s : bool) (mx ex my ey : Z) (lx : location) :
  0 <= mx -> 0 < my -> B <= ex -> B <= ey ->
  fexp prec emax (Zdigits2 my + ey) <= ey ->
  my * 2 ^ (ey - B) <= mx * 2 ^ (ex - B) ->
  binary_round_aux prec emax s mx ex lx = S754_infinity s \/
  exists m' e',
    binary_round_aux prec emax s mx ex lx = S754_finite s m' e' /\
    B <= e' /\ my * 2 ^ (ey - B) <= Z.pos m' * 2 ^ (e' - B).
Proof.
  intros Hmx Hmy Bx By Ry Le. unfold binary_round_aux.
  destruct (shr_fexp_spec mx ex lx Hmx) as [M1 E1].
  pose proof (trunc_lower mx ex my ey Hmx Hmy Bx By Ry Le) as T1.
  cbv zeta in M1, E1, T1.
  set (n1 := Z.max 0 (fexp prec emax (Zdigits2 mx + ex) - ex)) in *.
  destruct (shr_fexp prec emax mx ex lx) as [mrs' e'].
  cbn [fst snd] in M1, E1. subst e'.
  set (mr := round_nearest_even (shr_m mrs') (loc_of_shr_record mrs')).
  assert (Hm1 : 0 <= shr_m mrs').
  { rewrite M1. apply Z.div_pos; [lia | apply pow2_pos; lia]. }
  assert (Hmr : shr_m mrs' <= mr) by apply round_nearest_even_ge.
  assert (L2 : my * 2 ^ (ey - B) <= mr * 2 ^ (ex + n1 - B)).
  { rewrite <- M1 in T1. pose proof (pow2_pos (ex + n1 - B) ltac:(lia)). nia. }
  destruct (shr_fexp_spec mr (ex + n1) loc_Exact ltac:(lia)) as [M2 E2].
  pose proof (trunc_lower mr (ex + n1) my ey ltac:(lia) Hmy ltac:(lia) By Ry L2) as T2.
  cbv zeta in M2, E2, T2.
  set (n2 := Z.max 0 (fexp prec emax (Zdigits2 mr + (ex + n1)) - (ex + n1))) in *.
  destruct (shr_fexp prec emax mr (ex + n1) loc_Exact) as [mrs'' e''].
  cbn [fst snd] in M2, E2. subst e''. rewrite <- M2 in T2.
  pose proof (pow2_pos (ey - B) ltac:(lia)).
  pose proof (pow2_pos (ex + n1 + n2 - B) ltac:(lia)).
  destruct (shr_m mrs'') as [|m|m]; try nia.
  destruct (ex + n1 + n2 <=? emax - prec); [right | now left].
  exists m, (ex + n1 + n2). split; [reflexivity|]. split; [lia | exact T2].
Qed.

Lemma iter_xO (m d : positive) : Z.pos (Pos.iter xO m d) = Z.pos m * 2 ^ Z.pos d.
Proof.
  induction d as [|d IH] using Pos.peano_ind.
  - cbn [Pos.iter]. lia.
  - rewrite Pos.iter_succ, Pos2Z.inj_xO, IH, Pos2Z.inj_succ, Z.pow_succ_r by lia. ring.
Qed.

(** The same bound for [binary_round], which first aligns the mantissa. *)
Lemma round_lower (s : bool) (mx : positive) (ex my ey : Z) :
  0 < my -> B <= -1074 -> B <= ex -> B <= ey ->
  fexp prec emax (Zdigits2 my + ey) <= ey ->
  my * 2 ^ (ey - B) <= Z.pos mx * 2 ^ (ex - B) ->
  binary_round prec emax s mx ex = S754_infinity s \/
  exists m' e',
    binary_round prec emax s mx ex = S754_finite s m' e' /\
    B <= e' /\ my * 2 ^ (ey - B) <= Z.pos m' * 2 ^ (e' - B).
Proof.
  intros Hmy B0 Bx By Ry Le. unfold binary_round, shl_align.
  set (f := fexp prec emax (Z.pos (digits2_pos mx) + ex)).
  assert (Hf : -1074 <= f) by (unfold f; rewrite fexp_eq; lia).
  destruct (f - ex) as [|d|d] eqn:E;
    try (apply round_aux_lower; (assumption || lia)).
  apply round_aux_lower; try (assumption || lia).
  rewrite iter_xO.
  replace (Z.pos mx * 2 ^ Z.pos d * 2 ^ (f - B)) with (Z.pos mx * 2 ^ (ex - B)); [exact Le|].
  rewrite <- Z.mul_assoc, <- pow2_split by lia. do 2 f_equal. lia.
Qed.

End RoundingLowerBound.

(** ** format_currency *)

(** A finite amount is printed as its sign and its nearest hundredth. *)
Lemma format_currency_finite (x : float) (v : Z) :
  float_exact x = Some v ->
  exists (s : string) (h : Z),
    format_currency (PyFloat x) = Returns s /\
    read_currency s = Some (sign_bit x, h) /\
    nearest_hundredth v h.
Proof.
  unfold float_exact, format_currency, format_fixed2, sign_bit. cbn [to_float mbind outcome_bind].
  pose proof (Prim2SF_valid x) as V.
  destruct (Prim2SF x) as [s|s| |s m e]; try discriminate; intros [= <-].
  - exists ("$" +:+ render_hundredths s 0), 0.
    split; [reflexivity|]. split; [now apply read_currency_render|].
    unfold nearest_hundredth. cbn [Z.abs Z.mul Z.sub Z.add Z.opp]. split; [|reflexivity].
    apply Z.pow_nonneg. lia.
  - destruct (hundredths_nearest s m e (bounded_exponent _ _ V)) as [H0 Hn].
    exists ("$" +:+ render_hundredths s (hundredths m e)), (hundredths m e).
    split; [reflexivity|]. split; [now apply read_currency_render | exact Hn].
Qed.

(** ** Ints as amounts *)

(** A mantissa of 53 digits with an exponent in range is left as it is
    by rounding. *)
Lemma binary_round_aux_exact (s : bool) (mz : positive) (ez : Z) :
  Z.pos (digits2_pos mz) = 53 -> -1074 <= ez <= 971 ->
  binary_round_aux prec emax s (Z.pos mz) ez loc_Exact = S754_finite s mz ez /\
  bounded prec emax mz ez = true.
Proof.
  intros D He.
  assert (F : fexp prec emax (Zdigits2 (Z.pos mz) + ez) - ez = 0).
  { cbn [Zdigits2]. rewrite D, fexp_eq. lia. }
  split.
  - unfold binary_round_aux, shr_fexp. rewrite F. cbn [shr shr_record_of_loc].
    cbn [loc_of_shr_record shr_m round_nearest_even]. rewrite F.
    cbn [shr shr_record_of_loc shr_m].
    destruct (Z.leb_spec ez (emax - prec)) as [|G]; [reflexivity|].
    change (emax - prec) with 971 in G. lia.
  - unfold bounded, canonical_mantissa. apply andb_true_iff. split.
    + apply Z.eqb_eq. cbn [Zdigits2] in F. lia.
    + apply Z.leb_le. change (emax - prec) with 971. lia.
Qed.

Lemma digits2_pos_shift (m k : positive) :
  Z.pos (digits2_pos (Pos.iter xO m k)) = Z.pos (digits2_pos m) + Z.pos k.
Proof.
  rewrite !digits2_pos_log2, iter_xO, Z.log2_mul_pow2 by lia. lia.
Qed.

(** An int below 2^53 in magnitude converts to a float exactly. *)
Lemma float_of_int_exact (z : Z) :
  Z.abs z < 2 ^ 53 ->
  exists x, float_of_int z = Returns x /\
            float_exact x = Some (z * 2 ^ 1074) /\
            sign_bit x = (z <? 0).
Proof.
  intros Hz. unfold float_of_int, binary_normalize.
  assert (P : forall (s : bool) (m : positive),
             Z.pos m < 2 ^ 53 ->
             exists mz ez,
               binary_round prec emax s m 0 = S754_finite s mz ez /\
               bounded prec emax mz ez = true /\
               Z.pos mz * 2 ^ (ez + 1074) = Z.pos m * 2 ^ 1074).
  { intros s m Hm. unfold binary_round, shl_align. rewrite Z.add_0_r, fexp_eq.
    assert (D : 1 <= Z.pos (digits2_pos m) <= 53).
    { split; [lia|]. rewrite digits2_pos_log2.
      assert (Z.log2 (Z.pos m) < 53) by (apply Z.log2_lt_pow2; lia). lia. }
    set (d := Z.pos (digits2_pos m)) in *.
    replace (Z.max (d - 53) (-1074)) with (d - 53) by lia.
    destruct (d - 53 - 0) as [|k|k] eqn:E; try lia.
    - destruct (binary_round_aux_exact s m 0) as [R V]; [lia | lia |].
      exists m, 0. now rewrite R.
    - destruct (binary_round_aux_exact s (Pos.iter xO m k) (d - 53)) as [R V].
      + rewrite digits2_pos_shift. fold d. lia.
      + lia.
      + exists (Pos.iter xO m k), (d - 53). rewrite R. split; [reflexivity|].
        split; [exact V|]. rewrite iter_xO, <- Z.mul_assoc, <- pow2_split by lia.
        do 2 f_equal. lia. }
  destruct z as [|m|m].
  - exists 0%float. repeat split.
  - destruct (P false m ltac:(lia)) as (mz & ez & R & V & E). rewrite R.
    exists (SF2Prim (S754_finite false mz ez)). split; [reflexivity|].
    unfold float_exact, sign_bit. rewrite Prim2SF_SF2Prim by exact V.
    cbn [sf_exact cond_Zopp]. now rewrite E.
  - destruct (P true m ltac:(lia)) as (mz & ez & R & V & E). rewrite R.
    exists (SF2Prim (S754_finite true mz ez)). split; [reflexivity|].
    unfold float_exact, sign_bit. rewrite Prim2SF_SF2Prim by exact V.
    cbn [sf_exact cond_Zopp]. rewrite E. split; [f_equal; lia | reflexivity].
Qed.

(** An int below 2^53 in magnitude is printed exactly, with ".00". *)
Lemma format_currency_int (z : Z) :
  Z.abs z < 2 ^ 53 ->
  exists s, format_currency (PyInt z) = Returns s /\
            read_currency s = Some (z <? 0, 100 * Z.abs z).
Proof.
  intros Hz. destruct (float_of_int_exact z Hz) as (x & Hx & Ex & Sx).
  destruct (format_currency_finite x _ Ex) as (s & h & Hs & Hr & [Hn _]).
  exists s. split.
  - unfold format_currency in *. cbn [to_float] in *. now rewrite Hx.
  - rewrite Hr, Sx. do 2 f_equal.
    rewrite Z.abs_mul, (Z.abs_eq (2 ^ 1074)) in Hn by (apply Z.pow_nonneg; lia).
    replace (h * 2 ^ 1074 - 100 * (Z.abs z * 2 ^ 1074))
      with ((h - 100 * Z.abs z) * 2 ^ 1074) in Hn by ring.
    rewrite Z.abs_mul, (Z.abs_eq (2 ^ 1074)) in Hn by (apply Z.pow_nonneg; lia).
    pose proof (pow2_pos 1074 ltac:(lia)) as P. set (q := 2 ^ 1074) in *.
    assert (Z.abs (h - 100 * Z.abs z) < 1) by nia. lia.
Qed.

(** ** Effects *)

Lemma bind_run {A B} (m : prog A) (f : A -> prog B) (w : world) :
  (m ≫= f) w =
  match m w with
  | (Returns a, w') => f a w'
  | (Raises e, w') => (Raises e, w')
  end.
Proof. reflexivity. Qed.

Lemma product_attr_run {A} (f : Product -> A) (w : world) (r : positive) (p : Product) :
  heap w !! r = Some (ProductObj p) -> product_attr f r w = (Returns (f p), w).
Proof. intros H. unfold product_attr, read. now rewrite bind_run, H. Qed.

Lemma user_attr_run {A} (f : User -> A) (w : world) (r : positive) (u : User) :
  heap w !! r = Some (UserObj u) -> user_attr f r w = (Returns (f u), w).
Proof. intros H. unfold user_attr, read. now rewrite bind_run, H. Qed.

Lemma list_items_run (w : world) (r : positive) (items : list positive) :
  heap w !! r = Some (ListObj items) -> list_items r w = (Returns items, w).
Proof. intros H. unfold list_items, read. now rewrite bind_run, H. Qed.

Lemma sum_prices_run (w : world) (items : list positive) (ps : list Product) :
  products_at w items ps ->
  forall acc,
    sum_prices acc items w =
    (sum_from acc (map (fun p => PyFloat (price p)) ps), w).
Proof.
  induction 1 as [|r p items ps Hr _ IH]; intros acc; [reflexivity|].
  cbn [sum_prices map sum_from].
  rewrite bind_run, (product_attr_run _ _ _ _ Hr), bind_run. unfold lift.
  destruct (py_add acc (PyFloat (price p))) as [acc'|e]; [|reflexivity].
  apply IH.
Qed.

Lemma names_of_run (w : world) (items : list positive) (ps : list Product) :
  products_at w items ps ->
  names_of items w = (Returns (map (fun p => VStr (product_name p)) ps), w).
Proof.
  induction 1 as [|r p items ps Hr _ IH]; [reflexivity|].
  cbn [names_of map].
  now rewrite bind_run, (product_attr_run _ _ _ _ Hr), bind_run, IH.
Qed.

Lemma calculate_total_io_run (w : world) (l : positive)
    (items : list positive) (ps : list Product) :
  heap w !! l = Some (ListObj items) -> products_at w items ps ->
  calculate_total_io l w = (calculate_total ps, w).
Proof.
  intros Hl Hps. unfold calculate_total_io.
  rewrite bind_run, (list_items_run _ _ _ Hl). now apply sum_prices_run.
Qed.

Lemma process_order_io_run (w : world) (u l : positive) (user : User)
    (items : list positive) (ps : list Product) :
  heap w !! u = Some (UserObj user) ->
  heap w !! l = Some (ListObj items) -> products_at w items ps ->
  process_order_io u l w = (process_order user ps, w).
Proof.
  intros Hu Hl Hps. rewrite process_order_value.
  destruct (process_order_amounts ps)
    as (sub & tax & total & Hs & Ht & Htot & Hf & Etax & Etot).
  unfold process_order_io.
  rewrite bind_run, (calculate_total_io_run w l items ps Hl Hps), Hs.
  rewrite bind_run. unfold lift at 1. rewrite Ht.
  rewrite bind_run. unfold lift at 1. rewrite Htot.
  rewrite bind_run, (user_attr_run _ _ _ _ Hu).
  rewrite bind_run, (user_attr_run _ _ _ _ Hu).
  rewrite bind_run. unfold lift at 1. rewrite Hf, format_currency_float.
  subst tax total.
  rewrite bind_run. unfold lift at 1. rewrite format_currency_float.
  rewrite bind_run. unfold lift at 1. rewrite format_currency_float.
  rewrite bind_run, (list_items_run _ _ _ Hl).
  rewrite bind_run, (names_of_run w items ps Hps).
  now rewrite map_map.
Qed.

(** [main] prints a line and the construction of a [User] reads the
    clock: the world after them is not the world before. *)
Lemma main_prints :
  exists d, process_order alice demo_products = Returns d /\
            console (main empty_world).2 = [FormattedLine "Order processed: " d] /\
            clock (main empty_world).2 = 1.
Proof. eexists. split; [reflexivity|]. split; reflexivity. Qed.

Lemma User_new_reads_clock (w : world) (i : Z) (n e : string) :
  exists r, User_new i n e None w =
            (Returns r,
             {| heap := <[r := UserObj {| user_id := i; user_name := n;
                                          user_email := e;
                                          user_created_at := clock w |}]> (heap w);
                clock := clock w + 1; console := console w |}).
Proof. eexists. reflexivity. Qed.

(** ** Order.total *)

Lemma Prim2SF_tax_rate : Prim2SF 0.08 = S754_finite false 5764607523034235 (-56).
Proof. reflexivity. Qed.

(** When the subtotal is a zero, so is the total with tax. *)
Lemma tax_on_zero (x : float) :
  float_exact x = Some 0 -> float_exact (x + x * 0.08) = Some 0.
Proof.
  unfold float_exact. intros H.
  rewrite add_spec, mul_spec, Prim2SF_tax_rate.
  pose proof (Prim2SF_valid x) as V.
  destruct (Prim2SF x) as [s| | |s m e]; try discriminate.
  - now destruct s.
  - injection H as H. pose proof (finite_exact_pos m e (bounded_exponent _ _ V)).
    destruct s; simpl in H; lia.
Qed.

Lemma shl_align_value (m : positive) (e ez : Z) :
  ez <= e -> Z.pos (shl_align m e ez).1 = Z.pos m * 2 ^ (e - ez).
Proof.
  intros H. unfold shl_align. destruct (ez - e) as [|d|d] eqn:E; cbn [fst]; try lia.
  - replace (e - ez) with 0 by lia. lia.
  - rewrite iter_xO. do 2 f_equal. lia.
Qed.

Lemma valid_mantissa (m : positive) (e : Z) :
  bounded prec emax m e = true -> Z.pos m < 2 ^ 53 /\ -1074 <= e.
Proof.
  intros V. pose proof (bounded_exponent m e V) as He. split; [|exact He].
  unfold bounded, canonical_mantissa in V. apply andb_true_iff in V as [V _].
  apply Z.eqb_eq in V. rewrite fexp_eq in V.
  destruct (Zdigits2_bounds (Z.pos m) ltac:(lia)) as [[_ U] _]. cbn [Zdigits2] in U.
  apply Z.lt_le_trans with (1 := U). apply Z.pow_le_mono_r; lia.
Qed.

(** 8% of a finite float whose mantissa is at least 13 is an infinity or
    a finite value of at least one unit in the last place of that float. *)
Lemma tax_lower (s : bool) (m : positive) (e : Z) :
  bounded prec emax m e = true -> 13 <= Z.pos m ->
  let t := SF64mul (S754_finite s m e) (Prim2SF 0.08) in
  t = S754_infinity s \/
  exists mt et, t = S754_finite s mt et /\
                2 ^ (e + 1200) <= Z.pos mt * 2 ^ (et + 1200).
Proof.
  intros V Hm t. subst t. destruct (valid_mantissa m e V) as [_ He].
  rewrite Prim2SF_tax_rate. unfold SF64mul, SFmul.
  replace (xorb s false) with s by now destruct s.
  destruct (round_aux_lower (-1200) s (Z.pos (m * 5764607523034235)) (e + -56) 1 e loc_Exact)
    as [I|(mt & et & F & _ & L)]; try lia.
  - cbn [Zdigits2 digits2_pos]. rewrite fexp_eq. lia.
  - replace (e - -1200) with (56 + (e + -56 - -1200)) by lia.
    rewrite pow2_split by lia.
    pose proof (pow2_pos (e + -56 - -1200) ltac:(lia)).
    rewrite Pos2Z.inj_mul. change (2 ^ 56) with 72057594037927936. nia.
  - now left.
  - right. exists mt, et. split; [exact F|].
    replace (e + 1200) with (e - -1200) by lia.
    replace (et + 1200) with (et - -1200) by lia. lia.
Qed.

(** Adding to a finite float a value of the same sign that is at least
    one unit in its last place gives an infinity or a finite value
    beyond that float. *)
Lemma add_lower (s : bool) (m mt : positive) (e et : Z) :
  bounded prec emax m e = true -> bounded prec emax mt et = true ->
  2 ^ (e + 1200) <= Z.pos mt * 2 ^ (et + 1200) ->
  let r := SF64add (S754_finite s m e) (S754_finite s mt et) in
  r = S754_infinity s \/
  exists m' e', r = S754_finite s m' e' /\
                (Z.pos m + 1) * 2 ^ (e + 1200) <= Z.pos m' * 2 ^ (e' + 1200).
Proof.
  intros V Vt Lt r. subst r.
  destruct (valid_mantissa m e V) as [Hm He].
  destruct (valid_mantissa mt et Vt) as [_ Het].
  unfold SF64add, SFadd. set (ez := Z.min e et).
  pose proof (shl_align_value m e ez ltac:(lia)) as A.
  pose proof (shl_align_value mt et ez ltac:(lia)) as A'.
  set (a := (shl_align m e ez).1) in *. set (b := (shl_align mt et ez).1) in *.
  assert (N : binary_normalize prec emax
                (cond_Zopp s (Z.pos a) + cond_Zopp s (Z.pos b)) ez false
              = binary_round prec emax s (a + b) ez) by now destruct s.
  rewrite N. clear N.
  assert (Val : Z.pos (a + b) * 2 ^ (ez - -1200)
                = Z.pos m * 2 ^ (e + 1200) + Z.pos mt * 2 ^ (et + 1200)).
  { rewrite Pos2Z.inj_add, A, A', Z.mul_add_distr_r, <- !Z.mul_assoc.
    rewrite <- !pow2_split by lia. do 3 f_equal; lia. }
  pose proof (pow2_pos (e + 1200) ltac:(lia)) as Pe.
  destruct (Z_lt_ge_dec (Z.pos m + 1) (2 ^ 53)) as [C|C].
  - destruct (round_lower (-1200) s (a + b) ez (Z.pos m + 1) e)
      as [I|(m' & e' & F & _ & L)]; try lia.
    + rewrite fexp_eq. assert (Zdigits2 (Z.pos m + 1) <= 53); [|lia].
      destruct (Zdigits2_bounds (Z.pos m + 1) ltac:(lia)) as [[L _] _].
      destruct (Z_le_gt_dec (Zdigits2 (Z.pos m + 1)) 53) as [|G]; [assumption|].
      assert (2 ^ 53 <= 2 ^ (Zdigits2 (Z.pos m + 1) - 1)) by (apply Z.pow_le_mono_r; lia).
      lia.
    + rewrite Val. replace (e - -1200) with (e + 1200) by lia. nia.
    + now left.
    + right. exists m', e'. split; [exact F|].
      replace (e + 1200) with (e - -1200) by lia.
      replace (e' + 1200) with (e' - -1200) by lia. exact L.
  - assert (E53 : Z.pos m + 1 = 2 ^ 53) by lia.
    destruct (round_lower (-1200) s (a + b) ez (2 ^ 52) (e + 1))
      as [I|(m' & e' & F & _ & L)]; try lia.
    + change (2 ^ 52) with 4503599627370496. cbn [Zdigits2].
      change (Z.pos (digits2_pos 4503599627370496)) with 53.
      rewrite fexp_eq. lia.
    + rewrite Val. replace (e + 1 - -1200) with (1 + (e + 1200)) by lia.
      rewrite pow2_split by lia. change (2 ^ 1) with 2.
      change (2 ^ 52) with 4503599627370496.
      change (2 ^ 53) with 9007199254740992 in E53. nia.
    + now left.
    + right. exists m', e'. split; [exact F|].
      replace (e' + 1200) with (e' - -1200) by lia.
      replace (e + 1 - -1200) with (1 + (e + 1200)) in L by lia.
      rewrite pow2_split in L by lia. change (2 ^ 1) with 2 in L.
      change (2 ^ 52) with 4503599627370496 in L.
      change (2 ^ 53) with 9007199254740992 in E53. nia.
Qed.

(** A finite float with a mantissa of at least 13 differs from itself
    plus 8%. *)
Lemma tax_changes_total (x : float) (s : bool) (m : positive) (e : Z) :
  Prim2SF x = S754_finite s m e -> 13 <= Z.pos m ->
  PrimFloat.eqb x (x + x * 0.08) = false.
Proof.
  intros Hx Hm. pose proof (Prim2SF_valid x) as V. rewrite Hx in V. cbn in V.
  rewrite FloatAxioms.eqb_spec, add_spec, mul_spec, Hx.
  pose proof (Prim2SF_valid (x * 0.08)) as Vt. rewrite mul_spec, Hx in Vt.
  destruct (tax_lower s m e V Hm) as [I|(mt & et & F & L)].
  - rewrite I. now destruct s.
  - rewrite F in *. cbn in Vt.
    destruct (add_lower s m mt e et V Vt L) as [I|(m' & e' & F' & L')].
    + rewrite I. now destruct s.
    + rewrite F'. unfold SFeqb, SFcompare.
      destruct (Z.compare_spec e e') as [E|E|E].
      * subst e'. assert (N : m <> m').
        { intros ->. pose proof (pow2_pos (e + 1200)).
          destruct (valid_mantissa m' e V). nia. }
        change (Pos.compare_cont Eq m m') with (m ?= m')%positive.
        destruct (Pos.compare_spec m m'); [easy | |]; now destruct s.
      * now destruct s.
      * now destruct s.
Qed.

(** A valid float with a mantissa below 13 is a multiple of 2^-1074. *)
Lemma small_mantissa (m : positive) (e : Z) :
  bounded prec emax m e = true -> Z.pos m <= 12 -> e = -1074.
Proof.
  intros V Hm. unfold bounded, canonical_mantissa in V.
  apply andb_true_iff in V as [V _]. apply Z.eqb_eq in V. rewrite fexp_eq in V.
  assert (Z.pos (digits2_pos m) <= 4); [|lia].
  destruct (Zdigits2_bounds (Z.pos m) ltac:(lia)) as [[L _] _]. cbn [Zdigits2] in L.
  destruct (Z_le_gt_dec (Z.pos (digits2_pos m)) 4) as [|G]; [assumption|].
  assert (2 ^ 4 <= 2 ^ (Z.pos (digits2_pos m) - 1)) by (apply Z.pow_le_mono_r; lia).
  change (2 ^ 4) with 16 in *. lia.
Qed.

(** The twelve smallest magnitudes: 8% of up to six units rounds to
    zero, 8% of seven to twelve units rounds to one unit. *)
Lemma tax_on_tiny (x : float) (s : bool) (m : positive) (e : Z) :
  Prim2SF x = S754_finite s m e -> Z.pos m <= 12 ->
  PrimFloat.eqb x (x + x * 0.08) = (Z.pos m <=? 6).
Proof.
  intros Hx Hm. pose proof (Prim2SF_valid x) as V. rewrite Hx in V. cbn in V.
  pose proof (small_mantissa m e V Hm) as ->.
  rewrite <- (SF2Prim_Prim2SF x), Hx.
  assert (C : (m = 1 \/ m = 2 \/ m = 3 \/ m = 4 \/ m = 5 \/ m = 6 \/ m = 7 \/
               m = 8 \/ m = 9 \/ m = 10 \/ m = 11 \/ m = 12)%positive) by lia.
  repeat (destruct C as [->|C]; [destruct s; vm_compute; reflexivity|]).
  subst m. destruct s; vm_compute; reflexivity.
Qed.

(** When the total with tax equals the subtotal: for a zero, for an
    infinity, and for the floats of magnitude at most 6 * 2^-1074. *)
Lemma total_equals_subtotal (x : float) :
  PrimFloat.eqb x (x + x * 0.08) = tax_vanishes x.
Proof.
  unfold tax_vanishes, float_exact.
  destruct (Prim2SF x) as [s|s| |s m e] eqn:Hx; cbn [sf_exact].
  - apply (float_eqb_exact _ _ 0).
    + unfold float_exact. now rewrite Hx.
    + apply tax_on_zero. unfold float_exact. now rewrite Hx.
  - rewrite FloatAxioms.eqb_spec, add_spec, mul_spec, Hx, Prim2SF_tax_rate.
    now destruct s.
  - rewrite FloatAxioms.eqb_spec, Hx. reflexivity.
  - pose proof (Prim2SF_valid x) as V. rewrite Hx in V. cbn in V.
    destruct (valid_mantissa m e V) as [_ He].
    pose proof (pow2_pos (e + 1074) ltac:(lia)) as P.
    assert (A : Z.abs (cond_Zopp s (Z.pos m * 2 ^ (e + 1074))) = Z.pos m * 2 ^ (e + 1074))
      by (destruct s; cbn [cond_Zopp]; lia).
    rewrite A. destruct (Z_le_gt_dec (Z.pos m) 12) as [S|S].
    + rewrite (tax_on_tiny x s m e Hx S).
      rewrite (small_mantissa m e V S). change (2 ^ (-1074 + 1074)) with 1.
      now rewrite Z.mul_1_r.
    + rewrite (tax_changes_total x s m e Hx) by lia.
      symmetry. apply Z.leb_gt. nia.
Qed.

(** C8, the claim as stated fails: a subtotal of 5e-324, the smallest
    positive float, is not zero, yet its 8% rounds to 0.0 and the total
    with tax equals it; so does an infinite subtotal, reached by two
    prices of 1e308. *)
Lemma total_with_tax_equal_nonzero :
  calculate_total [mkProduct 1 "A" 5e-324] = Returns (PyFloat 5e-324) /\
  total_with_tax [mkProduct 1 "A" 5e-324] = Returns (PyFloat 5e-324) /\
  py_eq (PyFloat 5e-324) (PyInt 0) = false /\
  py_eq (PyFloat 5e-324) (PyFloat 5e-324) = true /\
  calculate_total [mkProduct 1 "A" 1e308; mkProduct 2 "B" 1e308] = Returns (PyFloat infinity) /\
  total_with_tax [mkProduct 1 "A" 1e308; mkProduct 2 "B" 1e308] = Returns (PyFloat infinity) /\
  py_eq (PyFloat infinity) (PyFloat infinity) = true.
Proof. repeat split; vm_compute; reflexivity. Qed.

(** ** The sample totals under the compensated sum

    The totals used above do not depend on whether [sum] compensates. *)
Lemma sample_totals_compensated :
  sum_compensated (map price tenths) = PyFloat 0.30000000000000004 /\
  sum_compensated (map price big_first) = PyFloat 9007199254740992 /\
  sum_compensated (map price big_last) = PyFloat 9007199254740994 /\
  sum_compensated (map price demo_products) = PyFloat 79.98 /\
  sum_compensated (map price round_prices) = PyFloat 60 /\
  sum_compensated [5e-324%float] = PyFloat 5e-324 /\
  sum_compensated [1e308%float; 1e308%float] = PyFloat infinity.
Proof. repeat split; vm_compute; reflexivity. Qed.

(** * Further properties of the code *)

(** ** More on validate_email *)

(** With an ['@'] in it, an address is judged by what follows its last
    ['@'] alone. *)
Lemma validate_email_at (pre post : string) :
  ~ occurs "@" post ->
  validate_email (pre +:+ String "@" post) = Returns (contains post ".").
Proof.
  intros Hpost. unfold validate_email.
  set (s := pre +:+ String "@" post).
  assert (Hat : contains s "@" = true) by (apply contains_char; now exists pre, post).
  rewrite Hat.
  destruct (split_go_at s) as (init & lp & Hs & Hlp & Hnil & Hcons).
  cbn. rewrite Hs, getitem_last. cbn.
  assert (Hinit : init <> []).
  { intros ->. apply Hlp. rewrite <- (Hnil eq_refl). now exists pre, post. }
  destruct (Hcons Hinit) as [pre' Hpre].
  unfold s in Hpre. now rewrite (after_last_unique _ _ _ _ _ Hpre Hpost Hlp).
Qed.

Lemma last_at (d : string) :
  ~ occurs "@" d \/ exists pre post, d = pre +:+ String "@" post /\ ~ occurs "@" post.
Proof.
  destruct (split_go_at d) as (init & lp & _ & Hlp & Hnil & Hcons).
  destruct init as [|x init].
  - left. now rewrite (Hnil eq_refl).
  - right. destruct Hcons as [pre E]; [easy|]. now exists pre, lp.
Qed.

(** X1. The part of an address before its ['@'] is never looked at:
    whatever stands before an ['@'], the empty string included, the
    verdict is that of the rest. *)
Theorem validate_email_ignores_local_part (p d : string) :
  validate_email (p +:+ "@" +:+ d) = validate_email ("@" +:+ d) /\
  exists b : bool, validate_email ("@" +:+ d) = Returns b.
Proof.
  destruct (last_at d) as [H | (pre & post & -> & H)].
  - change (p +:+ "@" +:+ d) with (p +:+ String "@" d).
    change ("@" +:+ d) with ("" +:+ String "@" d).
    rewrite !validate_email_at by exact H. split; [reflexivity | eauto].
  - assert (E1 : p +:+ "@" +:+ (pre +:+ String "@" post)
                 = (p +:+ String "@" pre) +:+ String "@" post)
      by (rewrite app_assoc_str; reflexivity).
    assert (E2 : "@" +:+ (pre +:+ String "@" post)
                 = String "@" pre +:+ String "@" post) by reflexivity.
    rewrite E1, E2, !validate_email_at by exact H. split; [reflexivity | eauto].
Qed.

(** ** More on slugify *)

Lemma length_map f (s : string) : String.length (string_map f s) = String.length s.
Proof. induction s; simpl; congruence. Qed.

Lemma occurs_map_intro f c (s : string) :
  occurs c s -> occurs (f c) (string_map f s).
Proof.
  induction s as [|d s IH]; intros H.
  - now apply occurs_nil in H.
  - cbn [string_map]. apply occurs_cons in H as [->|H]; apply occurs_cons; auto.
Qed.

Lemma lower_char_hyphen c : lower_char c = "-"%char -> c = "-"%char.
Proof. destruct c as [[] [] [] [] [] [] [] []]; intros H; try reflexivity; discriminate. Qed.

Lemma hyphen_for_space_hyphen c :
  hyphen_for_space c = "-"%char <-> c = " "%char \/ c = "-"%char.
Proof.
  unfold hyphen_for_space. destruct (Ascii.eqb c " ") eqn:E.
  - apply Ascii.eqb_eq in E. tauto.
  - apply Ascii.eqb_neq in E. tauto.
Qed.

(** The normal form slugify strips: lowercased, spaces as hyphens. *)
Lemma slugify_strip (t : string) :
  slugify t = strip (string_map hyphen_for_space (string_map lower_char t)) "-".
Proof. unfold slugify. now rewrite replace_space, lower_map. Qed.

(** X2. For a text of code points up to U+00FF, a slug is never longer
    than the text, and it is empty exactly when the text is made of
    spaces and hyphens only (the empty text included). *)
Theorem slugify_length (t : string) :
  (String.length (slugify t) <= String.length t)%nat /\
  (slugify t = "" <-> forall c, occurs c t -> c = " "%char \/ c = "-"%char).
Proof.
  destruct (slugify_shape t) as (pre & post & E & Hpre & Hpost & Hstart & _).
  split.
  - apply (f_equal String.length) in E.
    rewrite !length_map, !length_app_str in E. lia.
  - split.
    + intros H c Hc. rewrite H in E. cbn [String.append] in E.
      apply (occurs_map_intro lower_char), (occurs_map_intro hyphen_for_space) in Hc.
      rewrite E in Hc. apply occurs_app in Hc.
      assert (Hh : hyphen_for_space (lower_char c) = "-"%char)
        by (destruct Hc; [now apply Hpre | now apply Hpost]).
      apply hyphen_for_space_hyphen in Hh as [Hh|Hh].
      * left. now apply lower_char_space.
      * right. now apply lower_char_hyphen.
    + intros H. destruct (slugify t) as [|x r] eqn:Es; [reflexivity|]. exfalso.
      assert (Hx : occurs x (string_map hyphen_for_space (string_map lower_char t))).
      { rewrite E. apply occurs_app. right. apply occurs_app. left.
        apply occurs_cons. now left. }
      apply occurs_map in Hx as (d & Hd & ->).
      apply occurs_map in Hd as (c & Hc & ->).
      apply Hstart. exists r. f_equal.
      apply hyphen_for_space_hyphen.
      destruct (H c Hc) as [-> | ->]; [now left | now right].
Qed.

Lemma normal_char_replace c :
  hyphen_for_space (lower_char (hyphen_for_space c)) = hyphen_for_space (lower_char c).
Proof.
  unfold hyphen_for_space at 2. destruct (Ascii.eqb c " ") eqn:E; [|reflexivity].
  apply Ascii.eqb_eq in E. now subst c.
Qed.

Lemma string_map_map f g (s : string) :
  string_map f (string_map g s) = string_map (fun c => f (g c)) s.
Proof. induction s; simpl; congruence. Qed.

Lemma string_map_ext f g (s : string) :
  (forall c, f c = g c) -> string_map f s = string_map g s.
Proof. intros H. induction s; simpl; congruence. Qed.

(** X3. slugify tells neither capitals from small letters nor spaces
    from hyphens: lowercasing the text first, or turning its spaces into
    hyphens first, gives the same slug. *)
Theorem slugify_insensitive (t : string) :
  slugify (lower t) = slugify t /\
  slugify (replace t " " "-") = slugify t.
Proof.
  rewrite !slugify_strip, lower_map, replace_space, !string_map_map. split; f_equal.
  - apply string_map_ext. intros c. now rewrite lower_char_idem.
  - apply string_map_ext. intros c. apply normal_char_replace.
Qed.

(** X4. For a text of code points up to U+00FF, slugify removes nothing
    but spaces and hyphens: every other character of the text is in the
    slug, lowercased, so a slash, a question mark or a percent sign of
    the text stays. *)
Theorem slugify_keeps (t : string) (c : ascii) :
  occurs c t -> c <> " "%char -> c <> "-"%char ->
  occurs (lower_char c) (slugify t).
Proof.
  intros Hc Hs Hh.
  destruct (slugify_shape t) as (pre & post & E & Hpre & Hpost & _).
  apply (occurs_map_intro lower_char), (occurs_map_intro hyphen_for_space) in Hc.
  assert (Hn : hyphen_for_space (lower_char c) <> "-"%char).
  { rewrite hyphen_for_space_hyphen. intros [H|H].
    - now apply lower_char_space in H.
    - now apply lower_char_hyphen in H. }
  assert (Hl : hyphen_for_space (lower_char c) = lower_char c).
  { unfold hyphen_for_space. destruct (Ascii.eqb (lower_char c) " ") eqn:Q; [|reflexivity].
    apply Ascii.eqb_eq, lower_char_space in Q. contradiction. }
  rewrite E, Hl in *. apply occurs_app in Hc as [Hc|Hc].
  - now apply Hpre in Hc.
  - apply occurs_app in Hc as [Hc|Hc]; [exact Hc|]. now apply Hpost in Hc.
Qed.

Lemma slugify_keeps_witness : occurs (lower_char "/") (slugify "a/B c").
Proof.
  apply (slugify_keeps "a/B c" "/"); [| discriminate | discriminate].
  exists "a", "B c". reflexivity.
Defined.

(** ** User.full_display *)

Lemma app_inv_tail_str (a b c : string) : a +:+ c = b +:+ c -> a = b.
Proof.
  revert b. induction a as [|x a IH]; intros [|y b] E; cbn [String.append] in E.
  - reflexivity.
  - apply (f_equal String.length) in E. cbn [String.length] in E.
    rewrite length_app_str in E. lia.
  - apply (f_equal String.length) in E. cbn [String.length] in E.
    rewrite length_app_str in E. lia.
  - injection E as -> E. f_equal. now apply IH.
Qed.

(** X5. The display string of a user determines the name and the email
    when emails have no ['<']; without that it does not: the name "a <b"
    with the email "c" and the name "a" with the email "b <c" are
    displayed alike. *)
Theorem full_display_unambiguous :
  (forall u v : User,
      ~ occurs "<" (user_email u) -> ~ occurs "<" (user_email v) ->
      full_display u = full_display v ->
      user_name u = user_name v /\ user_email u = user_email v) /\
  full_display {| user_id := 1; user_name := "a <b"; user_email := "c";
                  user_created_at := 0 |} =
  full_display {| user_id := 1; user_name := "a"; user_email := "b <c";
                  user_created_at := 0 |}.
Proof.
  split; [|reflexivity].
  intros [i n e t] [i' n' e' t']. unfold full_display. cbn [user_name user_email].
  intros He He' E.
  assert (F : forall a b : string,
             a +:+ " <" +:+ b +:+ ">" = (a +:+ " ") +:+ String "<" (b +:+ ">")).
  { intros a b. now rewrite app_assoc_str. }
  assert (G : forall b : string, ~ occurs "<" b -> ~ occurs "<" (b +:+ ">")).
  { intros b Hb H. apply occurs_app in H as [H|H]; [now apply Hb|].
    apply occurs_cons in H as [H|H]; [discriminate | now apply occurs_nil in H]. }
  rewrite !F in E.
  pose proof (after_last_unique _ _ _ _ _ E (G _ He) (G _ He')) as Q.
  apply snoc_inj in Q as [-> _]. split; [|reflexivity].
  apply app_inv_tail_str in E. now apply app_inv_tail_str in E.
Qed.

(** ** Product.__str__ *)

Lemma uncomma_cons c (s : string) :
  replace (String c s) "," "" =
  if Ascii.eqb c "," then replace s "," "" else String c (replace s "," "").
Proof.
  unfold replace. cbn [replace_go]. rewrite prefix_char, Ascii.eqb_sym.
  now destruct (Ascii.eqb c ",").
Qed.

Lemma uncomma_app (a b : string) :
  replace (a +:+ b) "," "" = replace a "," "" +:+ replace b "," "".
Proof.
  induction a as [|c a IH]; [reflexivity|].
  cbn [String.append]. rewrite !uncomma_cons, IH. now destruct (Ascii.eqb c ",").
Qed.

Lemma uncomma_digits (s : string) : all_digits s = true -> replace s "," "" = s.
Proof.
  induction s as [|c s IH]; [reflexivity|]. cbn [all_digits].
  intros [Hc Hs]%andb_true_iff. rewrite uncomma_cons, IH by exact Hs.
  destruct (Ascii.eqb c ",") eqn:E; [|reflexivity].
  apply Ascii.eqb_eq in E. subst c. discriminate.
Qed.

Lemma uncomma_group (ds : string) :
  replace (group_thousands ds) "," "" = replace ds "," "".
Proof.
  induction ds as [|c ds IH]; [reflexivity|]. cbn [group_thousands].
  destruct (_ && _)%bool; rewrite !uncomma_cons; [|now rewrite IH].
  change (replace ("," +:+ group_thousands ds) "," "")
    with (replace (String "," (group_thousands ds)) "," "").
  rewrite (uncomma_cons ","), IH. reflexivity.
Qed.

Lemma uncomma_render (neg : bool) (h : Z) :
  0 <= h -> replace (render_hundredths neg h) "," "" = render_plain neg h.
Proof.
  intros Hh. unfold render_hundredths, render_plain.
  assert (0 <= h / 100) as Hq by (apply Z.div_pos; lia).
  destruct (decimal_digits_spec _ Hq) as (Hd & _).
  destruct (two_digits_spec (h mod 100)) as (d1 & d2 & -> & H1 & H2 & _);
    [apply Z.mod_pos_bound; lia|].
  rewrite !uncomma_app, uncomma_group, (uncomma_digits _ Hd). f_equal.
  - now destruct neg.
  - rewrite (uncomma_digits (String d1 (String d2 "")))
      by (cbn [all_digits]; now rewrite H1, H2).
    reflexivity.
Qed.

Lemma uncomma_fixed2 (x : float) : replace (format_fixed2 x) "," "" = format_plain2 x.
Proof.
  unfold format_fixed2, format_plain2. pose proof (Prim2SF_valid x) as V.
  destruct (Prim2SF x) as [s|s| |s m e].
  - now apply uncomma_render.
  - now destruct s.
  - reflexivity.
  - apply uncomma_render. now apply hundredths_nearest, (bounded_exponent m).
Qed.

(** Below a thousand there is no group to separate. *)
Lemma group_thousands_small (n : Z) :
  0 <= n < 1000 -> group_thousands (decimal_digits n) = decimal_digits n.
Proof.
  intros Hn.
  assert (A : forallb (fun k => String.eqb (group_thousands (decimal_digits (Z.of_nat k)))
                                           (decimal_digits (Z.of_nat k)))
                      (seq 0 1000) = true) by (vm_compute; reflexivity).
  rewrite forallb_forall in A. specialize (A (Z.to_nat n)).
  rewrite Z2Nat.id in A by lia. apply String.eqb_eq, A, in_seq. lia.
Qed.

(** X6. [str(p)] is the name, then, in parentheses, the price as
    [format_currency] prints it with its commas taken out; for a price
    that rounds to less than a thousand it is [format_currency]'s text
    itself. *)
Theorem Product_str_spec (p : Product) :
  exists s : string,
    format_currency (PyFloat (price p)) = Returns s /\
    Product_str p = product_name p +:+ " (" +:+ replace s "," "" +:+ ")" /\
    (forall v : Z,
        float_exact (price p) = Some v -> 200 * Z.abs v < 199999 * 2 ^ 1074 ->
        Product_str p = product_name p +:+ " (" +:+ s +:+ ")").
Proof.
  exists ("$" +:+ format_fixed2 (price p)). split; [reflexivity|].
  assert (E : replace ("$" +:+ format_fixed2 (price p)) "," ""
              = "$" +:+ format_plain2 (price p)).
  { change ("$" +:+ format_fixed2 (price p)) with (String "$" (format_fixed2 (price p))).
    rewrite uncomma_cons, uncomma_fixed2. reflexivity. }
  split.
  - rewrite E. reflexivity.
  - intros v Hv Hlt. unfold Product_str.
    assert (Q : format_plain2 (price p) = format_fixed2 (price p)); [|now rewrite Q].
    unfold format_fixed2, format_plain2.
    unfold float_exact in Hv. pose proof (Prim2SF_valid (price p)) as V.
    destruct (Prim2SF (price p)) as [s|s| |s m e]; try discriminate.
    + reflexivity.
    + injection Hv as <-.
      destruct (hundredths_nearest s m e (bounded_exponent _ _ V)) as [H0 [Hn _]].
      set (h := hundredths m e) in *. unfold render_hundredths, render_plain.
      rewrite group_thousands_small; [reflexivity|].
      pose proof (pow2_pos 1074 ltac:(lia)) as P. set (q := 2 ^ 1074) in *.
      assert (h < 100000) by nia.
      split; [apply Z.div_pos; lia | apply Z.div_lt_upper_bound; lia].
Qed.

(** ** More on format_currency *)

(** X7. The minus sign of a negative amount comes after the dollar sign:
    negating an amount that is not negative puts a ['-'] between the
    ['$'] and the rest, which stays as it was ("$-5.00", not "-$5.00"). *)
Theorem format_currency_negated (x : float) :
  sign_bit x = false -> Prim2SF x <> S754_nan ->
  exists r : string,
    format_currency (PyFloat x) = Returns ("$" +:+ r) /\
    format_currency (PyFloat (- x)) = Returns ("$-" +:+ r).
Proof.
  unfold sign_bit, format_currency, format_fixed2. cbn [to_float mbind outcome_bind].
  rewrite opp_spec. destruct (Prim2SF x) as [s|s| |s m e]; cbn [SFopp negb];
    intros Hs H; try easy; subst s; eexists; split; reflexivity.
Qed.

Lemma format_currency_negated_witness :
  exists r : string,
    format_currency (PyFloat 1234.5) = Returns ("$" +:+ r) /\
    format_currency (PyFloat (- 1234.5)) = Returns ("$-" +:+ r).
Proof. apply (format_currency_negated 1234.5%float); [reflexivity | discriminate]. Defined.

(** X8. An amount of at most half a cent in magnitude is printed as
    zero, and a negative one keeps its minus sign: "$-0.00" for -0.001
    and for -0.0. *)
Theorem format_currency_below_half_cent (x : float) (v : Z) :
  float_exact x = Some v -> 200 * Z.abs v <= 2 ^ 1074 ->
  format_currency (PyFloat x) = Returns (if sign_bit x then "$-0.00" else "$0.00").
Proof.
  unfold float_exact, sign_bit, format_currency, format_fixed2.
  cbn [to_float mbind outcome_bind].
  pose proof (Prim2SF_valid x) as V.
  destruct (Prim2SF x) as [s|s| |s m e]; try discriminate; intros [= <-] Hv.
  - now destruct s.
  - destruct (hundredths_nearest s m e (bounded_exponent _ _ V)) as [H0 [Hn He]].
    set (h := hundredths m e) in *.
    set (a := Z.abs (cond_Zopp s (Z.pos m * 2 ^ (e + 1074)))) in *.
    pose proof (pow2_pos 1074 ltac:(lia)) as P. set (q := 2 ^ 1074) in *.
    assert (Ha : 0 <= a) by apply Z.abs_nonneg.
    assert (Hh : h = 0).
    { destruct (Z.eq_dec h 0) as [|Hne]; [assumption|]. exfalso.
      assert (H1 : q <= 2 * (h * q - 100 * a)) by nia.
      assert (H2 : Z.abs (h * q - 100 * a) = h * q - 100 * a) by lia.
      rewrite H2 in Hn, He.
      assert (H3 : h = 1) by nia.
      rewrite H3 in He. specialize (He ltac:(lia)). discriminate. }
    rewrite Hh. now destruct s.
Qed.

Lemma format_currency_below_half_cent_witness :
  format_currency (PyFloat (-0.001)) =
  Returns (if sign_bit (-0.001) then "$-0.00" else "$0.00").
Proof.
  apply (format_currency_below_half_cent (-0.001)%float
           (- (4611686018427388 * 2 ^ 1012))); vm_compute; congruence.
Defined.

(** ** What rounding returns *)

(** Rounding a magnitude gives a zero, an infinity or a finite value of
    the sign asked for; a finite one has a mantissa below 2^53 and an
    exponent of at most 971. *)
Lemma round_aux_result (s : bool) (mx ex : Z) (lx : location) :
  0 <= mx ->
  let r := binary_round_aux prec emax s mx ex lx in
  r = S754_zero s \/ r = S754_infinity s \/
  exists m' e', r = S754_finite s m' e' /\ Z.pos m' < 2 ^ 53 /\ e' <= 971.
Proof.
  intros Hmx. cbv zeta. unfold binary_round_aux.
  destruct (shr_fexp_spec mx ex lx Hmx) as [M1 E1]. cbv zeta in M1, E1.
  set (n1 := Z.max 0 (fexp prec emax (Zdigits2 mx + ex) - ex)) in *.
  destruct (shr_fexp prec emax mx ex lx) as [mrs' e'].
  cbn [fst snd] in M1, E1. subst e'.
  set (mr := round_nearest_even (shr_m mrs') (loc_of_shr_record mrs')).
  assert (Hm1 : 0 <= shr_m mrs').
  { rewrite M1. apply Z.div_pos; [lia | apply pow2_pos; lia]. }
  assert (Hmr : shr_m mrs' <= mr) by apply round_nearest_even_ge.
  destruct (shr_fexp_spec mr (ex + n1) loc_Exact ltac:(lia)) as [M2 E2].
  cbv zeta in M2, E2. rewrite fexp_eq in M2, E2.
  set (d := Zdigits2 mr) in *.
  set (n2 := Z.max 0 (Z.max (d + (ex + n1) - 53) (-1074) - (ex + n1))) in *.
  destruct (shr_fexp prec emax mr (ex + n1) loc_Exact) as [mrs'' e''].
  cbn [fst snd] in M2, E2. subst e''.
  destruct (shr_m mrs'') as [|m|m] eqn:Em.
  - now left.
  - right. destruct (Z.leb_spec (ex + n1 + n2) (emax - prec)) as [Le|_]; [right | now left].
    exists m, (ex + n1 + n2). split; [reflexivity|]. split; [|exact Le].
    assert (Hpos : 0 < mr).
    { destruct (Z.eq_dec mr 0) as [Z0|]; [|lia]. rewrite Z0, Z.div_0_l in M2; [lia|].
      pose proof (pow2_pos n2 ltac:(lia)). lia. }
    destruct (Zdigits2_bounds mr Hpos) as [[_ U] D]. fold d in U, D.
    rewrite M2. apply Z.div_lt_upper_bound; [apply pow2_pos; lia|].
    apply Z.lt_le_trans with (1 := U). rewrite <- pow2_split by lia.
    apply Z.pow_le_mono_r; lia.
  - exfalso. assert (0 <= Z.neg m); [|lia]. rewrite M2.
    apply Z.div_pos; [lia | apply pow2_pos; lia].
Qed.

Lemma round_result (s : bool) (m : positive) (e : Z) :
  let r := binary_round prec emax s m e in
  r = S754_zero s \/ r = S754_infinity s \/
  exists m' e', r = S754_finite s m' e' /\ Z.pos m' < 2 ^ 53 /\ e' <= 971.
Proof.
  cbv zeta. unfold binary_round. destruct (shl_align m e _) as [mz ez].
  now apply round_aux_result.
Qed.

(** ** Ints too large for a float *)

Lemma float_of_int_overflow (z : Z) :
  2 ^ 1024 <= Z.abs z -> float_of_int z = Raises OverflowError.
Proof.
  intros Hz. unfold float_of_int, binary_normalize.
  assert (P : forall (s : bool) (m : positive),
             2 ^ 1024 <= Z.pos m ->
             binary_round prec emax s m 0 = S754_infinity s).
  { intros s m Hm.
    assert (F : fexp prec emax (Zdigits2 1 + 1024) <= 1024) by (vm_compute; discriminate).
    assert (L0 : 1 * 2 ^ (1024 - -1074) <= Z.pos m * 2 ^ (0 - -1074)).
    { change (2 ^ (1024 - -1074)) with (2 ^ 1024 * 2 ^ 1074).
      change (0 - -1074) with 1074. pose proof (pow2_pos 1074 ltac:(lia)). nia. }
    destruct (round_lower (-1074) s m 0 1 1024 ltac:(lia) ltac:(lia) ltac:(lia)
                ltac:(lia) F L0) as [R | (m' & e' & R & He & L)].
    - exact R.
    - exfalso.
      destruct (round_result s m 0) as [Q | [Q | (m2 & e2 & Q & Hm2 & He2)]];
        cbv zeta in Q; rewrite R in Q; try discriminate.
      injection Q as <- <-.
      assert (U : Z.pos m' * 2 ^ (e' - -1074) < 2 ^ 53 * 2 ^ (971 - -1074)).
      { apply Z.lt_le_trans with (2 ^ 53 * 2 ^ (e' - -1074)).
        - apply Z.mul_lt_mono_pos_r; [apply pow2_pos; lia | exact Hm2].
        - apply Z.mul_le_mono_nonneg_l; [lia | apply Z.pow_le_mono_r; lia]. }
      change (2 ^ 53 * 2 ^ (971 - -1074)) with (1 * 2 ^ (1024 - -1074)) in U. lia. }
  destruct z as [|m|m].
  - change (Z.abs 0) with 0 in Hz. pose proof (pow2_pos 1024 ltac:(lia)). lia.
  - now rewrite (P false m Hz).
  - now rewrite (P true m Hz).
Qed.


(** ** Product.discounted_price *)

Lemma shift_52 (m : positive) : (m * 4503599627370496)%positive = Pos.iter xO m 52.
Proof.
  apply Pos2Z.inj. rewrite iter_xO, Pos2Z.inj_mul. reflexivity.
Qed.

Lemma shr_52 (m : positive) :
  SpecFloat.iter_pos shr_1 52 (shr_record_of_loc (Z.pos (Pos.iter xO m 52)) loc_Exact) =
  {| shr_m := Z.pos m; shr_r := false; shr_s := false |}.
Proof. vm_compute. reflexivity. Qed.

(** A float's mantissa times 2^52, with the exponent 52 lower, rounds
    back to the float. *)
Lemma round_aux_shifted (s : bool) (m : positive) (e : Z) :
  bounded prec emax m e = true ->
  binary_round_aux prec emax s (Z.pos (m * 4503599627370496)) (e + -52) loc_Exact =
  S754_finite s m e.
Proof.
  intros V. unfold bounded, canonical_mantissa in V.
  apply andb_true_iff in V as [C Le]. apply Z.eqb_eq in C. apply Z.leb_le in Le.
  rewrite shift_52.
  assert (F1 : fexp prec emax (Zdigits2 (Z.pos (Pos.iter xO m 52)) + (e + -52)) - (e + -52)
               = 52).
  { cbn [Zdigits2]. rewrite digits2_pos_shift.
    replace (Z.pos (digits2_pos m) + 52 + (e + -52)) with (Z.pos (digits2_pos m) + e) by lia.
    rewrite C. lia. }
  assert (F2 : fexp prec emax (Zdigits2 (Z.pos m) + e) - e = 0).
  { cbn [Zdigits2]. rewrite C. lia. }
  unfold binary_round_aux, shr_fexp. rewrite F1. cbn [shr]. rewrite shr_52.
  cbn [loc_of_shr_record shr_m round_nearest_even].
  replace (e + -52 + 52) with e by lia. rewrite F2.
  cbn [shr shr_record_of_loc shr_m].
  destruct (Z.leb_spec e (emax - prec)); [reflexivity | lia].
Qed.

Lemma mul_one (x : float) : (x * 1)%float = x.
Proof.
  apply Prim2SF_inj. rewrite mul_spec.
  change (Prim2SF 1) with (S754_finite false 4503599627370496 (-52)).
  pose proof (Prim2SF_valid x) as V.
  destruct (Prim2SF x) as [s|s| |s m e]; cbn [SF64mul SFmul].
  - now destruct s.
  - now destruct s.
  - reflexivity.
  - rewrite round_aux_shifted by exact V. now destruct s.
Qed.

Lemma mul_minus_one (x : float) : (x * -1)%float = (- x)%float.
Proof.
  apply Prim2SF_inj. rewrite mul_spec, opp_spec.
  change (Prim2SF (-1)) with (S754_finite true 4503599627370496 (-52)).
  pose proof (Prim2SF_valid x) as V.
  destruct (Prim2SF x) as [s|s| |s m e]; cbn [SF64mul SFmul SFopp].
  - now destruct s.
  - now destruct s.
  - reflexivity.
  - rewrite round_aux_shifted by exact V. now destruct s.
Qed.

(** X10. A discount of 0 percent gives the price back, bit for bit, for
    every price that is not a NaN, and a NaN for a NaN.  A discount of
    100 percent gives a zero with the sign of the price when the price
    is finite, and NaN when it is infinite or NaN. *)
Theorem discounted_price_bounds (p : Product) :
  (Prim2SF (price p) <> S754_nan -> discounted_price p 0 = price p) /\
  (Prim2SF (price p) = S754_nan -> Prim2SF (discounted_price p 0) = S754_nan) /\
  (forall v : Z,
      float_exact (price p) = Some v ->
      float_exact (discounted_price p 100) = Some 0 /\
      sign_bit (discounted_price p 100) = sign_bit (price p)) /\
  (float_exact (price p) = None ->
   Prim2SF (discounted_price p 100) = S754_nan).
Proof.
  unfold discounted_price.
  change (1 - 0 / 100)%float with 1%float.
  change (1 - 100 / 100)%float with 0%float.
  split; [intros _; apply mul_one|].
  split; [intros H; now rewrite mul_one|].
  unfold float_exact, sign_bit. rewrite mul_spec.
  change (Prim2SF 0) with (S754_zero false).
  destruct (Prim2SF (price p)) as [s|s| |s m e]; cbn [SF64mul SFmul sf_exact];
    split; try discriminate; try reflexivity; intros v _; now destruct s.
Qed.

(** The theorem at the price 29.99. *)
Lemma discounted_price_bounds_witness :
  discounted_price (mkProduct 101 "Widget" 29.99) 0 = 29.99%float.
Proof.
  apply (proj1 (discounted_price_bounds (mkProduct 101 "Widget" 29.99))).
  discriminate.
Defined.

(** X11. The discount is not clamped: at 200 percent the result is the
    price negated, for every price. *)
Theorem discounted_price_not_clamped (p : Product) :
  discounted_price p 200 = (- price p)%float.
Proof.
  unfold discounted_price. change (1 - 200 / 100)%float with (-1)%float.
  apply mul_minus_one.
Qed.

(** ** Orders with special prices *)

Lemma add_nan_l (x y : float) : Prim2SF x = S754_nan -> Prim2SF (x + y) = S754_nan.
Proof. intros H. rewrite add_spec, H. reflexivity. Qed.

Lemma add_nan_r (x y : float) : Prim2SF y = S754_nan -> Prim2SF (x + y) = S754_nan.
Proof. intros H. rewrite add_spec, H. now destruct (Prim2SF x). Qed.

Lemma fold_add_nan (xs : list float) (x : float) :
  In x xs -> Prim2SF x = S754_nan ->
  forall acc, Prim2SF (fold_left PrimFloat.add xs acc) = S754_nan.
Proof.
  intros Hin Hx.
  assert (A : forall ys acc, Prim2SF acc = S754_nan ->
                             Prim2SF (fold_left PrimFloat.add ys acc) = S754_nan).
  { induction ys as [|y ys IH]; intros acc Ha; [exact Ha|].
    cbn [fold_left]. now apply IH, add_nan_l. }
  induction xs as [|y xs IH]; intros acc; [easy|].
  cbn [fold_left]. destruct Hin as [->|Hin].
  - now apply A, add_nan_r.
  - now apply IH.
Qed.

(** X12. One NaN price spoils the order: the sum is NaN, and the
    subtotal, the tax and the total are all printed as "$nan", whatever
    the other prices. *)
Theorem process_order_nan (u : User) (ps : list Product) (p : Product) :
  In p ps -> Prim2SF (price p) = S754_nan ->
  calculate_total ps = Returns (PyFloat nan) /\
  exists d : gmap string py_value,
    process_order u ps = Returns d /\
    d !! "subtotal" = Some (VStr "$nan") /\
    d !! "tax" = Some (VStr "$nan") /\
    d !! "total" = Some (VStr "$nan").
Proof.
  intros Hin Hp.
  assert (E : float_sum (map price ps) = nan).
  { apply Prim2SF_inj. unfold float_sum.
    rewrite (fold_add_nan _ (price p)); [reflexivity | now apply in_map | exact Hp]. }
  split.
  - rewrite calculate_total_value, E. now destruct ps.
  - eexists. split; [apply process_order_value|]. cbv zeta. rewrite E.
    repeat split; simplify_map_eq; reflexivity.
Qed.

Lemma process_order_nan_witness :
  calculate_total [mkProduct 1 "A" 10; mkProduct 2 "B" nan] = Returns (PyFloat nan) /\
  exists d : gmap string py_value,
    process_order alice [mkProduct 1 "A" 10; mkProduct 2 "B" nan] = Returns d /\
    d !! "subtotal" = Some (VStr "$nan") /\
    d !! "tax" = Some (VStr "$nan") /\
    d !! "total" = Some (VStr "$nan").
Proof.
  apply (process_order_nan alice _ (mkProduct 2 "B" nan)); [|reflexivity].
  right. left. reflexivity.
Defined.

(** X13. An order without products: for every user the subtotal, the
    tax and the total are "$0.00" and the list of items is empty; nothing
    is raised. *)
Theorem process_order_empty (u : User) :
  exists d : gmap string py_value,
    process_order u [] = Returns d /\
    d !! "user_id" = Some (VInt (user_id u)) /\
    d !! "user_name" = Some (VStr (user_name u)) /\
    d !! "subtotal" = Some (VStr "$0.00") /\
    d !! "tax" = Some (VStr "$0.00") /\
    d !! "total" = Some (VStr "$0.00") /\
    d !! "items" = Some (VList []).
Proof.
  eexists. split; [apply process_order_value|]. cbv zeta.
  repeat split; simplify_map_eq; reflexivity.
Qed.

(** ** Prices that are not negative *)

Lemma add_nonneg (x y : float) :
  is_nonneg x = true -> is_nonneg y = true -> is_nonneg (x + y) = true.
Proof.
  unfold is_nonneg. rewrite add_spec.
  destruct (Prim2SF x) as [[]|[]| |[] mx ex]; try discriminate;
    destruct (Prim2SF y) as [[]|[]| |[] my ey]; try discriminate; intros _ _;
    try reflexivity.
  cbn [SF64add SFadd cond_Zopp]. rewrite <- Pos2Z.inj_add. cbn [binary_normalize].
  match goal with
  | |- context [binary_round prec emax false ?m ?e] =>
      destruct (round_result false m e) as [Q | [Q | (m' & e' & Q & _)]];
      cbv zeta in Q; now rewrite Q
  end.
Qed.

Lemma tax_nonneg (x : float) : is_nonneg x = true -> is_nonneg (x * 0.08) = true.
Proof.
  unfold is_nonneg. rewrite mul_spec, Prim2SF_tax_rate.
  destruct (Prim2SF x) as [[]|[]| |[] mx ex]; try discriminate; intros _;
    try reflexivity.
  cbn [SF64mul SFmul xorb].
  match goal with
  | |- context [binary_round_aux prec emax false ?m ?e ?l] =>
      destruct (round_aux_result false m e l ltac:(lia)) as [Q | [Q | (m' & e' & Q & _)]];
      cbv zeta in Q; now rewrite Q
  end.
Qed.

Lemma float_sum_nonneg (xs : list float) :
  Forall (fun x => is_nonneg x = true) xs -> is_nonneg (float_sum xs) = true.
Proof.
  unfold float_sum. assert (H0 : is_nonneg 0 = true) by reflexivity.
  revert H0. generalize 0%float as acc.
  induction xs as [|x xs IH]; intros acc Ha Hxs; [exact Ha|].
  inversion Hxs; subst. cbn [fold_left]. apply IH; [|assumption].
  now apply add_nonneg.
Qed.

Lemma fixed2_nonneg (x : float) :
  is_nonneg x = true ->
  ~ starts_with "-" (format_fixed2 x) /\ format_fixed2 x <> "nan".
Proof.
  unfold is_nonneg, format_fixed2. pose proof (Prim2SF_valid x) as V.
  destruct (Prim2SF x) as [[]|[]| |[] m e]; try discriminate; intros _.
  - split; [intros [r E]|]; discriminate.
  - split; [intros [r E]|]; discriminate.
  - destruct (hundredths_nearest false m e (bounded_exponent _ _ V)) as [H0 _].
    set (h := hundredths m e) in *. unfold render_hundredths.
    assert (0 <= h / 100) as Hq by (apply Z.div_pos; lia).
    destruct (written_head _ _ (decimal_digits_spec _ Hq)) as (c & t & -> & Hc).
    cbn [String.append]. split.
    + intros [r E]. injection E as -> _. discriminate.
    + intros E. injection E as -> _. discriminate.
Qed.

Lemma fixed2_nonneg_head (x : float) :
  is_nonneg x = true ->
  format_fixed2 x = "inf" \/
  exists (c : ascii) (t : string), format_fixed2 x = String c t /\ is_digit c = true.
Proof.
  unfold is_nonneg, format_fixed2. pose proof (Prim2SF_valid x) as V.
  destruct (Prim2SF x) as [[]|[]| |[] m e]; try discriminate; intros _.
  - right. eexists _, _. vm_compute. split; reflexivity.
  - now left.
  - right.
    destruct (hundredths_nearest false m e (bounded_exponent _ _ V)) as [H0 _].
    set (h := hundredths m e) in *. unfold render_hundredths.
    assert (0 <= h / 100) as Hq by (apply Z.div_pos; lia).
    destruct (written_head _ _ (decimal_digits_spec _ Hq)) as (c & t & -> & Hc).
    cbn [String.append]. eauto.
Qed.

(** X14. When no price is negative, -0.0 or NaN, no amount of the order
    is printed with a minus sign or as "nan": after the dollar sign the
    subtotal, the tax and the total each start with a digit or are
    "inf" (the sum taken from left to right). *)
Theorem process_order_nonnegative (u : User) (ps : list Product) :
  (forall p, In p ps -> is_nonneg (price p) = true) ->
  exists (d : gmap string py_value) (s1 s2 s3 : string),
    process_order u ps = Returns d /\
    d !! "subtotal" = Some (VStr ("$" +:+ s1)) /\
    d !! "tax" = Some (VStr ("$" +:+ s2)) /\
    d !! "total" = Some (VStr ("$" +:+ s3)) /\
    Forall (fun s => (s = "inf" \/
                      exists (c : ascii) (t : string),
                        s = String c t /\ is_digit c = true) /\
                     ~ starts_with "-" s /\ s <> "nan") [s1; s2; s3].
Proof.
  intros H. set (s := float_sum (map price ps)).
  assert (Hs : is_nonneg s = true).
  { apply float_sum_nonneg, List.Forall_forall. intros x (p & <- & Hp)%in_map_iff. auto. }
  pose proof (tax_nonneg s Hs) as Ht.
  pose proof (add_nonneg _ _ Hs Ht) as Htot.
  eexists _, (format_fixed2 s), (format_fixed2 (s * 0.08)), (format_fixed2 (s + s * 0.08)).
  split; [apply process_order_value|]. cbv zeta. fold s.
  split; [simplify_map_eq; reflexivity|].
  split; [simplify_map_eq; reflexivity|].
  split; [simplify_map_eq; reflexivity|].
  repeat apply List.Forall_cons; try apply List.Forall_nil;
    (split; [now apply fixed2_nonneg_head | now apply fixed2_nonneg]).
Qed.

Lemma process_order_nonnegative_witness :
  exists (d : gmap string py_value) (s1 s2 s3 : string),
    process_order alice demo_products = Returns d /\
    d !! "subtotal" = Some (VStr ("$" +:+ s1)) /\
    d !! "tax" = Some (VStr ("$" +:+ s2)) /\
    d !! "total" = Some (VStr ("$" +:+ s3)) /\
    Forall (fun s => (s = "inf" \/
                      exists (c : ascii) (t : string),
                        s = String c t /\ is_digit c = true) /\
                     ~ starts_with "-" s /\ s <> "nan") [s1; s2; s3].
Proof.
  apply (process_order_nonnegative alice demo_products).
  intros p [<-|[<-|[]]]; reflexivity.
Defined.

(** ** Two products *)

Lemma SFadd_comm (x y : spec_float) : SF64add x y = SF64add y x.
Proof.
  destruct x as [[]|[]| |sx mx ex], y as [[]|[]| |sy my ey]; try reflexivity.
  cbn [SF64add SFadd]. now rewrite (Z.min_comm ey ex), Z.add_comm.
Qed.

Lemma add_comm (x y : float) : (x + y)%float = (y + x)%float.
Proof. apply Prim2SF_inj. rewrite !add_spec. apply SFadd_comm. Qed.

Lemma add_neg_zero_l (x y : float) :
  is_neg_zero x = true -> is_neg_zero y = false -> (x + y)%float = y.
Proof.
  unfold is_neg_zero. intros Hx Hy. apply Prim2SF_inj. rewrite add_spec.
  destruct (Prim2SF x) as [[]| | |]; try discriminate.
  now destruct (Prim2SF y) as [[]|[]| |].
Qed.

(** X15. With two products the order never matters (the sum taken from
    left to right): when neither price is a NaN the total of p, q and
    that of q, p are the same float, bit for bit, or are both NaN; when
    a price is a NaN both totals are NaN.  It takes three products for
    the order to show. *)
Theorem calculate_total_two (p q : Product) :
  (Prim2SF (price p) <> S754_nan -> Prim2SF (price q) <> S754_nan ->
   calculate_total [p; q] = calculate_total [q; p]) /\
  (Prim2SF (price p) = S754_nan \/ Prim2SF (price q) = S754_nan ->
   exists x y : float,
     calculate_total [p; q] = Returns (PyFloat x) /\
     calculate_total [q; p] = Returns (PyFloat y) /\
     Prim2SF x = S754_nan /\ Prim2SF y = S754_nan).
Proof.
  assert (E : float_sum (map price [p; q]) = float_sum (map price [q; p])).
  { unfold float_sum. cbn [map fold_left]. rewrite !add_zero_l.
    destruct (is_neg_zero (price p)) eqn:Hp, (is_neg_zero (price q)) eqn:Hq.
    - now rewrite !add_zero_l, Hp, Hq.
    - rewrite add_zero_l, Hq. rewrite add_comm. symmetry. now apply add_neg_zero_l.
    - rewrite add_zero_l, Hp. rewrite add_comm. now apply add_neg_zero_l.
    - apply add_comm. }
  split.
  - intros _ _. rewrite !calculate_total_value. now rewrite E.
  - intros H. rewrite !calculate_total_value.
    exists (float_sum (map price [p; q])), (float_sum (map price [q; p])).
    split; [reflexivity|]. split; [reflexivity|]. rewrite <- E.
    assert (N : Prim2SF (float_sum (map price [p; q])) = S754_nan).
    { unfold float_sum. destruct H as [H|H].
      - apply (fold_add_nan _ (price p)); [now left | exact H].
      - apply (fold_add_nan _ (price q)); [right; now left | exact H]. }
    now split.
Qed.

(** The theorem at the prices 0.1 and 0.2. *)
Lemma calculate_total_two_witness :
  calculate_total [mkProduct 1 "A" 0.1; mkProduct 2 "B" 0.2] =
  calculate_total [mkProduct 2 "B" 0.2; mkProduct 1 "A" 0.1].
Proof.
  apply (proj1 (calculate_total_two (mkProduct 1 "A" 0.1) (mkProduct 2 "B" 0.2)));
    discriminate.
Defined.

(** ** main *)

Lemma fresh_lookup (h : gmap positive object) : h !! fresh (dom h) = None.
Proof. apply not_elem_of_dom, is_fresh. Qed.

(** X16. [main] can be run in any world: it raises nothing, reads the
    clock once, prints one line, the result of processing the demo
    order, after what was on the console, and leaves every object that
    existed as it was. *)
Theorem main_runs (w : world) :
  exists (d : gmap string py_value) (w' : world),
    main w = (Returns tt, w') /\
    process_order alice demo_products = Returns d /\
    console w' = console w ++ [FormattedLine "Order processed: " d] /\
    clock w' = clock w + 1 /\
    (forall r o, heap w !! r = Some o -> heap w' !! r = Some o).
Proof.
  set (u1 := {| user_id := 1; user_name := "Alice"; user_email := "alice@example.com";
                user_created_at := clock w |}).
  set (h0 := heap w).
  set (r1 := fresh (dom h0)). set (h1 := <[r1 := UserObj u1]> h0).
  set (r2 := fresh (dom h1)).
  set (h2 := <[r2 := ProductObj (mkProduct 101 "Widget" 29.99)]> h1).
  set (r3 := fresh (dom h2)).
  set (h3 := <[r3 := ProductObj (mkProduct 102 "Gadget" 49.99)]> h2).
  set (r4 := fresh (dom h3)). set (h4 := <[r4 := ListObj [r2; r3]]> h3).
  pose proof (fresh_lookup h0) as N1. fold r1 in N1.
  pose proof (fresh_lookup h1) as N2. fold r2 in N2.
  pose proof (fresh_lookup h2) as N3. fold r3 in N3.
  pose proof (fresh_lookup h3) as N4. fold r4 in N4.
  unfold h3 in N4. apply lookup_insert_None in N4 as [N4 D43].
  unfold h2 in N4, N3. apply lookup_insert_None in N4 as [N4 D42].
  apply lookup_insert_None in N3 as [N3 D32].
  unfold h1 in N4, N3, N2. apply lookup_insert_None in N4 as [N4 D41].
  apply lookup_insert_None in N3 as [N3 D31].
  apply lookup_insert_None in N2 as [N2 D21].
  set (w4 := {| heap := h4; clock := clock w + 1; console := console w |}).
  assert (L1 : heap w4 !! r1 = Some (UserObj u1)).
  { cbn [heap w4]. unfold h4, h3, h2, h1. now simplify_map_eq. }
  assert (L2 : heap w4 !! r2 = Some (ProductObj (mkProduct 101 "Widget" 29.99))).
  { cbn [heap w4]. unfold h4, h3, h2. now simplify_map_eq. }
  assert (L3 : heap w4 !! r3 = Some (ProductObj (mkProduct 102 "Gadget" 49.99))).
  { cbn [heap w4]. unfold h4, h3. now simplify_map_eq. }
  assert (L4 : heap w4 !! r4 = Some (ListObj [r2; r3])).
  { cbn [heap w4]. unfold h4. now simplify_map_eq. }
  assert (P : products_at w4 [r2; r3] demo_products) by (repeat constructor; assumption).
  pose proof (process_order_io_run w4 r1 r4 u1 [r2; r3] demo_products L1 L4 P) as R.
  pose proof (process_order_value u1 demo_products) as V1.
  pose proof (process_order_value alice demo_products) as V2.
  cbv zeta in V1, V2. cbn [user_id user_name u1] in V1. cbn [user_id user_name alice] in V2.
  rewrite V1 in R.
  eexists _, _. split; [|split; [exact V2|]].
  - unfold main, User_new, Product_new, alloc, now, print.
    rewrite !bind_run. cbn [heap clock console].
    fold h0 r1 u1 h1 r2 h2 r3 h3 r4 h4 w4. rewrite R. reflexivity.
  - cbn [console clock heap]. split; [reflexivity|]. split; [reflexivity|].
    intros r o Hr. fold h0 in Hr. unfold w4. cbn [heap]. unfold h4, h3, h2, h1.
    rewrite !lookup_insert_ne; [exact Hr | congruence ..].
Qed.

(** ** Amounts in order *)

Lemma nearest_hundredth_mono (v w h k : Z) :
  0 <= v <= w -> nearest_hundredth v h -> nearest_hundredth w k -> h <= k.
Proof.
  unfold nearest_hundredth. cbv zeta. intros Hvw.
  rewrite (Z.abs_eq v), (Z.abs_eq w) by lia.
  pose proof (pow2_pos 1074 ltac:(lia)) as P. set (q := 2 ^ 1074) in *.
  intros [Hh Eh] [Hk Ek].
  destruct (Z.le_gt_cases h k) as [|Hgt]; [assumption|]. exfalso.
  assert (L1 : 2 * (h * q - 100 * v) <= q) by lia.
  assert (L2 : 2 * (100 * w - k * q) <= q) by lia.
  assert (E : h = k + 1) by nia. subst h.
  assert (E1 : 2 * Z.abs ((k + 1) * q - 100 * v) = q) by nia.
  assert (E2 : 2 * Z.abs (k * q - 100 * w) = q) by nia.
  specialize (Eh E1). specialize (Ek E2).
  rewrite Z.even_add, Ek in Eh. discriminate.
Qed.

(** X17. Printing keeps the order of amounts that are not negative: of
    two finite amounts, the larger is never printed as fewer
    hundredths. *)
Theorem format_currency_monotone (x y : float) (v w : Z) :
  float_exact x = Some v -> float_exact y = Some w -> 0 <= v <= w ->
  exists (sx sy : string) (hx hy : Z),
    format_currency (PyFloat x) = Returns sx /\
    format_currency (PyFloat y) = Returns sy /\
    read_currency sx = Some (sign_bit x, hx) /\
    read_currency sy = Some (sign_bit y, hy) /\
    hx <= hy.
Proof.
  intros Hx Hy Hvw.
  destruct (format_currency_finite x v Hx) as (sx & hx & Fx & Rx & Nx).
  destruct (format_currency_finite y w Hy) as (sy & hy & Fy & Ry & Ny).
  exists sx, sy, hx, hy. repeat split; try assumption.
  now apply (nearest_hundredth_mono v w).
Qed.

Lemma format_currency_monotone_witness :
  exists (sx sy : string) (hx hy : Z),
    format_currency (PyFloat 0.125) = Returns sx /\
    format_currency (PyFloat 0.135) = Returns sy /\
    read_currency sx = Some (sign_bit 0.125, hx) /\
    read_currency sy = Some (sign_bit 0.135, hy) /\
    hx <= hy.
Proof.
  apply (format_currency_monotone 0.125 0.135 (2 ^ 1071) (4863887597560136 * 2 ^ 1019));
    [vm_compute; reflexivity | vm_compute; reflexivity | split; vm_compute; discriminate].
Defined.

(** The sum of two floats that are not negative is not below the first. *)
Lemma add_ge_l (x y : float) (vx : Z) :
  is_nonneg x = true -> is_nonneg y = true -> float_exact x = Some vx ->
  Prim2SF (x + y) = S754_infinity false \/
  exists v, float_exact (x + y) = Some v /\ vx <= v /\ is_nonneg (x + y) = true.
Proof.
  unfold is_nonneg, float_exact. rewrite add_spec.
  pose proof (Prim2SF_valid x) as Vx. pose proof (Prim2SF_valid y) as Vy.
  destruct (Prim2SF x) as [[]|[]| |[] mx ex]; try discriminate;
    destruct (Prim2SF y) as [[]|[]| |[] my ey]; try discriminate;
    intros _ _ [= <-]; cbn [SF64add SFadd sf_exact cond_Zopp];
    try (left; reflexivity); try (right; eexists; split; [reflexivity|]; split; [lia|reflexivity]).
  rewrite <- Pos2Z.inj_add. cbn [binary_normalize].
  pose proof (bounded_exponent _ _ Vx) as Bx. pose proof (bounded_exponent _ _ Vy) as By.
  set (ez := Z.min ex ey).
  assert (C : fexp prec emax (Zdigits2 (Z.pos mx) + ex) <= ex).
  { unfold bounded, canonical_mantissa in Vx. apply andb_true_iff in Vx as [C _].
    apply Z.eqb_eq in C. cbn [Zdigits2]. lia. }
  assert (L : Z.pos mx * 2 ^ (ex - -1074) <=
              Z.pos ((shl_align mx ex ez).1 + (shl_align my ey ez).1) * 2 ^ (ez - -1074)).
  { rewrite Pos2Z.inj_add, shl_align_value by (unfold ez; lia).
    replace (ex - -1074) with ((ex - ez) + (ez - -1074)) by lia.
    rewrite pow2_split by (unfold ez; lia).
    pose proof (pow2_pos (ex - ez) ltac:(unfold ez; lia)).
    pose proof (pow2_pos (ez - -1074) ltac:(unfold ez; lia)). nia. }
  destruct (round_lower (-1074) false _ ez (Z.pos mx) ex ltac:(lia) ltac:(lia)
              ltac:(unfold ez; lia) ltac:(lia) C L) as [R | (m' & e' & R & He & Le)].
  - left. exact R.
  - right. rewrite R. cbn [sf_exact cond_Zopp]. eexists. split; [reflexivity|].
    split; [|reflexivity].
    replace (ex + 1074) with (ex - -1074) by lia.
    now replace (e' + 1074) with (e' - -1074) by lia.
Qed.

Lemma nonneg_sign (x : float) : is_nonneg x = true -> sign_bit x = false.
Proof.
  unfold is_nonneg, sign_bit.
  now destruct (Prim2SF x) as [[]|[]| |[] m e].
Qed.

Lemma nonneg_exact (x : float) (v : Z) :
  is_nonneg x = true -> float_exact x = Some v -> 0 <= v.
Proof.
  unfold is_nonneg, float_exact. pose proof (Prim2SF_valid x) as V.
  destruct (Prim2SF x) as [[]|[]| |[] m e]; try discriminate; intros _ [= <-];
    cbn [sf_exact cond_Zopp]; [lia|].
  pose proof (finite_exact_pos m e (bounded_exponent _ _ V)). lia.
Qed.

Lemma add_inf_l (x y : float) :
  Prim2SF x = S754_infinity false -> is_nonneg y = true ->
  Prim2SF (x + y) = S754_infinity false.
Proof.
  unfold is_nonneg. intros Hx. rewrite add_spec, Hx.
  now destruct (Prim2SF y) as [[]|[]| |[] m e].
Qed.

(** X18. With no negative or NaN price, the total is never printed
    below the subtotal: it is "$inf", or both are amounts without a minus
    sign and the total has at least as many hundredths as the
    subtotal. *)
Theorem process_order_total_ge_subtotal (u : User) (ps : list Product) :
  (forall p, In p ps -> is_nonneg (price p) = true) ->
  exists (d : gmap string py_value) (s1 s3 : string),
    process_order u ps = Returns d /\
    d !! "subtotal" = Some (VStr s1) /\
    d !! "total" = Some (VStr s3) /\
    (s3 = "$inf" \/
     exists h1 h3 : Z,
       read_currency s1 = Some (false, h1) /\
       read_currency s3 = Some (false, h3) /\ h1 <= h3).
Proof.
  intros H. set (s := float_sum (map price ps)).
  assert (Hs : is_nonneg s = true).
  { apply float_sum_nonneg, List.Forall_forall. intros x (p & <- & Hp)%in_map_iff. auto. }
  pose proof (tax_nonneg s Hs) as Ht.
  eexists _, ("$" +:+ format_fixed2 s), ("$" +:+ format_fixed2 (s + s * 0.08)).
  split; [apply process_order_value|]. cbv zeta. fold s.
  split; [simplify_map_eq; reflexivity|]. split; [simplify_map_eq; reflexivity|].
  assert (Inf : Prim2SF (s + s * 0.08) = S754_infinity false ->
                "$" +:+ format_fixed2 (s + s * 0.08) = "$inf").
  { intros E. unfold format_fixed2. now rewrite E. }
  destruct (float_exact s) as [v|] eqn:Ev.
  - destruct (add_ge_l s (s * 0.08) v Hs Ht Ev) as [E | (w & Ew & Le & Hn)].
    + left. now apply Inf.
    + right.
      destruct (format_currency_finite s v Ev) as (t1 & h1 & F1 & R1 & N1).
      destruct (format_currency_finite _ w Ew) as (t3 & h3 & F3 & R3 & N3).
      rewrite format_currency_float in F1, F3. injection F1 as <-. injection F3 as <-.
      rewrite (nonneg_sign _ Hs) in R1. rewrite (nonneg_sign _ Hn) in R3.
      exists h1, h3. split; [exact R1|]. split; [exact R3|].
      apply (nearest_hundredth_mono v w); [|assumption|assumption].
      split; [now apply (nonneg_exact s) | exact Le].
  - left. apply Inf, add_inf_l; [|exact Ht].
    unfold float_exact in Ev. unfold is_nonneg in Hs.
    now destruct (Prim2SF s) as [[]|[]| |[] m e].
Qed.

Lemma process_order_total_ge_subtotal_witness :
  exists (d : gmap string py_value) (s1 s3 : string),
    process_order alice demo_products = Returns d /\
    d !! "subtotal" = Some (VStr s1) /\
    d !! "total" = Some (VStr s3) /\
    (s3 = "$inf" \/
     exists h1 h3 : Z,
       read_currency s1 = Some (false, h1) /\
       read_currency s3 = Some (false, h3) /\ h1 <= h3).
Proof.
  apply (process_order_total_ge_subtotal alice demo_products).
  intros p [<-|[<-|[]]]; reflexivity.
Defined.

(** ** Slugs of joined texts *)

Lemma string_map_app f (a b : string) :
  string_map f (a +:+ b) = string_map f a +:+ string_map f b.
Proof. induction a as [|c a IH]; cbn [String.append string_map]; congruence. Qed.

Lemma lstrip_snoc chars (s : string) c :
  in_chars chars c = false ->
  lstrip chars (s +:+ String c "") = lstrip chars s +:+ String c "".
Proof.
  intros Hc. induction s as [|d s IH]; cbn [String.append lstrip].
  - now rewrite Hc.
  - destruct (in_chars chars d); [exact IH | reflexivity].
Qed.

Lemma lstrip_app_keep chars (s r : string) :
  lstrip chars s <> "" -> lstrip chars (s +:+ r) = lstrip chars s +:+ r.
Proof.
  induction s as [|d s IH]; cbn [String.append lstrip]; [easy|].
  destruct (in_chars chars d); [exact IH | reflexivity].
Qed.

Lemma rstrip_app_keep chars (s r : string) :
  rstrip chars r <> "" -> rstrip chars (s +:+ r) = s +:+ rstrip chars r.
Proof.
  intros Hr. induction s as [|d s IH]; cbn [String.append rstrip]; [reflexivity|].
  rewrite IH. destruct (s +:+ rstrip chars r) eqn:E; [|reflexivity].
  destruct s; [|discriminate]. cbn [String.append] in E. contradiction.
Qed.

Lemma not_hyphen_after c :
  c <> " "%char -> c <> "-"%char ->
  in_chars "-" (hyphen_for_space (lower_char c)) = false.
Proof.
  intros Hs Hh. destruct (in_chars "-" _) eqn:E; [|reflexivity].
  apply in_chars_hyphen, hyphen_for_space_hyphen in E as [E|E].
  - now apply lower_char_space in E.
  - now apply lower_char_hyphen in E.
Qed.

(** X19. Slugs join with a hyphen: when the first text does not end,
    and the second does not start, with a space or a hyphen, the slug of
    the two texts with a space between them is the two slugs with a
    hyphen between them. *)
Theorem slugify_join (a b : string) (x y : ascii) :
  x <> " "%char -> x <> "-"%char -> y <> " "%char -> y <> "-"%char ->
  slugify ((a +:+ String x "") +:+ " " +:+ String y b) =
  slugify (a +:+ String x "") +:+ "-" +:+ slugify (String y b).
Proof.
  intros Hx1 Hx2 Hy1 Hy2.
  pose proof (not_hyphen_after x Hx1 Hx2) as Hx.
  pose proof (not_hyphen_after y Hy1 Hy2) as Hy.
  rewrite !slugify_strip, !string_map_map.
  set (f := fun c => hyphen_for_space (lower_char c)) in *.
  change (in_chars "-" (f x) = false) in Hx.
  change (in_chars "-" (f y) = false) in Hy.
  rewrite !string_map_app. cbn [string_map].
  change (f " "%char) with "-"%char.
  set (na := string_map f a). set (nb := string_map f b).
  unfold strip.
  assert (La : lstrip "-" (na +:+ String (f x) "") = lstrip "-" na +:+ String (f x) "")
    by now apply lstrip_snoc.
  assert (Lb : lstrip "-" (String (f y) nb) = String (f y) nb)
    by (cbn [lstrip]; now rewrite Hy).
  assert (Ra : rstrip "-" (String (f x) "") = String (f x) "")
    by (cbn [rstrip]; now rewrite Hx).
  assert (Rb : rstrip "-" (String (f y) nb) <> "").
  { destruct (rstrip_spec "-" (String (f y) nb)) as (_ & _ & _ & _ & K).
    destruct (K _ _ eq_refl Hy) as [r' ->]. discriminate. }
  rewrite lstrip_app_keep by (rewrite La; now destruct (lstrip "-" na)).
  rewrite La, Lb.
  rewrite (rstrip_app_keep "-" (lstrip "-" na)), Ra by (rewrite Ra; discriminate).
  rewrite !app_assoc_str.
  rewrite (rstrip_app_keep "-" (lstrip "-" na)).
  - f_equal. change (String (f x) "" +:+ "-" +:+ String (f y) nb)
      with ((String (f x) "-") +:+ String (f y) nb).
    now rewrite rstrip_app_keep.
  - change (String (f x) "" +:+ "-" +:+ String (f y) nb)
      with ((String (f x) "-") +:+ String (f y) nb).
    now rewrite rstrip_app_keep.
Qed.

Lemma slugify_join_witness :
  slugify (("Hell" +:+ String "o" "") +:+ " " +:+ String "W" "orld") =
  slugify ("Hell" +:+ String "o" "") +:+ "-" +:+ slugify (String "W" "orld").
Proof. apply (slugify_join "Hell" "orld" "o" "W"); discriminate. Defined.

(** ** Products that cost nothing *)

(** A sum of two floats is -0.0 only when both are. *)
Lemma add_not_neg_zero (x y : float) :
  is_neg_zero (x + y) = true -> is_neg_zero x = true /\ is_neg_zero y = true.
Proof.
  unfold is_neg_zero. rewrite add_spec.
  pose proof (Prim2SF_valid x) as Vx. pose proof (Prim2SF_valid y) as Vy.
  destruct (Prim2SF x) as [[]|[]| |sx mx ex]; destruct (Prim2SF y) as [[]|[]| |sy my ey];
    cbn [SF64add SFadd]; try discriminate; try (now split).
  pose proof (bounded_exponent _ _ Vx) as Bx. pose proof (bounded_exponent _ _ Vy) as By.
  set (ez := Z.min ex ey).
  assert (R : forall (s : bool) (m : positive),
             binary_round prec emax s m ez <> S754_zero true).
  { intros s m.
    assert (F : fexp prec emax (Zdigits2 1 + ez) <= ez)
      by (rewrite fexp_eq; cbn [Zdigits2 digits2_pos]; unfold ez; lia).
    assert (L : 1 * 2 ^ (ez - -1074) <= Z.pos m * 2 ^ (ez - -1074)).
    { pose proof (pow2_pos (ez - -1074) ltac:(unfold ez; lia)). nia. }
    destruct (round_lower (-1074) s m ez 1 ez ltac:(lia) ltac:(lia)
                ltac:(unfold ez; lia) ltac:(unfold ez; lia) F L)
      as [Q | (m' & e' & Q & _)]; rewrite Q; discriminate. }
  destruct (cond_Zopp sx _ + cond_Zopp sy _) as [|m|m]; cbn [binary_normalize].
  - discriminate.
  - intros H. exfalso. apply (R false m).
    destruct (binary_round prec emax false m ez) as [[]| | |]; try discriminate. reflexivity.
  - intros H. exfalso. apply (R true m).
    destruct (binary_round prec emax true m ez) as [[]| | |]; try discriminate. reflexivity.
Qed.

Lemma float_sum_not_neg_zero (xs : list float) : is_neg_zero (float_sum xs) = false.
Proof.
  unfold float_sum. assert (H0 : is_neg_zero 0 = false) by reflexivity.
  revert H0. generalize 0%float as acc.
  induction xs as [|x xs IH]; intros acc Ha; [exact Ha|].
  cbn [fold_left]. apply IH.
  destruct (is_neg_zero (acc + x)) eqn:E; [|reflexivity].
  apply add_not_neg_zero in E as [E _]. congruence.
Qed.

Lemma add_zero_r (s z : float) :
  is_neg_zero s = false -> float_exact z = Some 0 -> (s + z)%float = s.
Proof.
  unfold is_neg_zero, float_exact. intros Hs Hz. apply Prim2SF_inj. rewrite add_spec.
  pose proof (Prim2SF_valid z) as Vz.
  destruct (Prim2SF z) as [sz| | |sz mz ez]; try discriminate.
  - destruct (Prim2SF s) as [[]|[]| |]; try discriminate; now destruct sz.
  - exfalso. cbn [sf_exact] in Hz. injection Hz as Hz.
    pose proof (finite_exact_pos mz ez (bounded_exponent _ _ Vz)).
    destruct sz; cbn [cond_Zopp] in Hz; lia.
Qed.

(** X20. The total is never -0.0, even when every price is; and a
    product priced 0.0 or -0.0 added at the end of a list that is not
    empty leaves the total as it was, bit for bit. *)
Theorem calculate_total_free :
  (forall (ps : list Product) (x : float),
      calculate_total ps = Returns (PyFloat x) -> is_neg_zero x = false) /\
  (forall (ps : list Product) (p : Product),
      ps <> [] -> float_exact (price p) = Some 0 ->
      calculate_total (ps ++ [p]) = calculate_total ps).
Proof.
  split.
  - intros ps x. rewrite calculate_total_value. destruct ps; [discriminate|].
    intros [= <-]. apply float_sum_not_neg_zero.
  - intros ps p Hne Hp. rewrite !calculate_total_value.
    destruct ps as [|q ps]; [contradiction|]. cbn [app]. do 2 f_equal.
    change (q :: ps ++ [p]) with ((q :: ps) ++ [p]).
    unfold float_sum. rewrite map_app, fold_left_app. cbn [map fold_left].
    apply add_zero_r; [apply (float_sum_not_neg_zero (map price (q :: ps))) | exact Hp].
Qed.

(** ** Rounding: an upper bound on rounded values *)

Lemma round_nearest_even_le (m : Z) (l : location) :
  round_nearest_even m l <= m + 1.
Proof. unfold round_nearest_even. destruct l as [|[]]; try lia. destruct (Z.even m); lia. Qed.

Lemma round_nearest_even_exact (m : Z) : round_nearest_even m loc_Exact = m.
Proof. reflexivity. Qed.

Lemma loc_of_record_of_loc (m : Z) (l : location) :
  loc_of_shr_record (shr_record_of_loc m l) = l.
Proof. now destruct l as [|[]]. Qed.

(** Shifting out zeros only keeps a record exact. *)
Lemma iter_shr_1_exact (p : positive) :
  forall k : Z, 0 <= k ->
    SpecFloat.iter_pos shr_1 p {| shr_m := k * 2 ^ Z.pos p; shr_r := false; shr_s := false |} =
    {| shr_m := k; shr_r := false; shr_s := false |}.
Proof.
  assert (One : forall k, 0 <= k ->
            shr_1 {| shr_m := k * 2; shr_r := false; shr_s := false |} =
            {| shr_m := k; shr_r := false; shr_s := false |}).
  { intros [|q|q] Hk; try lia; [reflexivity|].
    replace (Z.pos q * 2) with (Z.pos q~0) by lia. reflexivity. }
  induction p as [p IH|p IH|]; intros k Hk; cbn [SpecFloat.iter_pos].
  - assert (E : 2 ^ Z.pos p~1 = 2 * (2 ^ Z.pos p * 2 ^ Z.pos p)).
    { rewrite <- Z.pow_add_r, <- Z.pow_succ_r by lia. f_equal. lia. }
    replace (k * 2 ^ Z.pos p~1) with (k * 2 ^ Z.pos p * 2 ^ Z.pos p * 2)
      by (rewrite E; ring).
    pose proof (pow2_pos (Z.pos p) ltac:(lia)).
    rewrite One, IH, IH by nia. reflexivity.
  - assert (E : 2 ^ Z.pos p~0 = 2 ^ Z.pos p * 2 ^ Z.pos p).
    { rewrite <- Z.pow_add_r by lia. f_equal. lia. }
    replace (k * 2 ^ Z.pos p~0) with (k * 2 ^ Z.pos p * 2 ^ Z.pos p)
      by (rewrite E; ring).
    pose proof (pow2_pos (Z.pos p) ltac:(lia)).
    rewrite IH, IH by nia. reflexivity.
  - change (2 ^ 1) with 2. now apply One.
Qed.

Lemma shr_fexp_exact (m e : Z) :
  0 <= m ->
  let n := Z.max 0 (fexp prec emax (Zdigits2 m + e) - e) in
  m mod 2 ^ n = 0 ->
  loc_of_shr_record (shr_fexp prec emax m e loc_Exact).1 = loc_Exact.
Proof.
  intros Hm n Hn. unfold shr_fexp, shr. subst n.
  destruct (fexp prec emax (Zdigits2 m + e) - e) as [|p|p] eqn:E; cbn [fst]; try reflexivity.
  replace (Z.max 0 (Z.pos p)) with (Z.pos p) in Hn by lia.
  pose proof (pow2_pos (Z.pos p) ltac:(lia)) as P.
  apply Z.div_exact in Hn; [|lia].
  cbn [shr_record_of_loc]. rewrite Hn, Z.mul_comm, iter_shr_1_exact; [reflexivity|].
  apply Z.div_pos; lia.
Qed.

Lemma fexp_mono (a b : Z) : a <= b -> fexp prec emax a <= fexp prec emax b.
Proof. rewrite !fexp_eq. lia. Qed.

Lemma fexp_ge (a : Z) : -1074 <= fexp prec emax a.
Proof. rewrite fexp_eq. lia. Qed.

Section RoundingUpperBound.

(** Exponents are counted from a base [B] below all of them, so that
    values are integers. *)
Variable B : Z.

(** The sum of the digits and the exponent orders the magnitudes. *)
Lemma magnitude_le (m e mu eu : Z) :
  0 < m -> 0 < mu -> B <= e -> B <= eu ->
  m * 2 ^ (e - B) <= mu * 2 ^ (eu - B) ->
  Zdigits2 m + e <= Zdigits2 mu + eu.
Proof.
  intros Hm Hmu He Heu Le.
  destruct (Zdigits2_bounds m Hm) as [[L _] D].
  destruct (Zdigits2_bounds mu Hmu) as [[_ U] Du].
  set (d := Zdigits2 m) in *. set (du := Zdigits2 mu) in *.
  pose proof (pow2_pos (e - B) ltac:(lia)). pose proof (pow2_pos (eu - B) ltac:(lia)).
  assert (Q : 2 ^ (d - 1 + (e - B)) < 2 ^ (du + (eu - B))).
  { rewrite !pow2_split by lia. nia. }
  apply Z.pow_lt_mono_r_iff in Q; lia.
Qed.

(** Rounding a value that is not above a representable value does not
    go above it.  The value lies in the unit interval that starts at
    [mx * 2^ex], at its start when [lx] is exact; [ex] is not above the
    exponent of the format for that magnitude. *)
Lemma round_aux_upper (s : bool) (mx ex mu eu : Z) (lx : location) :
  0 <= mx -> 0 < mu -> B <= ex -> B <= eu -> eu <= 971 ->
  fexp prec emax (Zdigits2 mu + eu) <= eu ->
  ex <= fexp prec emax (Zdigits2 mx + ex) ->
  mx * 2 ^ (ex - B) <= mu * 2 ^ (eu - B) ->
  (lx <> loc_Exact -> mx * 2 ^ (ex - B) < mu * 2 ^ (eu - B)) ->
  binary_round_aux prec emax s mx ex lx = S754_zero s \/
  exists m' e',
    binary_round_aux prec emax s mx ex lx = S754_finite s m' e' /\
    B <= e' /\ Z.pos m' * 2 ^ (e' - B) <= mu * 2 ^ (eu - B).
Proof.
  intros Hmx Hmu Bx Bu Eu Cu Cx Le Lt. unfold binary_round_aux.
  pose proof (shr_fexp_exact mx ex Hmx) as X1.
  destruct (shr_fexp_spec mx ex lx Hmx) as [M1 E1]. cbv zeta in M1, E1, X1.
  set (n1 := Z.max 0 (fexp prec emax (Zdigits2 mx + ex) - ex)) in *.
  assert (N1 : ex + n1 = fexp prec emax (Zdigits2 mx + ex)) by lia.
  pose proof (pow2_pos n1 ltac:(lia)) as Pn1.
  pose proof (pow2_pos (ex - B) ltac:(lia)) as Pex.
  pose proof (pow2_pos (eu - B) ltac:(lia)) as Peu.
  (* the exponent after the first shift is not above that of the bound *)
  assert (E1u : ex + n1 <= eu).
  { rewrite N1. destruct (Z.eq_dec mx 0) as [->|Hne].
    - pose proof (fexp_ge (Zdigits2 mu + eu)). change (Zdigits2 0) with 0 in *.
      rewrite (fexp_eq (0 + ex)) in *. lia.
    - apply Z.le_trans with (2 := Cu). apply fexp_mono.
      apply magnitude_le; try lia. }
  pose proof (pow2_pos (ex + n1 - B) ltac:(lia)) as Pe1.
  assert (Split : 2 ^ (ex + n1 - B) = 2 ^ n1 * 2 ^ (ex - B)).
  { rewrite <- pow2_split by lia. f_equal. lia. }
  assert (SplitU : 2 ^ (eu - B) = 2 ^ (eu - (ex + n1)) * 2 ^ (ex + n1 - B)).
  { rewrite <- pow2_split by lia. f_equal. lia. }
  pose proof (pow2_pos (eu - (ex + n1)) ltac:(lia)) as Pd.
  pose proof (Z.mul_div_le mx (2 ^ n1) Pn1) as Fl.
  (* the rounded mantissa, at the shifted exponent, is not above the bound *)
  assert (R : 0 <= round_nearest_even (shr_m (shr_fexp prec emax mx ex lx).1)
                     (loc_of_shr_record (shr_fexp prec emax mx ex lx).1) /\
              round_nearest_even (shr_m (shr_fexp prec emax mx ex lx).1)
                     (loc_of_shr_record (shr_fexp prec emax mx ex lx).1) * 2 ^ (ex + n1 - B)
              <= mu * 2 ^ (eu - B)).
  { assert (H0 : 0 <= mx / 2 ^ n1) by (apply Z.div_pos; lia).
    split.
    { apply Z.le_trans with (2 := round_nearest_even_ge _ _). now rewrite M1. }
    destruct (Z.eq_dec (mx mod 2 ^ n1) 0) as [Hz|Hnz].
    - destruct lx as [|c].
      + (* exact: no rounding *)
        rewrite (X1 Hz), round_nearest_even_exact, M1.
        rewrite Split. nia.
      + (* inexact location: the value is strictly below the bound *)
        specialize (Lt ltac:(discriminate)).
        apply Z.le_trans with ((mx / 2 ^ n1 + 1) * 2 ^ (ex + n1 - B)).
        { apply Z.mul_le_mono_nonneg_r; [lia|]. rewrite <- M1. apply round_nearest_even_le. }
        rewrite SplitU.
        assert (mx / 2 ^ n1 < mu * 2 ^ (eu - (ex + n1))); [|nia].
        apply Z.mul_lt_mono_pos_r with (2 ^ (ex + n1 - B)); [lia|].
        rewrite <- Z.mul_assoc, <- SplitU, Split. nia.
    - (* bits were shifted out: the truncation is strictly below *)
      apply Z.le_trans with ((mx / 2 ^ n1 + 1) * 2 ^ (ex + n1 - B)).
      { apply Z.mul_le_mono_nonneg_r; [lia|]. rewrite <- M1. apply round_nearest_even_le. }
      rewrite SplitU.
      assert (mx / 2 ^ n1 < mu * 2 ^ (eu - (ex + n1))); [|nia].
      apply Z.mul_lt_mono_pos_r with (2 ^ (ex + n1 - B)); [lia|].
      rewrite <- Z.mul_assoc, <- SplitU, Split.
      pose proof (Z.div_mod mx (2 ^ n1) ltac:(lia)) as DM.
      pose proof (Z.mod_pos_bound mx (2 ^ n1) Pn1). nia. }
  destruct (shr_fexp prec emax mx ex lx) as [mrs' e'].
  cbn [fst snd] in M1, E1, R. subst e'.
  set (mr := round_nearest_even (shr_m mrs') (loc_of_shr_record mrs')) in *.
  destruct R as [Hmr Rle].
  destruct (shr_fexp_spec mr (ex + n1) loc_Exact Hmr) as [M2 E2]. cbv zeta in M2, E2.
  set (n2 := Z.max 0 (fexp prec emax (Zdigits2 mr + (ex + n1)) - (ex + n1))) in *.
  destruct (shr_fexp prec emax mr (ex + n1) loc_Exact) as [mrs'' e''].
  cbn [fst snd] in M2, E2. subst e''.
  pose proof (pow2_pos n2 ltac:(lia)) as Pn2.
  destruct (shr_m mrs'') as [|m|m] eqn:Em.
  - now left.
  - right.
    assert (Hpos : 0 < mr).
    { destruct (Z.eq_dec mr 0) as [Z0|]; [|lia]. rewrite Z0, Z.div_0_l in M2; lia. }
    assert (E2u : ex + n1 + n2 <= eu).
    { assert (fexp prec emax (Zdigits2 mr + (ex + n1)) <= eu); [|lia].
      apply Z.le_trans with (2 := Cu). apply fexp_mono.
      apply magnitude_le; try lia. }
    destruct (Z.leb_spec (ex + n1 + n2) (emax - prec)) as [_|G];
      [|change (emax - prec) with 971 in G; lia].
    exists m, (ex + n1 + n2). split; [reflexivity|]. split; [lia|].
    apply Z.le_trans with (2 := Rle). rewrite M2.
    replace (ex + n1 + n2 - B) with (n2 + (ex + n1 - B)) by lia.
    rewrite pow2_split by lia.
    pose proof (Z.mul_div_le mr (2 ^ n2) Pn2). nia.
  - exfalso. assert (0 <= Z.neg m); [|lia]. rewrite M2. apply Z.div_pos; lia.
Qed.

End RoundingUpperBound.

Lemma round_upper (B : Z) (s : bool) (mx : positive) (ex mu eu : Z) :
  0 < mu -> B <= -1074 -> B <= ex -> B <= eu -> eu <= 971 ->
  fexp prec emax (Zdigits2 mu + eu) <= eu ->
  Z.pos mx * 2 ^ (ex - B) <= mu * 2 ^ (eu - B) ->
  binary_round prec emax s mx ex = S754_zero s \/
  exists m' e',
    binary_round prec emax s mx ex = S754_finite s m' e' /\
    B <= e' /\ Z.pos m' * 2 ^ (e' - B) <= mu * 2 ^ (eu - B).
Proof.
  intros Hmu B0 Bx Bu Eu Cu Le. unfold binary_round, shl_align.
  set (f := fexp prec emax (Z.pos (digits2_pos mx) + ex)).
  assert (Hf : -1074 <= f) by apply fexp_ge.
  destruct (f - ex) as [|d|d] eqn:E.
  - apply (round_aux_upper B); try (assumption || lia); [|intros Q; now elim Q].
    cbn [Zdigits2]. fold f. lia.
  - apply (round_aux_upper B); try (assumption || lia); [|intros Q; now elim Q].
    cbn [Zdigits2]. fold f. lia.
  - apply (round_aux_upper B); try (assumption || lia); [| |intros Q; now elim Q].
    + cbn [Zdigits2]. rewrite digits2_pos_shift.
      replace (Z.pos (digits2_pos mx) + Z.pos d + f) with (Z.pos (digits2_pos mx) + ex) by lia.
      fold f. lia.
    + rewrite iter_xO.
      replace (Z.pos mx * 2 ^ Z.pos d * 2 ^ (f - B)) with (Z.pos mx * 2 ^ (ex - B)); [exact Le|].
      rewrite <- Z.mul_assoc, <- pow2_split by lia. do 2 f_equal. lia.
Qed.

Lemma bounded_canonical (m : positive) (e : Z) :
  bounded prec emax m e = true ->
  fexp prec emax (Zdigits2 (Z.pos m) + e) = e /\ -1074 <= e <= 971.
Proof.
  intros V. pose proof (bounded_exponent m e V).
  unfold bounded, canonical_mantissa in V. apply andb_true_iff in V as [C Le].
  apply Z.eqb_eq in C. apply Z.leb_le in Le. change (emax - prec) with 971 in Le.
  cbn [Zdigits2]. lia.
Qed.

(** ** Products with a factor of at most one *)

Lemma mul_exponent_ok (mx mf : positive) (ex ef : Z) :
  bounded prec emax mx ex = true -> bounded prec emax mf ef = true ->
  ex + ef <= fexp prec emax (Zdigits2 (Z.pos (mx * mf)) + (ex + ef)).
Proof.
  intros Vx Vf.
  destruct (bounded_canonical _ _ Vx) as [Cx _]. destruct (bounded_canonical _ _ Vf) as [Cf _].
  destruct (Zdigits2_bounds (Z.pos mx) ltac:(lia)) as [[Lx _] Dx].
  destruct (Zdigits2_bounds (Z.pos mf) ltac:(lia)) as [[Lf _] Df].
  destruct (Zdigits2_bounds (Z.pos (mx * mf)) ltac:(lia)) as [[_ U] D].
  set (dx := Zdigits2 (Z.pos mx)) in *. set (df := Zdigits2 (Z.pos mf)) in *.
  set (d := Zdigits2 (Z.pos (mx * mf))) in *.
  assert (Hd : dx + df - 1 <= d).
  { assert (Q : 2 ^ ((dx - 1) + (df - 1)) < 2 ^ d).
    { rewrite pow2_split by lia. rewrite Pos2Z.inj_mul in U. nia. }
    apply Z.pow_lt_mono_r_iff in Q; lia. }
  rewrite fexp_eq in *. lia.
Qed.

(** A float that is not negative times a factor between 0 and 1 is not
    negative and not above the float. *)
Lemma mul_le (x f : float) (vx vf : Z) :
  is_nonneg x = true -> is_nonneg f = true ->
  float_exact x = Some vx -> float_exact f = Some vf -> vf <= 2 ^ 1074 ->
  exists v, float_exact (x * f) = Some v /\ 0 <= v <= vx /\ is_nonneg (x * f) = true.
Proof.
  unfold is_nonneg, float_exact.
  pose proof (Prim2SF_valid (x * f)) as Vr. rewrite mul_spec in *.
  pose proof (Prim2SF_valid x) as Vx. pose proof (Prim2SF_valid f) as Vf.
  destruct (Prim2SF x) as [[]|[]| |[] mx ex]; try discriminate;
    destruct (Prim2SF f) as [[]|[]| |[] mf ef]; try discriminate;
    cbn [sf_exact cond_Zopp]; intros _ _ Ex Ef Hf; try discriminate;
    injection Ex as <-; injection Ef as <-; cbn [SF64mul SFmul xorb sf_exact cond_Zopp] in *;
    try (exists 0; split; [reflexivity|]; split; [|reflexivity]).
  - lia.
  - pose proof (finite_exact_pos mf ef (bounded_exponent _ _ Vf)). lia.
  - pose proof (finite_exact_pos mx ex (bounded_exponent _ _ Vx)). lia.
  - destruct (bounded_canonical _ _ Vx) as [Cx Bx].
    destruct (bounded_canonical _ _ Vf) as [Cf Bf].
    pose proof (pow2_pos (ex + 1074) ltac:(lia)) as Px.
    pose proof (pow2_pos (ef + 1074) ltac:(lia)) as Pf.
    pose proof (pow2_pos 1074 ltac:(lia)) as P.
    assert (L : Z.pos (mx * mf) * 2 ^ (ex + ef - -2148) <= Z.pos mx * 2 ^ (ex - -2148)).
    { replace (ex + ef - -2148) with ((ex + 1074) + (ef + 1074)) by lia.
      replace (ex - -2148) with ((ex + 1074) + 1074) by lia.
      rewrite (pow2_split (ex + 1074) (ef + 1074)), (pow2_split (ex + 1074) 1074),
        Pos2Z.inj_mul by lia.
      set (a := 2 ^ (ex + 1074)) in *. set (b := 2 ^ (ef + 1074)) in *.
      set (q := 2 ^ 1074) in *.
      assert (H1 : Z.pos mx * a * (Z.pos mf * b) <= Z.pos mx * a * q)
        by (apply Z.mul_le_mono_nonneg_l; [nia | exact Hf]).
      lia. }
    destruct (round_aux_upper (-2148) false (Z.pos (mx * mf)) (ex + ef) (Z.pos mx) ex loc_Exact
                ltac:(lia) ltac:(lia) ltac:(lia) ltac:(lia) ltac:(lia) ltac:(lia)
                (mul_exponent_ok _ _ _ _ Vx Vf) L ltac:(intros Q; now elim Q))
      as [R | (m' & e' & R & _ & Le)]; rewrite R in *; cbn [sf_exact cond_Zopp].
    + exists 0. split; [reflexivity|]. split; [lia | reflexivity].
    + pose proof (bounded_exponent _ _ Vr) as Be.
      eexists. split; [reflexivity|]. split; [|reflexivity].
      split; [pose proof (finite_exact_pos m' e' Be); lia|].
      replace (e' - -2148) with ((e' + 1074) + 1074) in Le by lia.
      replace (ex - -2148) with ((ex + 1074) + 1074) in Le by lia.
      rewrite (pow2_split (e' + 1074) 1074), (pow2_split (ex + 1074) 1074) in Le by lia.
      set (q := 2 ^ 1074) in *. nia.
Qed.

(** ** Quotients and differences at most one *)

(** What the division of two mantissas hands to rounding: a quotient
    that is not negative, at an exponent that is not above the one of
    the format, below the exact quotient unless the location is exact. *)
Lemma div_core_spec (m1 m2 : positive) (e1 e2 : Z) :
  exists (q e' : Z) (l : location),
    SFdiv_core_binary prec emax (Z.pos m1) e1 (Z.pos m2) e2 = (q, e', l) /\
    0 <= q /\ e' <= e1 - e2 /\ Z.min (-1074) (e1 - e2) <= e' /\
    e' <= fexp prec emax (Zdigits2 q + e') /\
    q * Z.pos m2 <= Z.pos m1 * 2 ^ (e1 - e2 - e') /\
    (l <> loc_Exact -> q * Z.pos m2 < Z.pos m1 * 2 ^ (e1 - e2 - e')).
Proof.
  unfold SFdiv_core_binary. cbv zeta.
  set (D := Zdigits2 (Z.pos m1) + e1 - (Zdigits2 (Z.pos m2) + e2)).
  set (e' := Z.min (fexp prec emax D) (e1 - e2)).
  set (s := e1 - e2 - e').
  assert (Hs : 0 <= s) by (unfold s, e'; lia).
  assert (Hm : match s with
               | 0 => Z.pos m1
               | Z.pos _ => Z.shiftl (Z.pos m1) s
               | Z.neg _ => 0
               end = Z.pos m1 * 2 ^ s).
  { destruct s as [|p|p] eqn:Es; try lia. now rewrite Z.shiftl_mul_pow2. }
  rewrite Hm. set (m' := Z.pos m1 * 2 ^ s).
  pose proof (pow2_pos s Hs) as Ps.
  pose proof (Z_div_mod m' (Z.pos m2) ltac:(lia)) as DM.
  destruct (Z.div_eucl m' (Z.pos m2)) as [q r]. destruct DM as [DM Hr].
  assert (Hq : 0 <= q) by nia.
  exists q, e', (new_location (Z.pos m2) r). split; [reflexivity|].
  split; [exact Hq|]. split; [unfold e'; lia|].
  split; [unfold e'; pose proof (fexp_ge D); lia|].
  split; [|split].
  - (* the exponent is not above the one of the format *)
    destruct (Zdigits2_bounds (Z.pos m1) ltac:(lia)) as [[L1 _] D1].
    destruct (Zdigits2_bounds (Z.pos m2) ltac:(lia)) as [[_ U2] D2].
    set (d1 := Zdigits2 (Z.pos m1)) in *. set (d2 := Zdigits2 (Z.pos m2)) in *.
    assert (Lm : 2 ^ (d1 - 1 + s) <= m').
    { rewrite pow2_split by lia. unfold m'. nia. }
    destruct (Z.eq_dec q 0) as [->|Hne].
    + change (Zdigits2 0) with 0.
      assert (Q : 2 ^ (d1 - 1 + s) < 2 ^ d2) by lia.
      apply Z.pow_lt_mono_r_iff in Q; [|lia|lia].
      assert (H1 : D <= e') by (unfold D, s in *; lia).
      assert (H2 : e' <= fexp prec emax D) by (unfold e'; lia).
      rewrite fexp_eq in H2. rewrite (fexp_eq (0 + e')). lia.
    + destruct (Zdigits2_bounds q ltac:(lia)) as [[_ Uq] Dq].
      set (dq := Zdigits2 q) in *.
      assert (Q : 2 ^ (d1 - 1 + s) < 2 ^ (dq + d2)).
      { rewrite (pow2_split dq d2) by lia.
        pose proof (pow2_pos dq ltac:(lia)). pose proof (pow2_pos d2 ltac:(lia)). nia. }
      apply Z.pow_lt_mono_r_iff in Q; [|lia|lia].
      apply Z.le_trans with (fexp prec emax D); [unfold e'; lia|].
      apply fexp_mono. unfold D, s in *. lia.
  - fold s. fold m'. nia.
  - fold s. fold m'. intros Hl.
    assert (r <> 0); [|nia].
    intros ->. apply Hl. unfold new_location, new_location_even, new_location_odd.
    now destruct (Z.even (Z.pos m2)).
Qed.

Lemma Prim2SF_one : Prim2SF 1 = S754_finite false 4503599627370496 (-52).
Proof. reflexivity. Qed.

Lemma Prim2SF_hundred : Prim2SF 100 = S754_finite false 7036874417766400 (-46).
Proof. reflexivity. Qed.

Lemma one_canonical :
  fexp prec emax (Zdigits2 4503599627370496 + -52) <= -52.
Proof. apply Z.leb_le. reflexivity. Qed.

Lemma one_exact : 4503599627370496 * 2 ^ (-52 - -1074) = 2 ^ 1074.
Proof. reflexivity. Qed.

(** One hundredth of a float between 0 and 100 is between 0 and 1. *)
Lemma div_by_100 (x : float) (v : Z) :
  is_nonneg x = true -> float_exact x = Some v -> v <= 100 * 2 ^ 1074 ->
  exists w, float_exact (x / 100) = Some w /\ w <= 2 ^ 1074 /\
            is_nonneg (x / 100) = true.
Proof.
  unfold is_nonneg, float_exact.
  pose proof (Prim2SF_valid (x / 100)) as Vr. rewrite div_spec, Prim2SF_hundred in *.
  pose proof (Prim2SF_valid x) as Vx.
  pose proof (pow2_pos 1074 ltac:(lia)) as P.
  destruct (Prim2SF x) as [[]|[]| |[] m1 e1]; try discriminate; cbn [sf_exact cond_Zopp];
    intros _ Ex Hv; try discriminate; injection Ex as <-;
    cbn [SF64div SFdiv xorb sf_exact] in *.
  - exists 0. split; [reflexivity|]. split; [lia | reflexivity].
  - destruct (bounded_canonical _ _ Vx) as [_ B1].
    destruct (div_core_spec m1 7036874417766400 e1 (-46))
      as (q & e' & l & E & Hq & He & He' & C & Le & Lt).
    rewrite E in *.
    assert (Be : -1074 <= e') by lia.
    pose proof (pow2_pos (e' + 1074) ltac:(lia)) as Pe.
    pose proof (pow2_pos (e1 + 1074) ltac:(lia)) as P1.
    pose proof (pow2_pos (e1 - -46 - e') ltac:(lia)) as Ps.
    (* the bound 100 on the dividend, scaled to the exponent of the quotient *)
    assert (Hb : Z.pos m1 * 2 ^ (e1 - -46 - e') * 2 ^ (e' + 1074)
                 <= 7036874417766400 * 2 ^ 1074).
    { rewrite <- Z.mul_assoc, <- pow2_split by lia.
      replace (e1 - -46 - e' + (e' + 1074)) with ((e1 + 1074) + 46) by lia.
      rewrite pow2_split by lia.
      change (100 * 2 ^ 1074) with (7036874417766400 * 2 ^ 1028) in Hv.
      change (2 ^ 1074) with (2 ^ 1028 * 2 ^ 46).
      set (a := 2 ^ (e1 + 1074)) in *. set (b := 2 ^ 1028) in *. set (c := 2 ^ 46) in *.
      assert (0 < c) by reflexivity. nia. }
    assert (La : q * 2 ^ (e' - -1074) <= 4503599627370496 * 2 ^ (-52 - -1074)).
    { rewrite one_exact. replace (e' - -1074) with (e' + 1074) by lia.
      set (a := 2 ^ (e' + 1074)) in *. set (b := 2 ^ (e1 - -46 - e')) in *.
      set (t := 2 ^ 1074) in *. nia. }
    assert (Ls : l <> loc_Exact ->
                 q * 2 ^ (e' - -1074) < 4503599627370496 * 2 ^ (-52 - -1074)).
    { intros Hl. specialize (Lt Hl).
      rewrite one_exact. replace (e' - -1074) with (e' + 1074) by lia.
      set (a := 2 ^ (e' + 1074)) in *. set (b := 2 ^ (e1 - -46 - e')) in *.
      set (t := 2 ^ 1074) in *. nia. }
    destruct (round_aux_upper (-1074) false q e' 4503599627370496 (-52) l
                Hq ltac:(lia) Be ltac:(lia) ltac:(lia) one_canonical C La Ls)
      as [R | (m' & e'' & R & Be'' & Lr)]; rewrite R in *; cbn [sf_exact cond_Zopp].
    + exists 0. split; [reflexivity|]. split; [lia | reflexivity].
    + eexists. split; [reflexivity|]. split; [|reflexivity].
      rewrite one_exact in Lr. now replace (e'' - -1074) with (e'' + 1074) in Lr by lia.
Qed.

(** One minus a float between 0 and 1 is between 0 and 1. *)
Lemma sub_from_one (x : float) (v : Z) :
  is_nonneg x = true -> float_exact x = Some v -> v <= 2 ^ 1074 ->
  exists w, float_exact (1 - x) = Some w /\ w <= 2 ^ 1074 /\
            is_nonneg (1 - x) = true.
Proof.
  unfold is_nonneg, float_exact. rewrite sub_spec, Prim2SF_one.
  pose proof (Prim2SF_valid x) as Vx.
  pose proof (pow2_pos 1074 ltac:(lia)) as P.
  destruct (Prim2SF x) as [[]|[]| |[] m e]; try discriminate; cbn [sf_exact cond_Zopp];
    intros _ Ex Hv; try discriminate; injection Ex as <-;
    cbn [SF64sub SFsub cond_Zopp sf_exact].
  - eexists. split; [reflexivity|]. split; [|reflexivity].
    change (-52 + 1074) with (-52 - -1074). rewrite one_exact. lia.
  - destruct (bounded_canonical _ _ Vx) as [_ Be].
    set (ez := Z.min (-52) e).
    pose proof (shl_align_value 4503599627370496 (-52) ez ltac:(unfold ez; lia)) as Ha.
    pose proof (shl_align_value m e ez ltac:(unfold ez; lia)) as Hb.
    set (a := (shl_align 4503599627370496 (-52) ez).1) in *.
    set (b := (shl_align m e ez).1) in *.
    pose proof (pow2_pos (ez + 1074) ltac:(unfold ez; lia)) as Pz.
    assert (Ea : Z.pos a * 2 ^ (ez + 1074) = 2 ^ 1074).
    { rewrite Ha, <- Z.mul_assoc, <- pow2_split by (unfold ez; lia).
      replace (-52 - ez + (ez + 1074)) with (-52 - -1074) by lia. apply one_exact. }
    assert (Eb : Z.pos b * 2 ^ (ez + 1074) = Z.pos m * 2 ^ (e + 1074)).
    { rewrite Hb, <- Z.mul_assoc, <- pow2_split by (unfold ez; lia).
      do 2 f_equal. lia. }
    assert (Hab : Z.pos b <= Z.pos a) by nia.
    destruct (Z.pos a - Z.pos b) as [|d|d] eqn:Ed; try lia; cbn [binary_normalize sf_exact].
    + exists 0. split; [reflexivity|]. split; [lia | reflexivity].
    + assert (L : Z.pos d * 2 ^ (ez - -1074) <= 4503599627370496 * 2 ^ (-52 - -1074)).
      { rewrite one_exact. replace (ez - -1074) with (ez + 1074) by lia. nia. }
      destruct (round_upper (-1074) false d ez 4503599627370496 (-52)
                  ltac:(lia) ltac:(lia) ltac:(unfold ez; lia) ltac:(lia) ltac:(lia)
                  one_canonical L)
        as [R | (m' & e' & R & Be' & Lr)]; rewrite R; cbn [sf_exact cond_Zopp].
      * exists 0. split; [reflexivity|]. split; [lia | reflexivity].
      * eexists. split; [reflexivity|]. split; [|reflexivity].
        rewrite one_exact in Lr. now replace (e' - -1074) with (e' + 1074) in Lr by lia.
Qed.

(** X21. A discount between 0 and 100 percent neither raises a price
    nor makes it negative: for a finite price that is not negative and a
    percentage from 0 to 100, the discounted price is finite, at least 0
    and at most the price. *)
Theorem discounted_price_within (p : Product) (percent : float) (vp vc : Z) :
  is_nonneg (price p) = true -> float_exact (price p) = Some vp ->
  is_nonneg percent = true -> float_exact percent = Some vc ->
  vc <= 100 * 2 ^ 1074 ->
  exists v : Z,
    float_exact (discounted_price p percent) = Some v /\ 0 <= v <= vp /\
    is_nonneg (discounted_price p percent) = true.
Proof.
  intros Hp Ep Hc Ec Le. unfold discounted_price.
  destruct (div_by_100 percent vc Hc Ec Le) as (q & Eq & Lq & Hq).
  destruct (sub_from_one _ q Hq Eq Lq) as (f & Ef & Lf & Hf).
  exact (mul_le _ _ vp f Hp Hf Ep Ef Lf).
Qed.

Lemma discounted_price_within_witness :
  exists v : Z,
    float_exact (discounted_price (mkProduct 101 "Widget" 29.99) 15) = Some v /\
    0 <= v <= 8441434551552573 * 2 ^ 1026 /\
    is_nonneg (discounted_price (mkProduct 101 "Widget" 29.99) 15) = true.
Proof.
  apply (discounted_price_within (mkProduct 101 "Widget" 29.99) 15
           (8441434551552573 * 2 ^ 1026) (15 * 2 ^ 1074));
    try (vm_compute; reflexivity).
  apply Z.leb_le. vm_compute. reflexivity.
Defined.

(** ** Rounding gives floats of the format *)

Lemma Zdigits2_unique (x k : Z) :
  0 < x -> 2 ^ (k - 1) <= x < 2 ^ k -> Zdigits2 x = k.
Proof.
  intros Hx [L U]. destruct (Zdigits2_bounds x Hx) as [[L' U'] D].
  set (d := Zdigits2 x) in *.
  assert (Hk : 0 < k).
  { destruct (Z.lt_ge_cases 0 k) as [|Hk]; [assumption|]. exfalso.
    destruct (Z.eq_dec k 0) as [->|]; [change (2 ^ 0) with 1 in U; lia|].
    rewrite Z.pow_neg_r in U by lia. lia. }
  assert (Q1 : 2 ^ (k - 1) < 2 ^ d) by lia.
  assert (Q2 : 2 ^ (d - 1) < 2 ^ k) by lia.
  apply Z.pow_lt_mono_r_iff in Q1; [|lia|lia].
  apply Z.pow_lt_mono_r_iff in Q2; [|lia|lia]. lia.
Qed.

Lemma Zdigits2_div (m n : Z) :
  0 <= n -> 0 < m / 2 ^ n -> Zdigits2 (m / 2 ^ n) = Zdigits2 m - n.
Proof.
  intros Hn Hq. pose proof (pow2_pos n Hn) as P.
  assert (Hm : 0 < m).
  { destruct (Z.lt_ge_cases 0 m) as [|Hm]; [assumption|]. exfalso.
    assert (m / 2 ^ n <= 0); [|lia]. apply Z.div_le_upper_bound; lia. }
  destruct (Zdigits2_bounds m Hm) as [[L U] D]. set (d := Zdigits2 m) in *.
  assert (Hge : 2 ^ n <= m).
  { pose proof (Z.mul_div_le m (2 ^ n) P). nia. }
  assert (Q : 2 ^ n < 2 ^ d) by lia.
  apply Z.pow_lt_mono_r_iff in Q; [|lia|lia].
  apply Zdigits2_unique; [exact Hq|]. split.
  - apply Z.div_le_lower_bound; [exact P|].
    rewrite <- pow2_split by lia. now replace (n + (d - n - 1)) with (d - 1) by lia.
  - apply Z.div_lt_upper_bound; [exact P|].
    rewrite <- pow2_split by lia. now replace (n + (d - n)) with d by lia.
Qed.

(** Rounding returns a value of the format: zero, an infinity, or a
    mantissa with the exponent the format gives it. *)
Lemma round_aux_valid (s : bool) (mx ex : Z) (lx : location) :
  0 <= mx -> ex <= fexp prec emax (Zdigits2 mx + ex) ->
  valid_binary (binary_round_aux prec emax s mx ex lx) = true.
Proof.
  intros Hmx Cx. unfold binary_round_aux.
  destruct (shr_fexp_spec mx ex lx Hmx) as [M1 E1]. cbv zeta in M1, E1.
  set (n1 := Z.max 0 (fexp prec emax (Zdigits2 mx + ex) - ex)) in *.
  assert (N1 : ex + n1 = fexp prec emax (Zdigits2 mx + ex)) by lia.
  pose proof (pow2_pos n1 ltac:(lia)) as Pn1.
  destruct (shr_fexp prec emax mx ex lx) as [mrs' e'].
  cbn [fst snd] in M1, E1. subst e'.
  set (mr := round_nearest_even (shr_m mrs') (loc_of_shr_record mrs')).
  assert (Hm1 : 0 <= shr_m mrs') by (rewrite M1; apply Z.div_pos; lia).
  assert (Hmr : shr_m mrs' <= mr) by apply round_nearest_even_ge.
  destruct (shr_fexp_spec mr (ex + n1) loc_Exact ltac:(lia)) as [M2 E2].
  cbv zeta in M2, E2.
  set (F := fexp prec emax (Zdigits2 mr + (ex + n1))) in *.
  set (n2 := Z.max 0 (F - (ex + n1))) in *.
  pose proof (pow2_pos n2 ltac:(lia)) as Pn2.
  destruct (shr_fexp prec emax mr (ex + n1) loc_Exact) as [mrs'' e''].
  cbn [fst snd] in M2, E2. subst e''.
  destruct (shr_m mrs'') as [|m|m] eqn:Em; try reflexivity.
  destruct (Z.leb_spec (ex + n1 + n2) (emax - prec)) as [Le|_]; [|reflexivity].
  cbn [valid_binary]. unfold bounded, canonical_mantissa.
  apply andb_true_iff. split; [|now apply Z.leb_le].
  apply Z.eqb_eq.
  assert (Hpos : 0 < mr).
  { destruct (Z.eq_dec mr 0) as [Z0|]; [|lia]. rewrite Z0, Z.div_0_l in M2; lia. }
  assert (Dm : Z.pos (digits2_pos m) = Zdigits2 mr - n2).
  { change (Z.pos (digits2_pos m)) with (Zdigits2 (Z.pos m)).
    rewrite M2. apply Zdigits2_div; lia. }
  rewrite Dm.
  replace (Zdigits2 mr - n2 + (ex + n1 + n2)) with (Zdigits2 mr + (ex + n1)) by lia.
  fold F.
  (* the exponent of the format is not below the exponent reached *)
  assert (HF : ex + n1 <= F); [|lia].
  rewrite N1. destruct (Z.eq_dec (shr_m mrs') 0) as [Z1|Hne].
  - (* everything was shifted out: the exponent is the least one *)
    assert (Hd : Zdigits2 mx <= n1).
    { destruct (Z.eq_dec mx 0) as [->|]; [change (Zdigits2 0) with 0; lia|].
      destruct (Zdigits2_bounds mx ltac:(lia)) as [[L _] D].
      assert (mx < 2 ^ n1).
      { rewrite Z1 in M1. symmetry in M1.
        apply Z.div_small_iff in M1; lia. }
      assert (Q : 2 ^ (Zdigits2 mx - 1) < 2 ^ n1) by lia.
      apply Z.pow_lt_mono_r_iff in Q; lia. }
    pose proof (fexp_ge (Zdigits2 mr + (ex + n1))). fold F in H.
    rewrite fexp_eq in *. lia.
  - unfold F. apply fexp_mono.
    assert (Hq : 0 < mx / 2 ^ n1) by lia.
    pose proof (Zdigits2_div mx n1 ltac:(lia) Hq) as Dq. rewrite <- M1 in Dq.
    destruct (Zdigits2_bounds (shr_m mrs') ltac:(lia)) as [[L1 _] D1].
    destruct (Zdigits2_bounds mr Hpos) as [[_ U2] D2].
    assert (Q : 2 ^ (Zdigits2 (shr_m mrs') - 1) < 2 ^ Zdigits2 mr) by lia.
    apply Z.pow_lt_mono_r_iff in Q; lia.
Qed.

Lemma round_valid (s : bool) (m : positive) (e : Z) :
  valid_binary (binary_round prec emax s m e) = true.
Proof.
  unfold binary_round, shl_align.
  set (f := fexp prec emax (Z.pos (digits2_pos m) + e)).
  destruct (f - e) as [|d|d] eqn:E; apply round_aux_valid; try lia.
  - cbn [Zdigits2]. fold f. lia.
  - cbn [Zdigits2]. fold f. lia.
  - cbn [Zdigits2]. rewrite digits2_pos_shift.
    replace (Z.pos (digits2_pos m) + Z.pos d + f) with (Z.pos (digits2_pos m) + e) by lia.
    fold f. lia.
Qed.

(** ** Ints within the range of floats *)

Lemma max_float_canonical :
  fexp prec emax (Zdigits2 9007199254740991 + 971) <= 971.
Proof. apply Z.leb_le. reflexivity. Qed.

(** An int whose magnitude is at most the largest float converts to a
    finite float of its sign. *)
Lemma float_of_int_finite (z : Z) :
  Z.abs z <= 9007199254740991 * 2 ^ 971 ->
  exists (x : float) (v : Z),
    float_of_int z = Returns x /\ float_exact x = Some v /\
    (z <> 0 -> sign_bit x = (z <? 0)).
Proof.
  intros Hz. unfold float_of_int, binary_normalize.
  assert (P : forall (s : bool) (m : positive),
             Z.pos m <= 9007199254740991 * 2 ^ 971 ->
             exists sf v, binary_round prec emax s m 0 = sf /\
                          valid_binary sf = true /\ sf_exact sf = Some v /\
                          (sf = S754_zero s \/ exists m' e', sf = S754_finite s m' e')).
  { intros s m Hm.
    assert (L : Z.pos m * 2 ^ (0 - -1074) <= 9007199254740991 * 2 ^ (971 - -1074)).
    { change (2 ^ (971 - -1074)) with (2 ^ 971 * 2 ^ 1074). change (0 - -1074) with 1074.
      pose proof (pow2_pos 1074 ltac:(lia)). set (q := 2 ^ 1074) in *.
      set (t := 2 ^ 971) in *. nia. }
    pose proof (round_valid s m 0) as V.
    destruct (round_upper (-1074) s m 0 9007199254740991 971 ltac:(lia) ltac:(lia)
                ltac:(lia) ltac:(lia) ltac:(lia) max_float_canonical L)
      as [R | (m' & e' & R & _)]; rewrite R in *.
    - exists (S754_zero s), 0. repeat split; auto.
    - eexists _, _. split; [reflexivity|]. split; [exact V|]. split; [reflexivity|].
      right. eauto. }
  destruct z as [|m|m].
  - exists 0%float, 0. repeat split.
  - destruct (P false m Hz) as (sf & v & R & V & Ev & Sh). rewrite R.
    exists (SF2Prim sf), v.
    split; [destruct Sh as [->|(m' & e' & ->)]; reflexivity|].
    unfold float_exact, sign_bit. rewrite Prim2SF_SF2Prim by exact V.
    split; [exact Ev|]. intros _. now destruct Sh as [->|(m' & e' & ->)].
  - destruct (P true m Hz) as (sf & v & R & V & Ev & Sh). rewrite R.
    exists (SF2Prim sf), v.
    split; [destruct Sh as [->|(m' & e' & ->)]; reflexivity|].
    unfold float_exact, sign_bit. rewrite Prim2SF_SF2Prim by exact V.
    split; [exact Ev|]. intros _. now destruct Sh as [->|(m' & e' & ->)].
Qed.

(** ** The last bit shifted out *)

Lemma shr_1_r (mrs : shr_record) :
  0 <= shr_m mrs -> shr_r (shr_1 mrs) = Z.odd (shr_m mrs).
Proof.
  destruct mrs as [m r s]. cbn [shr_m]. intros H.
  destruct m as [|[p|p|]|p]; try lia; reflexivity.
Qed.

Lemma iter_shr_1_r (p : positive) :
  forall mrs : shr_record,
    0 <= shr_m mrs ->
    shr_r (SpecFloat.iter_pos shr_1 p mrs) = Z.odd (shr_m mrs / 2 ^ (Z.pos p - 1)).
Proof.
  assert (N : forall a k, 0 <= a -> 0 <= k -> 0 <= a / 2 ^ k).
  { intros a k Ha Hk. apply Z.div_pos; [lia | apply pow2_pos; lia]. }
  induction p as [p IH|p IH|]; intros mrs H; cbn [SpecFloat.iter_pos].
  - assert (H1 : 0 <= shr_m (shr_1 mrs)).
    { rewrite shr_1_m by lia. apply Z.div_pos; lia. }
    assert (H2 : 0 <= shr_m (SpecFloat.iter_pos shr_1 p (shr_1 mrs))).
    { rewrite iter_shr_1_m by lia. apply N; lia. }
    rewrite (IH _ H2), iter_shr_1_m, shr_1_m by lia.
    pose proof (pow2_pos (Z.pos p) ltac:(lia)). pose proof (pow2_pos (Z.pos p - 1) ltac:(lia)).
    rewrite !Z.div_div by lia. f_equal. f_equal.
    change 2 with (2 ^ 1) at 1. rewrite <- !pow2_split by lia. f_equal. lia.
  - assert (H1 : 0 <= shr_m (SpecFloat.iter_pos shr_1 p mrs)).
    { rewrite iter_shr_1_m by lia. apply N; lia. }
    rewrite (IH _ H1), iter_shr_1_m by lia.
    pose proof (pow2_pos (Z.pos p) ltac:(lia)). pose proof (pow2_pos (Z.pos p - 1) ltac:(lia)).
    rewrite Z.div_div by lia. f_equal. f_equal.
    rewrite <- pow2_split by lia. f_equal. lia.
  - rewrite shr_1_r by lia. change (2 ^ (1 - 1)) with 1. now rewrite Z.div_1_r.
Qed.

(** An odd mantissa goes up exactly when the last bit shifted out is
    set. *)
Lemma round_odd (mrs : shr_record) :
  Z.odd (shr_m mrs) = true ->
  round_nearest_even (shr_m mrs) (loc_of_shr_record mrs) =
  if shr_r mrs then shr_m mrs + 1 else shr_m mrs.
Proof.
  destruct mrs as [m [] []]; cbn [shr_m shr_r loc_of_shr_record round_nearest_even];
    intros H; try reflexivity.
  rewrite <- Z.negb_odd, H. reflexivity.
Qed.

(** ** Ints next to the largest float *)

(** From the largest float up to 2^1024, an int rounds to the largest
    float or overflows, as it is below or not below the midpoint. *)
Lemma round_near_max (s : bool) (m : positive) :
  9007199254740991 * 2 ^ 971 <= Z.pos m < 2 ^ 1024 ->
  binary_round prec emax s m 0 =
  if Z.pos m <? 2 ^ 1024 - 2 ^ 970
  then S754_finite s 9007199254740991 971
  else S754_infinity s.
Proof.
  intros [L U].
  assert (Dm : Z.pos (digits2_pos m) = 1024).
  { change (Z.pos (digits2_pos m)) with (Zdigits2 (Z.pos m)).
    apply Zdigits2_unique; [lia|]. split; [|exact U].
    apply Z.le_trans with (2 := L). apply Z.leb_le. vm_compute. reflexivity. }
  unfold binary_round, shl_align. rewrite Dm.
  change (fexp prec emax (1024 + 0) - 0) with 971. cbv iota beta.
  unfold binary_round_aux, shr_fexp. cbn [Zdigits2]. rewrite Dm.
  change (fexp prec emax (1024 + 0) - 0) with 971. cbn [shr].
  set (mrs := SpecFloat.iter_pos shr_1 971 (shr_record_of_loc (Z.pos m) loc_Exact)).
  assert (P971 : 0 < 2 ^ 971) by (apply pow2_pos; lia).
  assert (P970 : 0 < 2 ^ 970) by (apply pow2_pos; lia).
  assert (E971 : 2 ^ 971 = 2 * 2 ^ 970) by reflexivity.
  assert (E1024 : 2 ^ 1024 = 9007199254740992 * 2 ^ 971) by reflexivity.
  assert (Hm : shr_m mrs = 9007199254740991).
  { unfold mrs. rewrite iter_shr_1_m by (rewrite shr_record_of_loc_m; lia).
    rewrite shr_record_of_loc_m. symmetry.
    apply (Z.div_unique _ _ _ (Z.pos m - 9007199254740991 * 2 ^ 971)); lia. }
  assert (Hr : shr_r mrs = negb (Z.pos m <? 2 ^ 1024 - 2 ^ 970)).
  { unfold mrs. rewrite iter_shr_1_r by (rewrite shr_record_of_loc_m; lia).
    rewrite shr_record_of_loc_m. change (971 - 1) with 970.
    destruct (Z.ltb_spec (Z.pos m) (2 ^ 1024 - 2 ^ 970)) as [Lt|Ge]; cbn [negb].
    - replace (Z.pos m / 2 ^ 970) with (2 * 9007199254740991).
      + reflexivity.
      + apply (Z.div_unique _ _ _ (Z.pos m - 9007199254740991 * 2 ^ 971)); lia.
    - replace (Z.pos m / 2 ^ 970) with (2 * 9007199254740991 + 1).
      + reflexivity.
      + apply (Z.div_unique _ _ _ (Z.pos m - 9007199254740991 * 2 ^ 971 - 2 ^ 970)); lia. }
  rewrite round_odd by (rewrite Hm; reflexivity).
  rewrite Hm, Hr.
  destruct (Z.pos m <? 2 ^ 1024 - 2 ^ 970); cbn [negb]; reflexivity.
Qed.

(** [float(z)] raises exactly from the midpoint between the largest
    float and 2^1024 on. *)
Lemma float_of_int_raises (z : Z) :
  (2 ^ 1024 - 2 ^ 970 <= Z.abs z -> float_of_int z = Raises OverflowError) /\
  (Z.abs z < 2 ^ 1024 - 2 ^ 970 ->
   exists (x : float) (v : Z),
     float_of_int z = Returns x /\ float_exact x = Some v /\
     (z <> 0 -> sign_bit x = (z <? 0))).
Proof.
  assert (E970 : 2 ^ 1024 - 2 ^ 970 = 9007199254740991 * 2 ^ 971 + 2 ^ 970) by reflexivity.
  assert (P970 : 0 < 2 ^ 970) by (apply pow2_pos; lia).
  assert (P1024 : 2 ^ 1024 - 2 ^ 970 < 2 ^ 1024) by lia.
  split.
  - intros Hz. destruct (Z.lt_ge_cases (Z.abs z) (2 ^ 1024)) as [Lt|Ge];
      [|now apply float_of_int_overflow].
    unfold float_of_int, binary_normalize.
    destruct z as [|m|m]; cbn [Z.abs] in *; try lia;
      rewrite round_near_max by lia;
      destruct (Z.ltb_spec (Z.pos m) (2 ^ 1024 - 2 ^ 970)); try lia; reflexivity.
  - intros Hz.
    destruct (Z.le_gt_cases (Z.abs z) (9007199254740991 * 2 ^ 971)) as [Le|Gt];
      [now apply float_of_int_finite|].
    unfold float_of_int, binary_normalize.
    destruct z as [|m|m]; cbn [Z.abs] in *; try lia;
      rewrite round_near_max by lia;
      destruct (Z.ltb_spec (Z.pos m) (2 ^ 1024 - 2 ^ 970)); try lia;
      eexists _, _; (split; [reflexivity|]);
      unfold float_exact, sign_bit; rewrite Prim2SF_SF2Prim by reflexivity;
      (split; [reflexivity|]); intros _; reflexivity.
Qed.

(** X9. Formatting an int raises OverflowError exactly when its
    magnitude is at least 2^1024 - 2^970, the midpoint between the
    largest float and 2^1024; the sign does not matter. *)
Theorem format_currency_int_raises (z : Z) :
  format_currency (PyInt z) = Raises OverflowError <->
  2 ^ 1024 - 2 ^ 970 <= Z.abs z.
Proof.
  destruct (float_of_int_raises z) as [Hi Lo].
  unfold format_currency. cbn [to_float]. split.
  - intros H. destruct (Z.le_gt_cases (2 ^ 1024 - 2 ^ 970) (Z.abs z)) as [|Lt]; [assumption|].
    destruct (Lo Lt) as (x & v & Hx & _). rewrite Hx in H. discriminate.
  - intros H. now rewrite (Hi H).
Qed.

(** X22. An int below that midpoint in magnitude is always formatted:
    nothing is raised, the text is an amount with the sign of the int,
    and its hundredths are those of the float the int converts to. *)
Theorem format_currency_int_in_range (z : Z) :
  Z.abs z < 2 ^ 1024 - 2 ^ 970 ->
  exists (x : float) (v : Z) (s : string) (h : Z),
    float_of_int z = Returns x /\ float_exact x = Some v /\
    format_currency (PyInt z) = Returns s /\
    read_currency s = Some (z <? 0, h) /\
    nearest_hundredth v h.
Proof.
  intros Hz. destruct (proj2 (float_of_int_raises z) Hz) as (x & v & Hx & Ev & Sx).
  destruct (format_currency_finite x v Ev) as (s & h & Fs & Rs & Nh).
  exists x, v, s, h. split; [exact Hx|]. split; [exact Ev|].
  split; [unfold format_currency in *; cbn [to_float] in *; now rewrite Hx|].
  split; [|exact Nh].
  destruct (Z.eq_dec z 0) as [->|Hne]; [|now rewrite <- (Sx Hne)].
  injection Hx as <-. exact Rs.
Qed.

Lemma format_currency_int_in_range_witness :
  exists (x : float) (v : Z) (s : string) (h : Z),
    float_of_int (10 ^ 300) = Returns x /\ float_exact x = Some v /\
    format_currency (PyInt (10 ^ 300)) = Returns s /\
    read_currency s = Some (10 ^ 300 <? 0, h) /\
    nearest_hundredth v h.
Proof.
  apply (format_currency_int_in_range (10 ^ 300)).
  apply Z.ltb_lt. vm_compute. reflexivity.
Defined.

(** ** Rounding a value of the format *)

(** A value that is a float of the format rounds to that float. *)
Lemma round_exact (s : bool) (m my : positive) (e ey : Z) :
  bounded prec emax my ey = true -> -1074 <= e ->
  Z.pos m * 2 ^ (e + 1074) = Z.pos my * 2 ^ (ey + 1074) ->
  binary_round prec emax s m e = S754_finite s my ey.
Proof.
  intros V He E.
  destruct (bounded_canonical _ _ V) as [C By].
  assert (E' : Z.pos m * 2 ^ (e - -1074) = Z.pos my * 2 ^ (ey - -1074)).
  { now replace (e - -1074) with (e + 1074) by lia;
      replace (ey - -1074) with (ey + 1074) by lia. }
  pose proof (round_valid s m e) as Vr.
  destruct (round_lower (-1074) s m e (Z.pos my) ey ltac:(lia) ltac:(lia) ltac:(lia)
              ltac:(lia) ltac:(lia) ltac:(lia)) as [R | (m1 & e1 & R & B1 & L)].
  - destruct (round_upper (-1074) s m e (Z.pos my) ey ltac:(lia) ltac:(lia) ltac:(lia)
                ltac:(lia) ltac:(lia) ltac:(lia) ltac:(lia)) as [R' | (m2 & e2 & R' & _)];
      rewrite R in R'; discriminate.
  - destruct (round_upper (-1074) s m e (Z.pos my) ey ltac:(lia) ltac:(lia) ltac:(lia)
                ltac:(lia) ltac:(lia) ltac:(lia) ltac:(lia)) as [R' | (m2 & e2 & R' & _ & U)];
      rewrite R in R'; [discriminate|]. injection R' as <- <-.
    rewrite R in *. cbn [valid_binary] in Vr.
    replace (e1 - -1074) with (e1 + 1074) in * by lia.
    replace (ey - -1074) with (ey + 1074) in * by lia.
    destruct (bounded_unique _ _ _ _ Vr V ltac:(lia)) as [-> ->]. reflexivity.
Qed.

Lemma exact_cases (y : float) (v : Z) :
  float_exact y = Some v ->
  (v = 0 /\ exists s, Prim2SF y = S754_zero s) \/
  exists s m e, Prim2SF y = S754_finite s m e /\ bounded prec emax m e = true /\
                v = cond_Zopp s (Z.pos m * 2 ^ (e + 1074)) /\
                0 < Z.pos m * 2 ^ (e + 1074).
Proof.
  unfold float_exact. pose proof (Prim2SF_valid y) as V.
  destruct (Prim2SF y) as [s| | |s m e]; try discriminate; intros [= <-].
  - left. eauto.
  - right. exists s, m, e. repeat split; [exact V|].
    apply finite_exact_pos, (bounded_exponent m), V.
Qed.

(** Normalising an integer multiple of a power of two whose value is a
    float gives that value. *)
Lemma normalize_exact (z ez : Z) (y : float) :
  -1074 <= ez -> float_exact y = Some (z * 2 ^ (ez + 1074)) ->
  sf_exact (binary_normalize prec emax z ez false) = Some (z * 2 ^ (ez + 1074)).
Proof.
  intros He Hy. pose proof (pow2_pos (ez + 1074) ltac:(lia)) as P.
  destruct z as [|m|m]; cbn [binary_normalize]; [reflexivity| |];
    destruct (exact_cases y _ Hy) as [[E _] | (s & my & ey & _ & V & E & Pos)]; try nia;
    destruct s; cbn [cond_Zopp] in E; try nia.
  - rewrite (round_exact false m my ez ey V He ltac:(lia)). cbn [sf_exact cond_Zopp].
    f_equal. lia.
  - rewrite (round_exact true m my ez ey V He ltac:(lia)). cbn [sf_exact cond_Zopp].
    f_equal. lia.
Qed.

Lemma aligned_exact (s : bool) (m : positive) (e ez : Z) :
  -1074 <= ez -> ez <= e ->
  cond_Zopp s (Z.pos (shl_align m e ez).1) * 2 ^ (ez + 1074) =
  cond_Zopp s (Z.pos m * 2 ^ (e + 1074)).
Proof.
  intros Hz He. rewrite shl_align_value by exact He.
  replace (e + 1074) with ((e - ez) + (ez + 1074)) by lia.
  rewrite (pow2_split (e - ez) (ez + 1074)) by lia. destruct s; cbn [cond_Zopp]; ring.
Qed.

(** A sum or a difference of two finite floats whose exact value is a
    float is that float's value: nothing is rounded. *)
Lemma add_exact (x y w : float) (a b : Z) :
  float_exact x = Some a -> float_exact y = Some b -> float_exact w = Some (a + b) ->
  float_exact (x + y) = Some (a + b).
Proof.
  intros Hx Hy Hw. unfold float_exact. rewrite add_spec.
  destruct (exact_cases x a Hx) as [[-> [sx Ex]] | (sx & mx & ex & Ex & Vx & -> & Px)];
    destruct (exact_cases y b Hy) as [[-> [sy Ey]] | (sy & my & ey & Ey & Vy & -> & Py)];
    rewrite Ex, Ey; cbn [SF64add SFadd].
  - now destruct sx, sy.
  - reflexivity.
  - cbn [sf_exact]. f_equal. lia.
  - pose proof (bounded_exponent _ _ Vx). pose proof (bounded_exponent _ _ Vy).
    set (ez := Z.min ex ey).
    rewrite <- (aligned_exact sx mx ex ez), <- (aligned_exact sy my ey ez) in *
      by (unfold ez; lia).
    rewrite <- Z.mul_add_distr_r in *.
    apply (normalize_exact _ _ w); [unfold ez; lia | exact Hw].
Qed.

Lemma sub_exact (x y w : float) (a b : Z) :
  float_exact x = Some a -> float_exact y = Some b -> float_exact w = Some (a - b) ->
  float_exact (x - y) = Some (a - b).
Proof.
  intros Hx Hy Hw. unfold float_exact. rewrite sub_spec.
  destruct (exact_cases x a Hx) as [[-> [sx Ex]] | (sx & mx & ex & Ex & Vx & -> & Px)];
    destruct (exact_cases y b Hy) as [[-> [sy Ey]] | (sy & my & ey & Ey & Vy & -> & Py)];
    rewrite Ex, Ey; cbn [SF64sub SFsub].
  - now destruct sx, sy.
  - cbn [sf_exact]. f_equal. destruct sy; cbn [cond_Zopp negb]; lia.
  - cbn [sf_exact]. f_equal. lia.
  - pose proof (bounded_exponent _ _ Vx). pose proof (bounded_exponent _ _ Vy).
    set (ez := Z.min ex ey).
    rewrite <- (aligned_exact sx mx ex ez), <- (aligned_exact sy my ey ez) in *
      by (unfold ez; lia).
    rewrite <- Z.mul_sub_distr_r in *.
    apply (normalize_exact _ _ w); [unfold ez; lia | exact Hw].
Qed.

Lemma opp_exact (x : float) (a : Z) :
  float_exact x = Some a -> float_exact (- x) = Some (- a).
Proof.
  unfold float_exact. rewrite opp_spec.
  destruct (Prim2SF x) as [s| | |s m e]; try discriminate; intros [= <-];
    cbn [SFopp sf_exact]; [reflexivity|]. f_equal. destruct s; cbn [cond_Zopp negb]; lia.
Qed.

Lemma zero_plus_zero (e : float) : float_exact e = Some 0 -> (0 + e)%float = 0%float.
Proof.
  intros He. rewrite add_zero_l. unfold is_neg_zero.
  destruct (exact_cases e 0 He) as [[_ [s E]] | (s & m & ex & E & _ & Hv & P)].
  - rewrite E. destruct s; [reflexivity|]. apply Prim2SF_inj. now rewrite E.
  - exfalso. destruct s; cbn [cond_Zopp] in Hv; lia.
Qed.

(** ** The compensated sum when nothing is rounded *)

(** When an addition is exact, the compensation it contributes is zero. *)
Lemma compensation_zero (f x : float) :
  exact_add f x = true ->
  float_exact ((f - (f + x)) + x) = Some 0 /\
  float_exact ((x - (f + x)) + f) = Some 0.
Proof.
  intros H. destruct (exact_add_finite f x H) as (a & b & Hf & Hx).
  pose proof (exact_add_sound f x a b H Hf Hx) as Ht.
  assert (Z0 : float_exact 0 = Some 0) by reflexivity.
  split.
  - assert (D : float_exact (f - (f + x)) = Some (- b)).
    { replace (- b) with (a - (a + b)) by lia.
      apply (sub_exact _ _ (- x)); try assumption.
      replace (a - (a + b)) with (- b) by lia. now apply opp_exact. }
    assert (W : float_exact 0 = Some (- b + b)) by now replace (- b + b) with 0 by lia.
    pose proof (add_exact _ _ 0 (- b) b D Hx W) as Q.
    now replace (- b + b) with 0 in Q by lia.
  - assert (D : float_exact (x - (f + x)) = Some (- a)).
    { replace (- a) with (b - (a + b)) by lia.
      apply (sub_exact _ _ (- f)); try assumption.
      replace (b - (a + b)) with (- a) by lia. now apply opp_exact. }
    assert (W : float_exact 0 = Some (- a + a)) by now replace (- a + a) with 0 by lia.
    pose proof (add_exact _ _ 0 (- a) a D Hf W) as Q.
    now replace (- a + a) with 0 in Q by lia.
Qed.

Lemma compensated_exact (xs : list float) :
  forall f : float,
    exact_sum_from f xs = true ->
    compensated_from f 0 xs = fold_left PrimFloat.add xs f.
Proof.
  induction xs as [|x xs IH]; intros f H; cbn [compensated_from fold_left].
  - reflexivity.
  - cbn [exact_sum_from] in H. apply andb_true_iff in H as [Hx Hxs].
    destruct (compensation_zero f x Hx) as [C1 C2].
    rewrite (zero_plus_zero _ C1), (zero_plus_zero _ C2).
    destruct (abs x <=? abs f)%float; now apply IH.
Qed.

(** With exact additions the two summations return the same number. *)
Lemma sum_compensated_exact (xs : list float) :
  exact_sum_from 0 xs = true ->
  sum_compensated xs = match xs with
                       | [] => PyInt 0
                       | _ => PyFloat (float_sum xs)
                       end.
Proof.
  destruct xs as [|x xs]; [reflexivity|]. cbn [exact_sum_from sum_compensated].
  intros [_ H]%andb_true_iff. now rewrite compensated_exact.
Qed.

(** ** calculate_total and process_order under either summation *)

Lemma calculate_total_by_plain (ps : list Product) :
  calculate_total_by LeftToRight ps = calculate_total ps.
Proof. unfold calculate_total_by, sum_of_prices, calculate_total. now rewrite map_map. Qed.

Lemma Order_total_by_plain (o : Order) :
  Order_total_by LeftToRight o = Order_total o.
Proof. unfold Order_total_by, sum_of_prices, Order_total. now rewrite map_map. Qed.

Lemma process_order_by_plain (u : User) (ps : list Product) :
  process_order_by LeftToRight u ps = process_order u ps.
Proof. unfold process_order_by, process_order. now rewrite calculate_total_by_plain. Qed.

(** Both summations return the int 0 for no product and a float
    otherwise; nothing is raised. *)
Lemma calculate_total_by_value (how : summation) (ps : list Product) :
  exists x : float,
    calculate_total_by how ps =
    Returns (match ps with
             | [] => PyInt 0
             | _ => PyFloat x
             end).
Proof.
  destruct how.
  - exists (float_sum (map price ps)). rewrite calculate_total_by_plain.
    apply calculate_total_value.
  - unfold calculate_total_by, sum_of_prices, sum_compensated.
    destruct ps as [|p ps]; [now exists 0%float|]. cbn [map]. eauto.
Qed.

Lemma calculate_total_by_exact (how : summation) (ps : list Product) :
  exact_sum_from 0 (map price ps) = true ->
  exists r v, calculate_total_by how ps = Returns r /\
              number_exact r = Some v /\ exact_sum (map price ps) = Some v.
Proof.
  intros H. destruct (calculate_total_exact ps H) as (r & v & Hr & Hv & He).
  exists r, v. split; [|now split]. destruct how.
  - now rewrite calculate_total_by_plain.
  - unfold calculate_total_by, sum_of_prices. rewrite sum_compensated_exact by exact H.
    rewrite calculate_total_value in Hr. rewrite <- Hr. now destruct ps.
Qed.

Lemma calculate_total_by_single (how : summation) (p : Product) :
  calculate_total_by how [p] =
  Returns (PyFloat (if is_neg_zero (price p) then 0 else price p)).
Proof.
  destruct how.
  - rewrite calculate_total_by_plain, calculate_total_value. unfold float_sum.
    cbn [map fold_left]. now rewrite add_zero_l.
  - unfold calculate_total_by, sum_of_prices. cbn [map sum_compensated compensated_from].
    rewrite add_zero_l. reflexivity.
Qed.

(** The number [calculate_total] returns, as a float, and the dict
    [process_order] builds from it. *)
Lemma process_order_by_value (how : summation) (u : User) (ps : list Product) :
  exists (r : number) (s : float),
    calculate_total_by how ps = Returns r /\ to_float r = Returns s /\
    format_currency r = Returns ("$" +:+ format_fixed2 s) /\
    process_order_by how u ps =
    Returns (<["user_id" := VInt (user_id u)]>
            (<["user_name" := VStr (user_name u)]>
            (<["subtotal" := VStr ("$" +:+ format_fixed2 s)]>
            (<["tax" := VStr ("$" +:+ format_fixed2 (s * 0.08))]>
            (<["total" := VStr ("$" +:+ format_fixed2 (s + s * 0.08))]>
            (<["items" := VList (map VStr (map product_name ps))]> ∅)))))).
Proof.
  destruct (calculate_total_by_value how ps) as [x Hx].
  unfold process_order_by. rewrite Hx. destruct ps as [|p ps].
  - exists (PyInt 0), 0%float. repeat split.
  - exists (PyFloat x), x. repeat split. cbn [mbind outcome_bind py_mul py_add to_float].
    rewrite !format_currency_float. cbn [mbind outcome_bind]. now rewrite map_map.
Qed.


(** C3, the claim as stated fails: under either summation the prices
    0.1 and 0.2 total 0.30000000000000004, which is not their arithmetic
    sum and not the float 0.3. *)
Lemma calculate_total_rounds :
  calculate_total tenths = Returns (PyFloat 0.30000000000000004) /\
  calculate_total_by LeftToRight tenths = Returns (PyFloat 0.30000000000000004) /\
  calculate_total_by Compensated tenths = Returns (PyFloat 0.30000000000000004) /\
  number_exact (PyFloat 0.30000000000000004) <> exact_sum (map price tenths) /\
  py_eq (PyFloat 0.30000000000000004) (PyFloat 0.3) = false.
Proof. repeat split; vm_compute; congruence. Qed.

Lemma eqb_normalized (x : float) :
  Prim2SF x <> S754_nan ->
  PrimFloat.eqb (if is_neg_zero x then 0 else x) x = true.
Proof.
  intros Hnan. unfold is_neg_zero. destruct (Prim2SF x) as [[]| | |] eqn:E;
    try (apply float_eqb_refl; congruence).
  apply (float_eqb_exact _ _ 0); unfold float_exact; [reflexivity|]. now rewrite E.
Qed.

(** C3, amended. Whichever way [sum] adds: the total of no product is
    the int 0; the total of one product is its price (0.0 for -0.0, which
    compares equal); the total of any list is returned without an
    exception, a float when there is a product; and it is the exact
    arithmetic sum of the prices whenever no addition from left to right
    rounds.  Otherwise the total is a rounded sum, and the rounding
    depends on the summation: from left to right every further price is
    added by the float addition, and ten prices of 0.1 total
    0.99999999999999989, while the compensated sum gives 1.  Nothing is
    rounded to hundredths. *)
Theorem calculate_total_sum (how : summation) :
  calculate_total_by how [] = Returns (PyInt 0) /\
  (forall p : Product,
      calculate_total_by how [p] =
      Returns (PyFloat (if is_neg_zero (price p) then 0 else price p))) /\
  (forall p : Product, Prim2SF (price p) <> S754_nan ->
      exists r, calculate_total_by how [p] = Returns r /\
                py_eq r (PyFloat (price p)) = true) /\
  (forall ps : list Product, exists x : float,
      calculate_total_by how ps =
      Returns (match ps with [] => PyInt 0 | _ => PyFloat x end)) /\
  (forall ps : list Product,
      exact_sum_from 0 (map price ps) = true ->
      exists r v, calculate_total_by how ps = Returns r /\
                  number_exact r = Some v /\
                  exact_sum (map price ps) = Some v) /\
  (forall (ps : list Product) (p : Product),
      calculate_total_by LeftToRight (ps ++ [p]) =
      (s ← calculate_total_by LeftToRight ps; py_add s (PyFloat (price p)))) /\
  calculate_total_by LeftToRight ten_tenths = Returns (PyFloat 0.99999999999999989) /\
  calculate_total_by Compensated ten_tenths = Returns (PyFloat 1) /\
  calculate_total_by how [mkProduct 1 "Test" 29.99] = Returns (PyFloat 29.99) /\
  calculate_total_by how round_prices = Returns (PyFloat 60) /\
  calculate_total_by how [mkProduct 1 "T" 0.001] = Returns (PyFloat 0.001).
Proof.
  split; [now destruct how|].
  split; [apply calculate_total_by_single|]. split.
  { intros p Hnan. eexists. split; [apply calculate_total_by_single|].
    cbn [py_eq]. now apply eqb_normalized. }
  split; [apply calculate_total_by_value|].
  split; [apply calculate_total_by_exact|]. split.
  { intros ps p. rewrite !calculate_total_by_plain. apply calculate_total_snoc. }
  destruct how; repeat split; vm_compute; reflexivity.
Qed.

(** The theorem at the prices 10, 20 and 30 under the compensated sum:
    no addition rounds, and the total is their arithmetic sum, 60. *)
Lemma calculate_total_sum_witness :
  exists r v, calculate_total_by Compensated round_prices = Returns r /\
              number_exact r = Some v /\
              exact_sum (map price round_prices) = Some v.
Proof.
  apply (proj1 (proj2 (proj2 (proj2 (proj2 (calculate_total_sum Compensated)))))).
  vm_compute. reflexivity.
Defined.

(** ** Order.total *)

(** C8, amended. Whichever way [sum] adds, [o.total] is what
    [calculate_total(o.products)] returns: the sum of the prices with no
    tax applied (their exact arithmetic sum when no addition rounds).
    The total [process_order] prints is that of this number plus 0.08
    times it, in floats; the two numbers compare equal exactly when the
    sum is zero, is infinite, or is at most 6 * 2^-1074 in magnitude, and
    differ for every other sum. *)
Theorem Order_total_spec (how : summation) (u : User) (o : Order) :
  Order_total_by how o = calculate_total_by how (products o) /\
  (exists (r : number) (s : float) (d : gmap string py_value) (t : string),
      Order_total_by how o = Returns r /\
      to_float r = Returns s /\
      (exact_sum_from 0 (map price (products o)) = true ->
       float_exact s = exact_sum (map price (products o))) /\
      process_order_by how u (products o) = Returns d /\
      format_currency (PyFloat (s + s * 0.08)) = Returns t /\
      d !! "total" = Some (VStr t) /\
      py_eq r (PyFloat (s + s * 0.08)) = subtotal_absorbs_tax r) /\
  (forall r : number, number_exact r = Some 0 -> subtotal_absorbs_tax r = true) /\
  (forall x : float,
      tax_vanishes x = true <->
      (exists s, Prim2SF x = S754_infinity s) \/
      (exists v, float_exact x = Some v /\ -6 <= v <= 6)) /\
  Order_total_by how demo_order = Returns (PyFloat 79.98) /\
  (79.98 + 79.98 * 0.08 = 86.3784)%float /\
  py_eq (PyFloat 79.98) (PyFloat 86.3784) = false.
Proof.
  split; [reflexivity|]. split.
  { destruct (process_order_by_value how u (products o)) as (r & s & Hr & Hs & Hf & Hd).
    eexists r, s, _, _. split; [exact Hr|]. split; [exact Hs|]. split.
    { intros H.
      destruct (calculate_total_by_exact how _ H) as (r' & v & Hr' & Hv & He).
      rewrite Hr in Hr'. injection Hr' as <-. rewrite He, <- Hv.
      destruct r as [z|x]; cbn [to_float number_exact] in *.
      - destruct (calculate_total_by_value how (products o)) as [x Hx]. rewrite Hx in Hr.
        destruct (products o); [|discriminate]. injection Hr as <-. now injection Hs as <-.
      - now injection Hs as <-. }
    split; [exact Hd|]. split; [reflexivity|].
    split; [simplify_map_eq; reflexivity|].
    destruct r as [z|x]; cbn [to_float] in Hs.
    - destruct (calculate_total_by_value how (products o)) as [x Hx]. rewrite Hx in Hr.
      destruct (products o); [|discriminate]. injection Hr as <-. now injection Hs as <-.
    - injection Hs as <-. apply total_equals_subtotal. }
  split.
  { intros [z|x] H; cbn [number_exact subtotal_absorbs_tax] in *.
    - injection H as H. apply Z.eqb_eq.
      pose proof (Z.pow_pos_nonneg 2 1074). lia.
    - unfold tax_vanishes. rewrite H. now destruct (Prim2SF x). }
  split.
  { intros x. unfold tax_vanishes, float_exact.
    destruct (Prim2SF x) as [s|s| |s m e]; cbn [sf_exact].
    - split; [right; exists 0; split; [reflexivity | lia] | reflexivity].
    - split; [left; now exists s | reflexivity].
    - split; [discriminate | intros [[s H]|(v & H & _)]; discriminate].
    - rewrite Z.leb_le. split.
      + intros H. right. eexists. split; [reflexivity | lia].
      + intros [[s' H]|(v & H & Hv)]; [discriminate|]. injection H as <-. lia. }
  destruct how; repeat split; vm_compute; reflexivity.
Qed.

(** The theorem at an order of one product priced 5e-324, under the
    compensated sum: the sum is not zero, and the total with tax is the
    same number. *)
Lemma Order_total_spec_witness :
  exists (r : number) (s : float) (d : gmap string py_value) (t : string),
    Order_total_by Compensated tiny_order = Returns r /\
    to_float r = Returns s /\
    (exact_sum_from 0 (map price (products tiny_order)) = true ->
     float_exact s = exact_sum (map price (products tiny_order))) /\
    process_order_by Compensated alice (products tiny_order) = Returns d /\
    format_currency (PyFloat (s + s * 0.08)) = Returns t /\
    d !! "total" = Some (VStr t) /\
    py_eq r (PyFloat (s + s * 0.08)) = subtotal_absorbs_tax r.
Proof. apply (proj1 (proj2 (Order_total_spec Compensated alice tiny_order))). Defined.

(** ** Calls with equal arguments *)















(** ** format_currency, in full *)

(** C5, the claim as stated fails: an infinite amount (the sum of two
    prices of 1e308, say) is printed as "$inf" and a NaN as "$nan", with
    no digits, separators or fraction; an int too large for a float is
    not printed at all. *)
Lemma format_currency_not_an_amount :
  format_currency (PyFloat infinity) = Returns "$inf" /\
  read_currency "$inf" = None /\
  (1e308 + 1e308)%float = infinity /\
  format_currency (PyFloat neg_infinity) = Returns "$-inf" /\
  format_currency (PyFloat nan) = Returns "$nan" /\
  read_currency "$nan" = None /\
  format_currency (PyInt (10 ^ 400)) = Raises OverflowError.
Proof. repeat split; vm_compute; reflexivity. Qed.

(** C5, amended. For every finite amount, [format_currency] returns "$",
    a minus sign for a negative amount, the integer digits with a comma
    before every group of three, a point and exactly two fraction
    digits, and the number printed is the amount rounded to the nearest
    hundredth (a tie to the even one); an int amount is printed as the
    float it converts to, which for an int below 2^53 in magnitude is the
    int itself, followed by ".00"; an int of magnitude 2^1024 - 2^970 or
    more converts to no float, and the call raises OverflowError, while
    every smaller int is printed.  Infinities and NaN are printed as
    "$inf", "$-inf" and "$nan". *)
Theorem format_currency_spec :
  (forall (x : float) (v : Z),
      float_exact x = Some v ->
      exists (s : string) (h : Z),
        format_currency (PyFloat x) = Returns s /\
        read_currency s = Some (sign_bit x, h) /\
        nearest_hundredth v h) /\
  (forall (z : Z) (x : float),
      float_of_int z = Returns x ->
      format_currency (PyInt z) = format_currency (PyFloat x)) /\
  (forall z : Z,
      Z.abs z < 2 ^ 53 ->
      exists s, format_currency (PyInt z) = Returns s /\
                read_currency s = Some (z <? 0, 100 * Z.abs z)) /\
  (forall z : Z,
      format_currency (PyInt z) = Raises OverflowError <->
      2 ^ 1024 - 2 ^ 970 <= Z.abs z) /\
  (forall z : Z,
      Z.abs z < 2 ^ 1024 - 2 ^ 970 ->
      exists (x : float) (v : Z),
        float_of_int z = Returns x /\ float_exact x = Some v) /\
  format_currency (PyFloat infinity) = Returns "$inf" /\
  format_currency (PyFloat neg_infinity) = Returns "$-inf" /\
  format_currency (PyFloat nan) = Returns "$nan" /\
  format_currency (PyInt 100) = Returns "$100.00" /\
  format_currency (PyFloat 1234.56) = Returns "$1,234.56" /\
  format_currency (PyInt 0) = Returns "$0.00" /\
  format_currency (PyFloat (-1234567.891)) = Returns "$-1,234,567.89" /\
  format_currency (PyFloat 0.125) = Returns "$0.12".
Proof.
  split; [exact format_currency_finite|]. split.
  { intros z x H. unfold format_currency. cbn [to_float]. now rewrite H. }
  split; [exact format_currency_int|].
  split.
  { intros z. destruct (float_of_int_raises z) as [Hi Lo].
    unfold format_currency. cbn [to_float]. split.
    - intros H.
      destruct (Z.le_gt_cases (2 ^ 1024 - 2 ^ 970) (Z.abs z)) as [|Lt]; [assumption|].
      destruct (Lo Lt) as (x & v & Hx & _). rewrite Hx in H. discriminate.
    - intros H. now rewrite (Hi H). }
  split.
  { intros z Hz. destruct (proj2 (float_of_int_raises z) Hz) as (x & v & Hx & Ev & _).
    now exists x, v. }
  repeat split; vm_compute; reflexivity.
Qed.

(** The theorem at the amount 1234.56, whose exact value is
    5429652300748554 * 2^-42. *)
Lemma format_currency_spec_witness :
  exists (s : string) (h : Z),
    format_currency (PyFloat 1234.56) = Returns s /\
    read_currency s = Some (sign_bit 1234.56, h) /\
    nearest_hundredth (5429652300748554 * 2 ^ 1032) h.
Proof.
  apply (proj1 format_currency_spec 1234.56%float (5429652300748554 * 2 ^ 1032)).
  vm_compute. reflexivity.
Defined.
